(** * Sequence wall: discovery, thumbnail cache and tick scheduler

    A shallow embedding of [seq_wall_ultra_nav_sync_fix.py]:
    - [Str]: the Python string operations the program uses;
    - [Pattern]: the two regular expressions of [SEQ_PATTERNS] and the
      matching loop of [find_sequences];
    - [Discovery]: [find_sequences] over the output of [os.walk];
    - [Codec]: [resize_rgba_contain_premultiplied];
    - [Sha1], [Cache]: [hashlib.sha1] and the class [ThumbCache];
    - [Wall]: [SeqTile] and [SequenceWallApp._tick];
    - [Uni]: the patterns and the extension filter on every Python string.

    In [Str], [Pattern] and [Discovery] file names are strings over the code
    points 0..255 (the type [ascii]); on that range Python's [\d] is [0-9],
    [str.lower] maps [A-Z] and the Latin-1 capitals, and [re.IGNORECASE]
    relates no other character to an ASCII letter.  [Uni] reads a name as
    the list of its code points, whatever they are, and
    [UniFacts.classify_codes] shows that [Pattern.classify] is that matcher
    on the names below 256. *)

From Stdlib Require Import ZArith NArith List Ascii String Bool Lia.
From Stdlib Require Import Sorting.Sorted Sorting.Permutation.
From Stdlib Require Floats QArith Qround Qminmax.
From stdpp Require Import gmap strings.

Local Open Scope Z_scope.

(** ** Python strings *)

Module Str.

Definition code (c : ascii) : Z := Z.of_N (N_of_ascii c).

(** [\d], and the digits [int] reads, among the code points 0..255: [0] to
    [9] ([Uni.is_digit] is the test on every code point). *)
Definition is_digit (c : ascii) : bool := (48 <=? code c) && (code c <=? 57).

Definition digit_value (c : ascii) : Z := code c - 48.

(** [str.lower] on one code point below 256. *)
Definition lower_char (c : ascii) : ascii :=
  let n := code c in
  if ((65 <=? n) && (n <=? 90))
     || ((192 <=? n) && (n <=? 222) && negb (n =? 215))
  then ascii_of_N (Z.to_N (n + 32)) else c.

Fixpoint lower (s : string) : string :=
  match s with
  | EmptyString => EmptyString
  | String c s' => String (lower_char c) (lower s')
  end.

Fixpoint all_digits (s : string) : bool :=
  match s with
  | EmptyString => true
  | String c s' => is_digit c && all_digits s'
  end.

(** [s.endswith(suffix)] *)
Fixpoint endswith (s suffix : string) : bool :=
  if String.eqb s suffix then true
  else match s with
       | EmptyString => false
       | String _ s' => endswith s' suffix
       end.

(** [s.endswith(tuple)] *)
Definition endswith_any (s : string) (suffixes : list string) : bool :=
  existsb (endswith s) suffixes.

(** [int(s)] on a string of decimal digits; [None] is [ValueError]. *)
Fixpoint int_loop (acc : Z) (s : string) : option Z :=
  match s with
  | EmptyString => Some acc
  | String c s' =>
      if is_digit c then int_loop (10 * acc + digit_value c) s' else None
  end.

Definition int (s : string) : option Z :=
  match s with
  | EmptyString => None
  | _ => int_loop 0 s
  end.

(** [str(n)] for an integer. *)
Definition digit_char (d : Z) : ascii := ascii_of_N (Z.to_N (48 + d)).

Fixpoint str_nat_loop (fuel : nat) (n : Z) (acc : string) : string :=
  match fuel with
  | O => acc
  | S fuel' =>
      let acc' := String (digit_char (n mod 10)) acc in
      if n / 10 =? 0 then acc' else str_nat_loop fuel' (n / 10) acc'
  end.

Definition str_int (n : Z) : string :=
  if n <? 0
  then String "-"%char (str_nat_loop (S (Z.to_nat (Z.log2 (- n)))) (- n) EmptyString)
  else str_nat_loop (S (Z.to_nat (Z.log2 n))) n EmptyString.

(** [posixpath.join(a, b)] *)
Definition last_is_slash (a : string) : bool := endswith a "/".

Definition path_join (a b : string) : string :=
  match b with
  | String "/"%char _ => b
  | _ => match a with
         | EmptyString => b
         | _ => if last_is_slash a then a +:+ b else a +:+ "/" +:+ b
         end
  end.

(** The number a string of digits denotes, most significant digit first. *)
Fixpoint value (s : string) : Z :=
  match s with
  | EmptyString => 0
  | String c s' => digit_value c * 10 ^ Z.of_nat (String.length s') + value s'
  end.

#[global] Arguments str_int : simpl never.
#[global] Arguments path_join : simpl never.

End Str.

(** ** The file-name patterns *)

Module Pattern.
Import Str.

Definition EXTS : list string := ["png"; "jpg"; "jpeg"; "bmp"; "tif"; "tiff"].

Definition SUPPORTED_EXTS : list string :=
  [".png"; ".jpg"; ".jpeg"; ".bmp"; ".tif"; ".tiff"].

Definition is_newline (c : ascii) : bool := code c =? 10.

(** The character class [[._-]]. *)
Definition is_sep (c : ascii) : bool :=
  (code c =? 46) || (code c =? 95) || (code c =? 45).

Definition is_dot (c : ascii) : bool := code c =? 46.

(** [$]: the end of the string, or just before a newline that ends it. *)
Definition at_end (s : string) : bool :=
  match s with
  | EmptyString => true
  | String c EmptyString => is_newline c
  | _ => false
  end.

(** A literal under [re.IGNORECASE]: the text matched and what follows.
    Among the code points 0..255 a small letter of the pattern matches
    itself and its capital ([Uni.literal_ci] is the test on every code
    point). *)
Fixpoint literal_ci (lit s : string) : option (string * string) :=
  match lit with
  | EmptyString => Some (EmptyString, s)
  | String p lit' =>
      match s with
      | EmptyString => None
      | String c s' =>
          if Ascii.eqb (lower_char c) p then
            match literal_ci lit' s' with
            | Some (m, rest) => Some (String c m, rest)
            | None => None
            end
          else None
      end
  end.

(** [(?P<ext>png|jpg|jpeg|bmp|tif|tiff)$]: the alternatives in order, each
    followed by [$]. *)
Fixpoint ext_alternatives (alts : list string) (s : string) : option string :=
  match alts with
  | [] => None
  | e :: alts' =>
      match literal_ci e s with
      | Some (m, rest) => if at_end rest then Some m else ext_alternatives alts' s
      | None => ext_alternatives alts' s
      end
  end.

Definition ext_at_end (s : string) : option string := ext_alternatives EXTS s.

(** The first [n] characters when all are digits, and the rest. *)
Fixpoint take_digits (n : nat) (s : string) : option (string * string) :=
  match n with
  | O => Some (EmptyString, s)
  | S n' =>
      match s with
      | EmptyString => None
      | String c s' =>
          if is_digit c then
            match take_digits n' s' with
            | Some (d, rest) => Some (String c d, rest)
            | None => None
            end
          else None
      end
  end.

(** [\.(?P<ext>...)$] *)
Definition dot_ext (s : string) : option string :=
  match s with
  | String c s' => if is_dot c then ext_at_end s' else None
  | EmptyString => None
  end.

(** [(?P<index>\d{3,6})\.(?P<ext>...)$]: the greedy count, longest first. *)
Fixpoint index_counts (counts : list nat) (s : string) : option (string * string) :=
  match counts with
  | [] => None
  | n :: counts' =>
      match take_digits n s with
      | Some (d, rest) =>
          match dot_ext rest with
          | Some e => Some (d, e)
          | None => index_counts counts' s
          end
      | None => index_counts counts' s
      end
  end.

Definition index_ext (s : string) : option (string * string) :=
  index_counts [6; 5; 4; 3]%nat s.

(** [[._-](?P<index>\d{3,6})\.(?P<ext>...)$] *)
Definition sep_index_ext (s : string) : option (string * string) :=
  match s with
  | String c s' => if is_sep c then index_ext s' else None
  | EmptyString => None
  end.

(** The groups of a match: prefix, index and ext as matched. *)
Record groups : Type := Groups { g_prefix : string; g_index : string; g_ext : string }.

(** [^(?P<prefix>.*?)] followed by [tail]: the lazy star tries the tail
    first and otherwise takes one more character, which is not a newline. *)
Fixpoint lazy_prefix (tail : string -> option (string * string)) (s : string)
  : option groups :=
  match tail s with
  | Some (i, e) => Some (Groups EmptyString i e)
  | None =>
      match s with
      | EmptyString => None
      | String c s' =>
          if is_newline c then None
          else match lazy_prefix tail s' with
               | Some g => Some (Groups (String c (g_prefix g)) (g_index g) (g_ext g))
               | None => None
               end
      end
  end.

Definition pattern_sep : string -> option groups := lazy_prefix sep_index_ext.
Definition pattern_plain : string -> option groups := lazy_prefix index_ext.

Definition SEQ_PATTERNS : list (string -> option groups) :=
  [pattern_sep; pattern_plain].

(** What the matcher reports for a file name: the dictionary key
    [(prefix, ext)] and the entry [(idx, f, len(idx_str))]. *)
Record frame : Type := Frame { f_idx : Z; f_name : string; f_width : nat }.

(** The loop [for pat in SEQ_PATTERNS] of [find_sequences]: the first pattern
    that matches and whose index converts decides; [continue] moves on. *)
Fixpoint classify_with (pats : list (string -> option groups)) (f : string)
  : option ((string * string) * frame) :=
  match pats with
  | [] => None
  | pat :: pats' =>
      match pat f with
      | Some m =>
          let prefix := g_prefix m in
          let ext := lower (g_ext m) in
          let idx_str := g_index m in
          match int idx_str with
          | Some idx => Some ((prefix, ext), Frame idx f (String.length idx_str))
          | None => classify_with pats' f
          end
      | None => classify_with pats' f
      end
  end.

Definition classify (f : string) : option ((string * string) * frame) :=
  classify_with SEQ_PATTERNS f.

(** Zero-padded decimal rendering of an index on [w] digits, the inverse the
    round trip is stated against: [f"{n:0{w}d}"] for [0 <= n < 10^w]. *)
Fixpoint zero_padded (w : nat) (n : Z) : string :=
  match w with
  | O => EmptyString
  | S w' => zero_padded w' (n / 10) +:+ String (digit_char (n mod 10)) EmptyString
  end.

(** The longest run of digits that ends [s]: for a name
    [stem ++ "." ++ ext], the index embedded at the end of [stem]. *)
Fixpoint trailing_digits (s : string) : string :=
  match s with
  | EmptyString => EmptyString
  | String _ s' => if all_digits s then s else trailing_digits s'
  end.

Fixpoint no_dot (s : string) : bool :=
  match s with
  | EmptyString => true
  | String c s' => negb (is_dot c) && no_dot s'
  end.

(** What a match of either pattern says about the name: the name is
    [prefix ++ sep ++ index ++ "." ++ ext ++ tail]. *)
Definition decomposes (f prefix sep idx_str raw tail : string) : Prop :=
  f = prefix +:+ sep +:+ idx_str +:+ String "."%char (raw +:+ tail)
  /\ at_end tail = true
  /\ In (lower raw) EXTS
  /\ all_digits idx_str = true
  /\ (3 <= String.length idx_str <= 6)%nat.

End Pattern.

(** ** Sequence discovery *)

Module Discovery.
Import Str Pattern.

Record SequenceItem : Type := SequenceItem_mk {
  key : string;
  folder : string;
  prefix : string;
  ext : string;
  frames : list string;
  digits : nat
}.

(** A Python [dict] keeps its keys in insertion order: an association list
    with at most one entry per key. *)
Section Dict.
Context {K V : Type} `{EqDecision K}.

Fixpoint dict_get (k : K) (d : list (K * V)) : option V :=
  match d with
  | [] => None
  | (k', v) :: d' => if decide (k = k') then Some v else dict_get k d'
  end.

(** [d[k] = v]: an existing key keeps its place, a new one goes last. *)
Fixpoint dict_set (k : K) (v : V) (d : list (K * V)) : list (K * V) :=
  match d with
  | [] => [(k, v)]
  | (k', v') :: d' =>
      if decide (k = k') then (k, v) :: d' else (k', v') :: dict_set k v d'
  end.

Definition dict_values (d : list (K * V)) : list V := map snd d.
End Dict.

(** [list.sort] and [sorted] are stable: insertion before the first element
    that is not smaller. *)
Section Sort.
Context {A : Type} (leb : A -> A -> bool).

Fixpoint insert_sorted (x : A) (l : list A) : list A :=
  match l with
  | [] => [x]
  | y :: l' => if leb x y then x :: l else y :: insert_sorted x l'
  end.

Fixpoint stable_sort (l : list A) : list A :=
  match l with
  | [] => []
  | x :: l' => insert_sorted x (stable_sort l')
  end.
End Sort.

Definition idx_leb (a b : frame) : bool := f_idx a <=? f_idx b.

Definition key_leb (a b : SequenceItem) : bool :=
  String.leb (lower (key a)) (lower (key b)).

(** [[f for f in filenames if f.lower().endswith(SUPPORTED_EXTS)]] *)
Definition candidates (filenames : list string) : list string :=
  List.filter (fun f => endswith_any (lower f) SUPPORTED_EXTS) filenames.

(** [temp.setdefault(k, []).append(x)] *)
Definition setdefault_append (k : string * string) (x : frame)
    (temp : list ((string * string) * list frame))
  : list ((string * string) * list frame) :=
  match dict_get k temp with
  | Some items => dict_set k (items ++ [x]) temp
  | None => dict_set k [x] temp
  end.

Definition group_step (temp : list ((string * string) * list frame)) (f : string)
  : list ((string * string) * list frame) :=
  match classify f with
  | Some (k, x) => setdefault_append k x temp
  | None => temp
  end.

(** The dictionary [temp] of one directory after the loop over candidates. *)
Definition group_files (cands : list string) : list ((string * string) * list frame) :=
  fold_left group_step cands [].

(** The frames the loop files under one key, in listing order: what
    [temp[k]] holds after the loop ([group_files_get] below). *)
Definition frames_under (k : string * string) (cands : list string) : list frame :=
  flat_map (fun f => match classify f with
                     | Some (k', x) => if decide (k' = k) then [x] else []
                     | None => []
                     end) cands.

(** The group of a directory's files for a prefix and an extension. *)
Definition group (filenames : list string) (prefix ext : string) : list frame :=
  frames_under (prefix, ext) (candidates filenames).

Definition sequence_key (dirpath prefix ext : string) : string :=
  path_join dirpath (prefix +:+ "[##]." +:+ ext).

Definition first_width (items : list frame) : nat :=
  match items with
  | it :: _ => f_width it
  | [] => O
  end.

(** The [SequenceItem] built from the sorted [items] of a group. *)
Definition make_item (dirpath prefix ext : string) (items : list frame) : SequenceItem :=
  {| key := sequence_key dirpath prefix ext;
     folder := dirpath;
     prefix := prefix;
     ext := ext;
     frames := map (fun it => path_join dirpath (f_name it)) items;
     digits := first_width items |}.

Definition emit_step (dirpath : string) (sequences : list (string * SequenceItem))
    (entry : (string * string) * list frame) : list (string * SequenceItem) :=
  let '((prefix, ext), items) := entry in
  let items := stable_sort idx_leb items in
  if (3 <=? length items)%nat
  then dict_set (sequence_key dirpath prefix ext) (make_item dirpath prefix ext items) sequences
  else sequences.

(** One iteration of [for dirpath, _, filenames in os.walk(root)]. *)
Definition scan_dir (sequences : list (string * SequenceItem))
    (entry : string * list string) : list (string * SequenceItem) :=
  let '(dirpath, filenames) := entry in
  fold_left (emit_step dirpath) (group_files (candidates filenames)) sequences.

(** [find_sequences] on what [os.walk] yields. *)
Definition find_sequences_walk (walk : list (string * list string)) : list SequenceItem :=
  stable_sort key_leb (dict_values (fold_left scan_dir walk [])).

(** A directory: its files and its sub-directories by name, in listing
    order; [os.walk] visits it top-down. *)
#[warnings="-register-all"]
Inductive tree : Type := Dir (files : list string) (subdirs : list (string * tree)).

Fixpoint os_walk (top : string) (t : tree) : list (string * list string) :=
  match t with
  | Dir files subdirs =>
      (top, files)
      :: flat_map (fun ns => let '(name, sub) := ns in os_walk (path_join top name) sub)
                  subdirs
  end.

Definition find_sequences (root : string) (t : tree) : list SequenceItem :=
  find_sequences_walk (os_walk root t).

(** The list under a key after more frames were appended to it. *)
Definition appended (o : option (list frame)) (l : list frame) : option (list frame) :=
  match o with
  | Some items => Some (items ++ l)
  | None => match l with [] => None | _ => Some l end
  end.

(** [s] is the item built from a group of at least three frames of a
    directory of the walk. *)
Definition produced (walk : list (string * list string)) (s : SequenceItem) : Prop :=
  exists d fs p e,
    In (d, fs) walk /\ (3 <= length (group fs p e))%nat
    /\ s = make_item d p e (stable_sort idx_leb (group fs p e)).

Definition sound (walk : list (string * list string))
    (sequences : list (string * SequenceItem)) : Prop :=
  forall k s, In (k, s) sequences -> key s = k /\ produced walk s.

(** The names used in the examples. *)
Definition ten_a : list string :=
  ["a_001.png"; "a_002.png"; "a_003.png"; "a_004.png"; "a_005.png";
   "a_006.png"; "a_007.png"; "a_008.png"; "a_009.png"; "a_010.png"].

Definition ten_a_sequence : SequenceItem :=
  {| key := "/root/a[##].png"; folder := "/root"; prefix := "a"; ext := "png";
     frames := map (path_join "/root") ten_a; digits := 3 |}.

End Discovery.

(** ** SHA-1 ([hashlib.sha1]) on a list of bytes *)

Module Sha1.

Definition wrap32 (x : Z) : Z := x mod 2 ^ 32.

Definition rotl (n x : Z) : Z :=
  wrap32 (Z.lor (Z.shiftl x n) (Z.shiftr x (32 - n))).

Definition not32 (x : Z) : Z := Z.lxor x 4294967295.

(** The 64-bit big-endian length field. *)
Definition be_bytes (count : nat) (n : Z) : list Z :=
  map (fun i => Z.land (Z.shiftr n (8 * Z.of_nat i)) 255) (rev (seq 0 count)).

Definition pad (msg : list Z) : list Z :=
  let l := Z.of_nat (length msg) in
  msg ++ [128] ++ repeat 0 (Z.to_nat ((55 - l) mod 64)) ++ be_bytes 8 (8 * l).

Definition be_word (b : list Z) : Z :=
  fold_left (fun acc x => Z.lor (Z.shiftl acc 8) x) b 0.

Fixpoint words (count : nat) (bytes : list Z) : list Z :=
  match count with
  | O => []
  | S count' => be_word (firstn 4 bytes) :: words count' (skipn 4 bytes)
  end.

(** The message schedule: [w] grows from 16 to 80 words. *)
Fixpoint extend (count : nat) (w : list Z) : list Z :=
  match count with
  | O => w
  | S count' =>
      let i := length w in
      let at_ (k : nat) := nth (i - k) w 0 in
      extend count'
        (w ++ [rotl 1 (Z.lxor (Z.lxor (at_ 3%nat) (at_ 8%nat))
                              (Z.lxor (at_ 14%nat) (at_ 16%nat)))])
  end.

Record state : Type := State { ha : Z; hb : Z; hc : Z; hd : Z; he : Z }.

Definition initial : state :=
  State 1732584193 4023233417 2562383102 271733878 3285377520.

Definition round_f (i : nat) (b c d : Z) : Z :=
  if (i <? 20)%nat then Z.lor (Z.land b c) (Z.land (not32 b) d)
  else if (i <? 40)%nat then Z.lxor (Z.lxor b c) d
  else if (i <? 60)%nat then Z.lor (Z.lor (Z.land b c) (Z.land b d)) (Z.land c d)
  else Z.lxor (Z.lxor b c) d.

Definition round_k (i : nat) : Z :=
  if (i <? 20)%nat then 1518500249
  else if (i <? 40)%nat then 1859775393
  else if (i <? 60)%nat then 2400959708
  else 3395469782.

Definition round (st : state) (iw : nat * Z) : state :=
  let '(i, w) := iw in
  let temp :=
    wrap32 (rotl 5 (ha st) + round_f i (hb st) (hc st) (hd st) + he st + round_k i + w) in
  State temp (ha st) (rotl 30 (hb st)) (hc st) (hd st).

Definition compress (h : state) (block : list Z) : state :=
  let w := extend 64 (words 16 block) in
  let r := fold_left round (combine (seq 0 80) w) h in
  State (wrap32 (ha h + ha r)) (wrap32 (hb h + hb r)) (wrap32 (hc h + hc r))
        (wrap32 (hd h + hd r)) (wrap32 (he h + he r)).

Fixpoint blocks (count : nat) (h : state) (bytes : list Z) : state :=
  match count with
  | O => h
  | S count' => blocks count' (compress h (firstn 64 bytes)) (skipn 64 bytes)
  end.

Definition digest (msg : list Z) : state :=
  let p := pad msg in
  blocks (length p / 64)%nat initial p.

Definition hex_char (d : Z) : ascii :=
  ascii_of_N (Z.to_N (if d <? 10 then 48 + d else 87 + d)).

Definition hex_word (x : Z) : string :=
  fold_right (fun i acc => String (hex_char (Z.land (Z.shiftr x (4 * Z.of_nat i)) 15)) acc)
             EmptyString (rev (seq 0 8)).

(** [hashlib.sha1(data).hexdigest()] *)
Definition hexdigest (msg : list Z) : string :=
  let h := digest msg in
  hex_word (ha h) +:+ hex_word (hb h) +:+ hex_word (hc h) +:+ hex_word (hd h)
  +:+ hex_word (he h).

(** [s.encode("utf-8")] for code points below 256. *)
Definition utf8_char (c : ascii) : list Z :=
  let n := Str.code c in
  if n <? 128 then [n]
  else [Z.lor 192 (Z.shiftr n 6); Z.lor 128 (Z.land n 63)].

Fixpoint utf8 (s : string) : list Z :=
  match s with
  | EmptyString => []
  | String c s' => utf8_char c ++ utf8 s'
  end.

#[global] Arguments hexdigest : simpl never.
#[global] Arguments utf8 : simpl never.

End Sha1.

(** ** The thumbnail cache ([ThumbCache]) *)

Module Cache.
Import Str.

(** [ImageTk.PhotoImage(im)] *)
Inductive photo (image : Type) : Type := PhotoImage (im : image).
Arguments PhotoImage {image} im.

(** What a path of the cache directory holds: a PNG that [Image.open] and
    [PhotoImage] read back as [im], or bytes on which they raise. *)
Inductive file (image : Type) : Type :=
  | Png (im : image)
  | Unreadable.
Arguments Png {image} im.
Arguments Unreadable {image}.

(** What [image_rgb.save(dp, format="PNG")] did: it returned, and the file
    holds the image; or it raised, and [put] goes on ([except Exception:
    pass]) with the path as it was ([Raised None]: the file could not be
    opened) or with what [save] left there ([Raised (Some x)]: [save] opens
    the file for writing, which empties it, before it encodes the image). *)
Inductive save_result (image : Type) : Type :=
  | Saved
  | Raised (left : option (file image)).
Arguments Saved {image}.
Arguments Raised {image} left.

Record ThumbCache (image : Type) : Type := ThumbCache_mk {
  mem : gmap (string * Z * Z) (photo image);
  root_dir : string;
  size : Z;
  cache_dir : string
}.
Arguments ThumbCache_mk {image}.
Arguments mem {image}.
Arguments root_dir {image}.
Arguments size {image}.
Arguments cache_dir {image}.

Section WithImage.
Context {image : Type}.

(** [ThumbCache.__init__] ([os.makedirs] creates the directory). *)
Definition init (root : string) (sz : Z) : ThumbCache image :=
  {| mem := ∅; root_dir := root; size := sz;
     cache_dir := path_join root ".seqwall_cache" |}.

Definition key (c : ThumbCache image) (path : string) (frame_idx : Z)
  : string * Z * Z := (path, size c, frame_idx).

(** The text hashed: [f"{path}|{self.size}|{frame_idx}"]. *)
Definition key_text (c : ThumbCache image) (path : string) (frame_idx : Z) : string :=
  path +:+ "|" +:+ str_int (size c) +:+ "|" +:+ str_int frame_idx.

Definition disk_path (c : ThumbCache image) (path : string) (frame_idx : Z) : string :=
  let h := Sha1.hexdigest (Sha1.utf8 (key_text c path frame_idx)) in
  path_join (cache_dir c) (h +:+ ".png").

Definition with_mem (c : ThumbCache image) (m : gmap (string * Z * Z) (photo image))
  : ThumbCache image :=
  {| mem := m; root_dir := root_dir c; size := size c; cache_dir := cache_dir c |}.

(** [ThumbCache.get]: the result, the cache afterwards, and the cache
    files it opened with [Image.open]. *)
Definition get (c : ThumbCache image) (disk : gmap string (file image))
    (path : string) (frame_idx : Z)
  : option (photo image) * ThumbCache image * list string :=
  let k := key c path frame_idx in
  match mem c !! k with
  | Some ph => (Some ph, c, [])
  | None =>
      let dp := disk_path c path frame_idx in
      match disk !! dp with
      | Some (Png im) =>
          let ph := PhotoImage im in
          (Some ph, with_mem c (<[k := ph]> (mem c)), [dp])
      | Some Unreadable => (None, c, [dp])
      | None => (None, c, [])
      end
  end.

(** [ThumbCache.put]; [saved] tells what [image_rgb.save] did. *)
Definition put (c : ThumbCache image) (disk : gmap string (file image))
    (saved : save_result image) (path : string) (frame_idx : Z) (image_rgb : image)
  : photo image * ThumbCache image * gmap string (file image) :=
  let k := key c path frame_idx in
  let ph := PhotoImage image_rgb in
  let c' := with_mem c (<[k := ph]> (mem c)) in
  let dp := disk_path c path frame_idx in
  (ph, c',
   match saved with
   | Saved => <[dp := Png image_rgb]> disk
   | Raised None => disk
   | Raised (Some x) => <[dp := x]> disk
   end).

(** A call on a cache, for runs of calls. *)
Inductive call : Type :=
  | Get (path : string) (frame_idx : Z)
  | Put (saved : save_result image) (path : string) (frame_idx : Z) (image_rgb : image).

Definition run_call (st : ThumbCache image * gmap string (file image)) (o : call)
  : ThumbCache image * gmap string (file image) :=
  match o with
  | Get path i => ((get (fst st) (snd st) path i).1.2, snd st)
  | Put saved path i im =>
      let r := put (fst st) (snd st) saved path i im in (r.1.2, r.2)
  end.

Definition run_calls (st : ThumbCache image * gmap string (file image))
    (os : list call) : ThumbCache image * gmap string (file image) :=
  fold_left run_call os st.
End WithImage.

End Cache.

(** ** Tiles and the scheduler tick ([SeqTile], [SequenceWallApp._tick]) *)

Module Wall.
Import Str Discovery Cache.

(** What a tile's canvas shows: [_draw_photo] or [_draw_text]. *)
Inductive display (image : Type) : Type :=
  | Drawn (ph : photo image)
  | ErrorText.
Arguments Drawn {image} ph.
Arguments ErrorText {image}.

(** The state of a [SeqTile]; [winfo_y] and [winfo_height] are the geometry
    Tk reports for it. *)
Record SeqTile (image : Type) : Type := SeqTile_mk {
  seq : SequenceItem;
  tile_size : Z;
  idx : Z;
  running : bool;
  loading_first : bool;
  first_loaded : bool;
  winfo_y : Z;
  winfo_height : Z;
  shown : option (display image)
}.
Arguments SeqTile_mk {image}.
Arguments seq {image}.
Arguments tile_size {image}.
Arguments idx {image}.
Arguments running {image}.
Arguments loading_first {image}.
Arguments first_loaded {image}.
Arguments winfo_y {image}.
Arguments winfo_height {image}.
Arguments shown {image}.

(** A call [pool.submit(tile._load_and_cache, path, frame_idx)]; the tile is
    named by its position in [SequenceWallApp.tiles]. *)
Record job : Type := Job { job_tile : nat; job_path : string; job_frame : Z }.

(** What the tiles share: the cache object, the disk and the pool's jobs. *)
Record shared (image : Type) : Type := Shared {
  thumb_cache : ThumbCache image;
  disk : gmap string (file image);
  pool : list job
}.
Arguments Shared {image}.
Arguments thumb_cache {image}.
Arguments disk {image}.
Arguments pool {image}.

Record app (image : Type) : Type := App {
  tiles : list (SeqTile image);
  world : shared image
}.
Arguments App {image}.
Arguments tiles {image}.
Arguments world {image}.

Section WithImage.
Context {image : Type}.
(** [compose_on_bg(resize_rgba_contain_premultiplied(im, (size, size)), size, BG_TILE)] *)
Context (thumbnail : image -> Z -> image).

Definition set_flags (t : SeqTile image) (loading loaded : bool) : SeqTile image :=
  SeqTile_mk (seq t) (tile_size t) (idx t) (running t) loading loaded
             (winfo_y t) (winfo_height t) (shown t).

Definition set_shown (t : SeqTile image) (d : display image) : SeqTile image :=
  SeqTile_mk (seq t) (tile_size t) (idx t) (running t) (loading_first t)
             (first_loaded t) (winfo_y t) (winfo_height t) (Some d).

Definition set_idx (t : SeqTile image) (i : Z) : SeqTile image :=
  SeqTile_mk (seq t) (tile_size t) i (running t) (loading_first t)
             (first_loaded t) (winfo_y t) (winfo_height t) (shown t).

Definition set_running (t : SeqTile image) (r : bool) : SeqTile image :=
  SeqTile_mk (seq t) (tile_size t) (idx t) r (loading_first t)
             (first_loaded t) (winfo_y t) (winfo_height t) (shown t).

Definition set_geometry (t : SeqTile image) (y h : Z) : SeqTile image :=
  SeqTile_mk (seq t) (tile_size t) (idx t) (running t) (loading_first t)
             (first_loaded t) y h (shown t).

Definition no_frames (t : SeqTile image) : bool :=
  match frames (seq t) with [] => true | _ => false end.

(** [SeqTile._toggle] *)
Definition toggle (t : SeqTile image) : SeqTile image := set_running t (negb (running t)).

(** [SeqTile.ensure_first_frame_loaded] for the tile at position [i]. *)
Definition ensure_first_frame_loaded (i : nat) (t : SeqTile image) (w : shared image)
  : SeqTile image * shared image :=
  if first_loaded t || loading_first t || no_frames t then (t, w)
  else
    let t1 := set_flags t true (first_loaded t) in
    let path := nth 0 (frames (seq t)) EmptyString in
    let '(r, c', _) := get (thumb_cache w) (disk w) path 0 in
    match r with
    | Some ph =>
        (set_flags (set_shown t1 (Drawn ph)) false true, Shared c' (disk w) (pool w))
    | None => (t1, Shared c' (disk w) (pool w ++ [Job i path 0]))
    end.

(** [SeqTile.step] *)
Definition step (i : nat) (stp : Z) (t : SeqTile image) (w : shared image)
  : SeqTile image * shared image :=
  if negb (running t) || no_frames t then (t, w)
  else if negb (first_loaded t) then ensure_first_frame_loaded i t w
  else
    let t1 := set_idx t ((idx t + stp) mod Z.of_nat (length (frames (seq t)))) in
    let path := nth (Z.to_nat (idx t1)) (frames (seq t)) EmptyString in
    let '(r, c', _) := get (thumb_cache w) (disk w) path (idx t1) in
    match r with
    | Some ph => (set_shown t1 (Drawn ph), Shared c' (disk w) (pool w))
    | None => (t1, Shared c' (disk w) (pool w ++ [Job i path (idx t1)]))
    end.

(** [SeqTile._load_and_cache], run by a worker: [decoded] is what
    [Image.open(path).convert("RGBA")] gave ([None] when it raised). *)
Definition load_and_cache (decoded : option image) (saved : save_result image)
    (path : string) (frame_idx : Z) (t : SeqTile image) (w : shared image)
  : SeqTile image * shared image :=
  match decoded with
  | Some im =>
      let composed := thumbnail im (tile_size t) in
      let '(ph, c', d') := put (thumb_cache w) (disk w) saved path frame_idx composed in
      (set_flags (set_shown t (Drawn ph)) false true, Shared c' d' (pool w))
  | None => (set_flags (set_shown t ErrorText) false (first_loaded t), w)
  end.

(** [t.winfo_height() or (t.size + 32)] *)
Definition tile_height (t : SeqTile image) : Z :=
  if winfo_height t =? 0 then tile_size t + 32 else winfo_height t.

(** The test of [_tick]: [ty < y1 and ty + th > y0]. *)
Definition in_view (y0 y1 : Z) (t : SeqTile image) : bool :=
  (winfo_y t <? y1) && (winfo_y t + tile_height t >? y0).

(** [SequenceWallApp._visible_y_range]: [bbox] tells whether
    [canvas.bbox("all")] is non-empty. *)
Definition visible_y_range (bbox : bool) (canvas_y canvas_height : Z) : Z * Z :=
  if bbox then (canvas_y, canvas_y + canvas_height) else (0, 0).

(** The body of the loop [for t in self.tiles] for the tile at position [i]. *)
Definition tick_tile (y0 y1 stp : Z) (play : bool) (i : nat)
    (t : SeqTile image) (w : shared image) : SeqTile image * shared image :=
  if in_view y0 y1 t then
    let '(t1, w1) := ensure_first_frame_loaded i t w in
    if play then step i stp t1 w1 else (t1, w1)
  else (t, w).

Fixpoint tick_tiles (y0 y1 stp : Z) (play : bool) (i : nat)
    (ts : list (SeqTile image)) (w : shared image)
  : list (SeqTile image) * shared image :=
  match ts with
  | [] => ([], w)
  | t :: ts' =>
      let '(t1, w1) := tick_tile y0 y1 stp play i t w in
      let '(ts1, w2) := tick_tiles y0 y1 stp play (S i) ts' w1 in
      (t1 :: ts1, w2)
  end.

(** The view and the Tk variables a tick reads. *)
Record tick_input : Type := TickInput {
  bbox : bool;
  canvas_y : Z;
  canvas_height : Z;
  frame_step : Z;
  animate : bool
}.

(** [SequenceWallApp._tick] *)
Definition tick (inp : tick_input) (a : app image) : app image :=
  match tiles a with
  | [] => a
  | _ =>
      let '(y0, y1) := visible_y_range (bbox inp) (canvas_y inp) (canvas_height inp) in
      let stp := Z.max 1 (frame_step inp) in
      let play := animate inp in
      let '(ts, w) := tick_tiles y0 y1 stp play 0 (tiles a) (world a) in
      App ts w
  end.

(** What happens between and around ticks. *)
Inductive event : Type :=
  | Tick (inp : tick_input)
  | Finish (n : nat) (decoded : option image) (saved : save_result image)
  | Toggle (i : nat)
  | Place (i : nat) (y h : Z).

Definition update_tile (i : nat) (f : SeqTile image -> SeqTile image)
    (ts : list (SeqTile image)) : list (SeqTile image) :=
  match ts !! i with
  | Some t => <[i := f t]> ts
  | None => ts
  end.

(** A worker runs the [n]-th pending job to its end.  A worker writes only
    the tile's [loading_first] and [first_loaded], the canvas and the cache;
    its run is taken as one step between ticks, and the draw it schedules
    with [canvas.after(0, ...)] as done at once. *)
Definition finish (n : nat) (decoded : option image) (saved : save_result image)
    (a : app image)
  : app image :=
  match pool (world a) !! n with
  | None => a
  | Some j =>
      let w := Shared (thumb_cache (world a)) (disk (world a))
                      (take n (pool (world a)) ++ drop (S n) (pool (world a))) in
      match tiles a !! job_tile j with
      | None => App (tiles a) w
      | Some t =>
          let '(t', w') := load_and_cache decoded saved (job_path j) (job_frame j) t w in
          App (<[job_tile j := t']> (tiles a)) w'
      end
  end.

Definition run_event (a : app image) (e : event) : app image :=
  match e with
  | Tick inp => tick inp a
  | Finish n decoded saved => finish n decoded saved a
  | Toggle i => App (update_tile i toggle (tiles a)) (world a)
  | Place i y h => App (update_tile i (fun t => set_geometry t y h) (tiles a)) (world a)
  end.

Definition run (a : app image) (es : list event) : app image :=
  fold_left run_event es a.

(** The jobs a call adds to the pool, all for the tile at position [i]. *)
Definition adds_jobs_of (i : nat) (w w' : shared image) : Prop :=
  exists new, pool w' = pool w ++ new /\ Forall (fun j => job_tile j = i) new.

End WithImage.

(** An instance: three tiles, the second one paused. *)
Definition demo_seq : SequenceItem :=
  make_item "/r" "a" "png"
    [Pattern.Frame 1 "a_001.png" 3; Pattern.Frame 2 "a_002.png" 3;
     Pattern.Frame 3 "a_003.png" 3].

Definition demo_tile (running loaded : bool) (y : Z) : SeqTile unit :=
  SeqTile_mk demo_seq 200 0 running false loaded y 232 None.

Definition demo_app : app unit :=
  App [demo_tile true true 0; demo_tile false true 240; demo_tile true true 5000]
      (Shared (init "/r" 200) ∅ []).

Definition demo_tick : tick_input := TickInput true 0 600 2 true.

End Wall.

(** ** The thumbnail codec ([resize_rgba_contain_premultiplied]) *)

Module Codec.

(** Python's [float] is an IEEE 754 binary64, as is [PrimFloat.float].  An
    [int] converts exactly when its magnitude is at most [2^53]; the sizes
    of PIL images are C integers, well inside that range. *)
Definition exact_range (z : Z) : bool := Z.abs z <=? 2 ^ 53.

Definition float_of_int (z : Z) : PrimFloat.float :=
  if z <? 0 then PrimFloat.opp (PrimFloat.of_uint63 (Uint63.of_Z (- z)))
  else PrimFloat.of_uint63 (Uint63.of_Z z).

(** [int(x)]: truncation towards zero; [None] when [x] is infinite or a NaN
    ([OverflowError], [ValueError]). *)
Definition int_of_float (x : PrimFloat.float) : option Z :=
  match FloatOps.Prim2SF x with
  | SpecFloat.S754_zero _ => Some 0
  | SpecFloat.S754_finite s m e =>
      let v := if 0 <=? e then Z.pos m * 2 ^ e else Z.pos m / 2 ^ (- e) in
      Some (if s then - v else v)
  | _ => None
  end.

(** [min(a, b)] on floats: [b] when [b < a], otherwise [a]. *)
Definition float_min (a b : PrimFloat.float) : PrimFloat.float :=
  if PrimFloat.ltb b a then b else a.

(** [a / b] on integers (true division) with [b] not zero. *)
Definition true_div (a b : Z) : PrimFloat.float :=
  PrimFloat.div (float_of_int a) (float_of_int b).

(** Lines 69 to 73: [(new_w, new_h)] from [img.size] and [box]; [None]
    outside the range of exact conversion. *)
Definition contain_size (w h dst_w dst_h : Z) : option (Z * Z) :=
  if exact_range w && exact_range h && exact_range dst_w && exact_range dst_h then
    let scale := float_min (true_div dst_w (Z.max 1 w)) (true_div dst_h (Z.max 1 h)) in
    match int_of_float (PrimFloat.mul (float_of_int w) scale),
          int_of_float (PrimFloat.mul (float_of_int h) scale) with
    | Some a, Some b => Some (Z.max 1 a, Z.max 1 b)
    | _, _ => None
    end
  else None.

(** A PIL image: its mode, its size and its bands. *)
Record pil (plane : Type) : Type := Pil {
  mode : string;
  size : Z * Z;
  bands : list plane
}.
Arguments Pil {plane}.
Arguments mode {plane}.
Arguments size {plane}.
Arguments bands {plane}.

Section WithPIL.
Context {plane : Type}.
(** [img.convert(mode)], [ImageChops.multiply(a, b)] and
    [band.resize(size, Image.LANCZOS)] are PIL's. *)
Context (convert : pil plane -> string -> pil plane).
Context (multiply : plane -> plane -> plane).
Context (resize : plane -> Z * Z -> plane).

(** [None] when the image does not split into four bands, or outside
    the range of [contain_size]. *)
Definition resize_rgba_contain_premultiplied (img : pil plane) (box : Z * Z)
  : option (pil plane) :=
  let img := if String.eqb (mode img) "RGBA" then img else convert img "RGBA" in
  let '(w, h) := size img in
  let '(dst_w, dst_h) := box in
  match contain_size w h dst_w dst_h with
  | None => None
  | Some new =>
      match bands img with
      | [r; g; b; a] =>
          let r := resize (multiply r a) new in
          let g := resize (multiply g a) new in
          let b := resize (multiply b a) new in
          let a := resize a new in
          Some (Pil "RGBA" new [r; g; b; a])
      | _ => None
      end
  end.
End WithPIL.

(** The size as the specification words it, in exact arithmetic:
    [scale = min(box.width / src.width, box.height / src.height)], each
    dimension floored, at least one pixel. *)
Definition spec_scale (w h bw bh : Z) : QArith_base.Q :=
  Qminmax.Qmin (QArith_base.Qdiv (QArith_base.inject_Z bw) (QArith_base.inject_Z w))
               (QArith_base.Qdiv (QArith_base.inject_Z bh) (QArith_base.inject_Z h)).

Definition spec_contain_size (w h bw bh : Z) : Z * Z :=
  let s := spec_scale w h bw bh in
  (Z.max 1 (Qround.Qfloor (QArith_base.Qmult (QArith_base.inject_Z w) s)),
   Z.max 1 (Qround.Qfloor (QArith_base.Qmult (QArith_base.inject_Z h) s))).

End Codec.

Import Str Pattern Discovery.

(** ** The patterns on every Python string

    [Pattern] reads names over the code points 0..255.  Here a Python [str]
    is the list of its code points, whatever they are, and what the program
    takes from the Unicode database of the running Python is a parameter:
    the decimal digits, which [\d] and [int] read, and [str.lower]. *)

Module Uni.

Definition str : Type := list Z.

(** The code points of a string over 0..255. *)
Fixpoint codes (s : string) : str :=
  match s with
  | EmptyString => []
  | String c s' => Str.code c :: codes s'
  end.

(** [decimal c] is the digit value of the code point [c] when [c] is a
    decimal digit (category Nd), as [unicodedata.decimal] gives it; [lower]
    is [str.lower]. *)
Record unicode : Type := Unicode {
  decimal : Z -> option Z;
  lower : str -> str
}.

(** [str.lower] on one code point below 256, on U+0130 (which gives [i]
    and U+0307) and on U+0131. *)
Definition lower_char (c : Z) : str :=
  if ((65 <=? c) && (c <=? 90))
     || ((192 <=? c) && (c <=? 222) && negb (c =? 215))
  then [c + 32]
  else if c =? 304 then [105; 775] else [c].

Definition known (c : Z) : Prop := 0 <= c < 256 \/ c = 304 \/ c = 305.

(** What every version of the database says: among the code points below
    256 the decimal digits are [0] to [9]; the value of a decimal digit is
    one of 0 to 9; and [str.lower] turns the code points below 256, U+0130
    and U+0131 one by one as [lower_char] says, whatever stands before them
    (only the capital sigma is turned by what stands around it). *)
Definition latin1 (u : unicode) : Prop :=
  (forall c, 0 <= c < 256 ->
             decimal u c = if (48 <=? c) && (c <=? 57) then Some (c - 48) else None)
  /\ (forall c v, decimal u c = Some v -> 0 <= v <= 9)
  /\ (forall a b : str,
        Forall known b ->
        exists a', lower u (a ++ b) = a' ++ flat_map lower_char b /\ (a = [] -> a' = [])).

Definition is_ascii_digit (c : Z) : bool := (48 <=? c) && (c <=? 57).

Definition is_newline (c : Z) : bool := c =? 10.

(** The character class [[._-]]. *)
Definition is_sep (c : Z) : bool := (c =? 46) || (c =? 95) || (c =? 45).

Definition is_dot (c : Z) : bool := c =? 46.

(** [$]: the end of the string, or just before a newline that ends it. *)
Definition at_end (s : str) : bool :=
  match s with
  | [] => true
  | [c] => is_newline c
  | _ => false
  end.

(** A small letter [p] of the six extensions under [re.IGNORECASE]: it
    matches itself and its capital, and [i] also matches U+0130 and
    U+0131. *)
Definition ci_match (p c : Z) : bool :=
  (c =? p) || (c =? p - 32) || ((p =? 105) && ((c =? 304) || (c =? 305))).

(** A literal under [re.IGNORECASE]: the text matched and what follows. *)
Fixpoint literal_ci (lit s : str) : option (str * str) :=
  match lit with
  | [] => Some ([], s)
  | p :: lit' =>
      match s with
      | [] => None
      | c :: s' =>
          if ci_match p c then
            match literal_ci lit' s' with
            | Some (m, rest) => Some (c :: m, rest)
            | None => None
            end
          else None
      end
  end.

Definition EXTS : list str := map codes Pattern.EXTS.

Definition SUPPORTED_EXTS : list str := map codes Pattern.SUPPORTED_EXTS.

(** [s.endswith(suffix)] *)
Fixpoint endswith (s suffix : str) : bool :=
  if bool_decide (s = suffix) then true
  else match s with
       | [] => false
       | _ :: s' => endswith s' suffix
       end.

(** [s.endswith(tuple)] *)
Definition endswith_any (s : str) (suffixes : list str) : bool :=
  existsb (endswith s) suffixes.

(** [(?P<ext>png|jpg|jpeg|bmp|tif|tiff)$]: the alternatives in order, each
    followed by [$]. *)
Fixpoint ext_alternatives (alts : list str) (s : str) : option str :=
  match alts with
  | [] => None
  | e :: alts' =>
      match literal_ci e s with
      | Some (m, rest) => if at_end rest then Some m else ext_alternatives alts' s
      | None => ext_alternatives alts' s
      end
  end.

Definition ext_at_end (s : str) : option str := ext_alternatives EXTS s.

(** [\.(?P<ext>...)$] *)
Definition dot_ext (s : str) : option str :=
  match s with
  | c :: s' => if is_dot c then ext_at_end s' else None
  | [] => None
  end.

(** The groups of a match: prefix, index and ext as matched. *)
Record groups : Type := Groups { g_prefix : str; g_index : str; g_ext : str }.

(** [^(?P<prefix>.*?)] followed by [tail]: the lazy star tries the tail
    first and otherwise takes one more character, which is not a newline. *)
Fixpoint lazy_prefix (tail : str -> option (str * str)) (s : str) : option groups :=
  match tail s with
  | Some (i, e) => Some (Groups [] i e)
  | None =>
      match s with
      | [] => None
      | c :: s' =>
          if is_newline c then None
          else match lazy_prefix tail s' with
               | Some g => Some (Groups (c :: g_prefix g) (g_index g) (g_ext g))
               | None => None
               end
      end
  end.

(** What the matcher reports for a file name: the dictionary key
    [(prefix, ext)] and the entry [(idx, f, len(idx_str))]. *)
Record frame : Type := Frame { f_idx : Z; f_name : str; f_width : nat }.

(** Zero-padded decimal rendering of an index on [w] digits:
    [f"{n:0{w}d}"] for [0 <= n < 10^w]. *)
Fixpoint zero_padded (w : nat) (n : Z) : str :=
  match w with
  | O => []
  | S w' => zero_padded w' (n / 10) ++ [48 + n mod 10]
  end.

Section WithUnicode.
Context (u : unicode).

(** [\d] *)
Definition is_digit (c : Z) : bool :=
  match decimal u c with Some _ => true | None => false end.

(** [int(s)] on a string of decimal digits; [None] is [ValueError]. *)
Fixpoint int_loop (acc : Z) (s : str) : option Z :=
  match s with
  | [] => Some acc
  | c :: s' =>
      match decimal u c with
      | Some v => int_loop (10 * acc + v) s'
      | None => None
      end
  end.

Definition int (s : str) : option Z :=
  match s with
  | [] => None
  | _ => int_loop 0 s
  end.

(** The first [n] characters when all are digits, and the rest. *)
Fixpoint take_digits (n : nat) (s : str) : option (str * str) :=
  match n with
  | O => Some ([], s)
  | S n' =>
      match s with
      | [] => None
      | c :: s' =>
          if is_digit c then
            match take_digits n' s' with
            | Some (d, rest) => Some (c :: d, rest)
            | None => None
            end
          else None
      end
  end.

(** [(?P<index>\d{3,6})\.(?P<ext>...)$]: the greedy count, longest first. *)
Fixpoint index_counts (counts : list nat) (s : str) : option (str * str) :=
  match counts with
  | [] => None
  | n :: counts' =>
      match take_digits n s with
      | Some (d, rest) =>
          match dot_ext rest with
          | Some e => Some (d, e)
          | None => index_counts counts' s
          end
      | None => index_counts counts' s
      end
  end.

Definition index_ext (s : str) : option (str * str) :=
  index_counts [6; 5; 4; 3]%nat s.

(** [[._-](?P<index>\d{3,6})\.(?P<ext>...)$] *)
Definition sep_index_ext (s : str) : option (str * str) :=
  match s with
  | c :: s' => if is_sep c then index_ext s' else None
  | [] => None
  end.

Definition pattern_sep : str -> option groups := lazy_prefix sep_index_ext.
Definition pattern_plain : str -> option groups := lazy_prefix index_ext.

Definition SEQ_PATTERNS : list (str -> option groups) :=
  [pattern_sep; pattern_plain].

(** The filter of [candidates]: [f.lower().endswith(SUPPORTED_EXTS)]. *)
Definition candidate (f : str) : bool := endswith_any (lower u f) SUPPORTED_EXTS.

(** The loop [for pat in SEQ_PATTERNS] of [find_sequences]: the first pattern
    that matches and whose index converts decides; [continue] moves on. *)
Fixpoint classify_with (pats : list (str -> option groups)) (f : str)
  : option ((str * str) * frame) :=
  match pats with
  | [] => None
  | pat :: pats' =>
      match pat f with
      | Some m =>
          let prefix := g_prefix m in
          let ext := lower u (g_ext m) in
          let idx_str := g_index m in
          match int idx_str with
          | Some idx => Some ((prefix, ext), Frame idx f (length idx_str))
          | None => classify_with pats' f
          end
      | None => classify_with pats' f
      end
  end.

Definition classify (f : str) : option ((str * str) * frame) :=
  classify_with SEQ_PATTERNS f.

End WithUnicode.

(** The text [raw] is the extension [e] but for the case of its letters, as
    [re.IGNORECASE] reads it. *)
Definition ci_equal (e raw : str) : Prop := Forall2 (fun p c => ci_match p c = true) e raw.

(** [.*?] can run over [s]: no character of [s] is a newline. *)
Definition no_newline (s : str) : bool := forallb (fun c => negb (is_newline c)) s.

(** The name [f] is [pre ++ sep ++ i ++ "." ++ raw ++ tail]: text without
    a newline, [sep], 3 to 6 decimal digits, a dot, one of the extensions
    but for the case of its letters, and nothing more but for a final
    newline. *)
Definition matched (u : unicode) (f pre sep i raw tail : str) : Prop :=
  f = pre ++ sep ++ i ++ 46 :: raw ++ tail
  /\ no_newline pre = true
  /\ forallb (is_digit u) i = true
  /\ (3 <= length i <= 6)%nat
  /\ (exists e, In e EXTS /\ ci_equal e raw)
  /\ at_end tail = true.

(** The name has the form the patterns look for. *)
Definition well_formed (u : unicode) (f : str) : Prop :=
  exists pre i raw tail, matched u f pre [] i raw tail.

(** A small ASCII letter, as the extensions are written in the patterns. *)
Definition small (p : ascii) : Prop := 97 <= Str.code p <= 122.

(** What [Pattern.classify] reports for a name, in code points. *)
Definition report (r : (string * string) * Pattern.frame) : (str * str) * frame :=
  ((codes (fst (fst r)), codes (snd (fst r))),
   Frame (Pattern.f_idx (snd r)) (codes (Pattern.f_name (snd r))) (Pattern.f_width (snd r))).

(** A database for examples: right on the code points below 256, on the
    Arabic-Indic digits U+0660 to U+0669 and on U+0130 and U+0131; it takes
    every other code point for a character that is no digit and has no
    capital. *)
Definition sample : unicode :=
  {| decimal := fun c =>
       if (48 <=? c) && (c <=? 57) then Some (c - 48)
       else if (1632 <=? c) && (c <=? 1641) then Some (c - 1632)
       else None;
     lower := flat_map lower_char |}.

(** [shot_] and the index 007 in Arabic-Indic digits, [.png]. *)
Definition shot_arabic : str := codes "shot_" ++ [1632; 1632; 1639] ++ codes ".png".

(** [a_001.t], the dotless i U+0131, [f]. *)
Definition dotless_tif : str := codes "a_001.t" ++ [305] ++ codes "f".

End Uni.

(** ** What the scheduler keeps *)

Module Sched.
Import Discovery Cache Wall.

(** The number of pending jobs of the tile at position [i]. *)
Definition pending (i : nat) (jobs : list job) : nat :=
  length (List.filter (fun j => Nat.eqb (job_tile j) i) jobs).

Section WithImage.
Context {image : Type}.

(** [self.idx] is a valid position in [self.seq.frames]. *)
Definition idx_in_range (t : SeqTile image) : Prop :=
  frames (seq t) <> [] -> 0 <= idx t < Z.of_nat (length (frames (seq t))).

(** A tile that is not loaded has at most one job pending, and none unless
    [loading_first] is set. *)
Definition one_load_in_flight (t : SeqTile image) (n : nat) : Prop :=
  first_loaded t = false -> (n <= if loading_first t then 1 else 0)%nat.

(** The same widget: what neither a tick nor a worker may touch. *)
Definition same_widget (t t' : SeqTile image) : Prop :=
  seq t' = seq t /\ tile_size t' = tile_size t /\ running t' = running t
  /\ winfo_y t' = winfo_y t /\ winfo_height t' = winfo_height t.

End WithImage.

(** Three tiles not yet loaded. *)
Definition fresh_app : app unit :=
  App [SeqTile_mk demo_seq 200 0 true false false 0 232 None;
       SeqTile_mk demo_seq 200 0 true false false 240 232 None;
       SeqTile_mk demo_seq 200 0 false false false 480 232 None]
      (Shared (init "/r" 200) ∅ []).

End Sched.

(** ** The grid of tiles ([_populate_tiles], [relayout]) *)

Module Shell.

(** Python's [divmod(i, cols)]: floor division and its remainder. *)
Definition divmod (i cols : Z) : Z * Z := (i / cols, i mod cols).

(** The cells [(row, column)] that the loop [for i, ... in enumerate(...)]
    of [_populate_tiles] and of [relayout] gives to [n] tiles:
    [r, c = divmod(i, cols)] with [cols = max(1, int(self.cols_var.get()))]. *)
Definition grid_cells (cols_var : Z) (n : nat) : list (Z * Z) :=
  let cols := Z.max 1 cols_var in
  map (fun i => divmod (Z.of_nat i) cols) (List.seq 0 n).

End Shell.

(** * Properties *)

(** ** The model against Python on concrete values *)

Module Checks.

Example classify_separator :
  classify "x-0012.TIFF" = Some (("x", "tiff"), Frame 12 "x-0012.TIFF" 4).
Proof. reflexivity. Qed.

Example classify_no_separator :
  classify "img0012.Jpeg" = Some (("img", "jpeg"), Frame 12 "img0012.Jpeg" 4).
Proof. reflexivity. Qed.

Example classify_two_digits : classify "b_01.jpg" = None.
Proof. reflexivity. Qed.

Example classify_other_extension : classify "a_001.gif" = None.
Proof. reflexivity. Qed.

Example str_int_values :
  str_int 200 = "200" /\ str_int 0 = "0" /\ str_int (-15) = "-15" /\ str_int 1024 = "1024".
Proof. repeat split; reflexivity. Qed.

Example path_join_values :
  path_join "/r" "a" = "/r/a" /\ path_join "/" "a" = "/a" /\ path_join "" "a" = "a"
  /\ path_join "r/" "a" = "r/a" /\ path_join "/r" "/a" = "/a".
Proof. repeat split; reflexivity. Qed.

Example sha1_abc :
  Sha1.hexdigest (Sha1.utf8 "abc") = "a9993e364706816aba3e25717850c26c9cd0d89d".
Proof. vm_compute. reflexivity. Qed.

Example sha1_empty : Sha1.hexdigest [] = "da39a3ee5e6b4b0d3255bfef95601890afd80709".
Proof. vm_compute. reflexivity. Qed.

Example sha1_two_blocks :
  Sha1.hexdigest (Sha1.utf8 "abcdbcdecdefdefgefghfghighijhijkijkljklmklmnlmnomnopnopq")
  = "84983e441c3bd26ebaae4aa1f95129e5e54670f1".
Proof. vm_compute. reflexivity. Qed.

Example contain_size_values :
  Codec.contain_size 1920 1080 200 200 = Some (200, 112)
  /\ Codec.contain_size 161 322 200 200 = Some (99, 199)
  /\ Codec.contain_size 0 5 200 200 = Some (1, 200)
  /\ Codec.contain_size 3000 2 200 200 = Some (200, 1).
Proof. repeat split; vm_compute; reflexivity. Qed.

End Checks.

(** ** Strings *)

Module StrFacts.

Lemma append_cons (x : ascii) (a b : string) : String x a +:+ b = String x (a +:+ b).
Proof. reflexivity. Qed.

Lemma append_empty_l (b : string) : EmptyString +:+ b = b.
Proof. reflexivity. Qed.

Lemma append_assoc (a b c : string) : (a +:+ b) +:+ c = a +:+ (b +:+ c).
Proof.
  induction a as [|x a IH]; [reflexivity|].
  now rewrite !append_cons, IH.
Qed.

Lemma append_empty_r (a : string) : a +:+ EmptyString = a.
Proof.
  induction a as [|x a IH]; [reflexivity|].
  now rewrite append_cons, IH.
Qed.

Lemma length_append (a b : string) :
  String.length (a +:+ b) = (String.length a + String.length b)%nat.
Proof.
  induction a as [|x a IH]; [reflexivity|].
  rewrite append_cons. simpl. now rewrite IH.
Qed.

Lemma code_range (c : ascii) : 0 <= code c < 256.
Proof.
  unfold code. pose proof (N_ascii_bounded c) as H. lia.
Qed.

Lemma digit_char_value (c : ascii) : is_digit c = true -> digit_char (digit_value c) = c.
Proof.
  intros _. unfold digit_char, digit_value, code.
  replace (48 + (Z.of_N (N_of_ascii c) - 48)) with (Z.of_N (N_of_ascii c)) by lia.
  rewrite N2Z.id. apply ascii_N_embedding.
Qed.

Lemma digit_value_range (c : ascii) : is_digit c = true -> 0 <= digit_value c < 10.
Proof. unfold is_digit, digit_value. intros H. lia. Qed.

Lemma value_range (s : string) :
  all_digits s = true -> 0 <= value s < 10 ^ Z.of_nat (String.length s).
Proof.
  induction s as [|c s IH]; simpl value; simpl String.length; intros H.
  - simpl. lia.
  - simpl in H. apply andb_prop in H as [Hc Hs].
    specialize (IH Hs). pose proof (digit_value_range c Hc) as Hd.
    rewrite Nat2Z.inj_succ, Z.pow_succ_r by lia. nia.
Qed.

Lemma int_loop_value (s : string) (acc : Z) :
  all_digits s = true ->
  int_loop acc s = Some (acc * 10 ^ Z.of_nat (String.length s) + value s).
Proof.
  revert acc. induction s as [|c s IH]; intros acc H; simpl.
  - f_equal. lia.
  - simpl in H. apply andb_prop in H as [Hc Hs].
    rewrite Hc, (IH _ Hs). f_equal.
    rewrite Nat2Z.inj_succ, Z.pow_succ_r by lia. ring.
Qed.

Lemma int_digits (s : string) :
  all_digits s = true -> s <> EmptyString -> int s = Some (value s).
Proof.
  intros H Hne. destruct s as [|c s]; [congruence|].
  unfold int. rewrite int_loop_value by exact H. f_equal.
Qed.

Lemma zero_padded_cons (w : nat) (d r : Z) :
  0 <= d < 10 -> 0 <= r < 10 ^ Z.of_nat w ->
  zero_padded (S w) (d * 10 ^ Z.of_nat w + r) = String (digit_char d) (zero_padded w r).
Proof.
  revert r. induction w as [|w IH]; intros r Hd Hr.
  - change (Z.of_nat 0) with 0 in *. rewrite Z.pow_0_r in *.
    assert (r = 0) by lia. subst r.
    replace (d * 1 + 0) with d by lia.
    change (zero_padded 1 d) with (String (digit_char (d mod 10)) EmptyString).
    now rewrite Z.mod_small.
  - rewrite Nat2Z.inj_succ, Z.pow_succ_r in * by lia.
    change (zero_padded (S (S w)) ?n)
      with (zero_padded (S w) (n / 10) +:+ String (digit_char (n mod 10)) EmptyString).
    replace (d * (10 * 10 ^ Z.of_nat w) + r)
      with (r + (d * 10 ^ Z.of_nat w) * 10) by ring.
    rewrite Z.div_add, Z.mod_add by lia.
    replace (r / 10 + d * 10 ^ Z.of_nat w) with (d * 10 ^ Z.of_nat w + r / 10) by ring.
    rewrite IH; [reflexivity | lia |].
    split; [apply Z.div_pos; lia | apply Z.div_lt_upper_bound; lia].
Qed.

Lemma zero_padded_value (s : string) :
  all_digits s = true -> zero_padded (String.length s) (value s) = s.
Proof.
  induction s as [|c s IH]; intros H; [reflexivity|].
  simpl in H. apply andb_prop in H as [Hc Hs].
  simpl String.length. simpl value.
  rewrite zero_padded_cons.
  - now rewrite IH, digit_char_value.
  - now apply digit_value_range.
  - now apply value_range.
Qed.

End StrFacts.


(** ** The file-name patterns *)

Module PatternFacts.
Import StrFacts.

Lemma code_inj (c : ascii) (n : Z) : code c = n -> c = ascii_of_N (Z.to_N n).
Proof.
  intros <-. unfold code. now rewrite N2Z.id, ascii_N_embedding.
Qed.

Lemma is_dot_eq (c : ascii) : is_dot c = true -> c = "."%char.
Proof.
  unfold is_dot. intros H. apply Z.eqb_eq in H. now apply code_inj in H.
Qed.

Lemma is_sep_cases (c : ascii) :
  is_sep c = true -> c = "."%char \/ c = "_"%char \/ c = "-"%char.
Proof.
  unfold is_sep. intros H.
  apply orb_prop in H as [H | H]; [apply orb_prop in H as [H | H] |];
    apply Z.eqb_eq in H; apply code_inj in H; auto.
Qed.

Lemma take_digits_spec (n : nat) (s d rest : string) :
  take_digits n s = Some (d, rest) ->
  s = d +:+ rest /\ String.length d = n /\ all_digits d = true.
Proof.
  revert s d rest. induction n as [|n IH]; intros s d rest H; simpl in H.
  - injection H as <- <-. auto.
  - destruct s as [|c s]; [discriminate|].
    destruct (is_digit c) eqn:Hc; [|discriminate].
    destruct (take_digits n s) as [[d' rest']|] eqn:Ht; [|discriminate].
    injection H as <- <-.
    destruct (IH _ _ _ Ht) as (-> & <- & Hd).
    rewrite append_cons. simpl. rewrite Hc, Hd. auto.
Qed.

Lemma literal_ci_spec (lit s m rest : string) :
  literal_ci lit s = Some (m, rest) -> s = m +:+ rest /\ lower m = lit.
Proof.
  revert s m rest. induction lit as [|p lit IH]; intros s m rest H; simpl in H.
  - injection H as <- <-. auto.
  - destruct s as [|c s]; [discriminate|].
    destruct (Ascii.eqb (lower_char c) p) eqn:Hc; [|discriminate].
    destruct (literal_ci lit s) as [[m' rest']|] eqn:Hl; [|discriminate].
    injection H as <- <-.
    destruct (IH _ _ _ Hl) as (-> & <-).
    apply Ascii.eqb_eq in Hc. subst p. auto.
Qed.

Lemma ext_alternatives_spec (alts : list string) (s m : string) :
  ext_alternatives alts s = Some m ->
  exists rest, s = m +:+ rest /\ at_end rest = true /\ In (lower m) alts.
Proof.
  induction alts as [|e alts IH]; intros H; simpl in H; [discriminate|].
  destruct (literal_ci e s) as [[m' rest]|] eqn:Hl.
  - destruct (at_end rest) eqn:He.
    + injection H as <-. apply literal_ci_spec in Hl as (-> & <-).
      exists rest. simpl. auto.
    + destruct (IH H) as (r & ? & ? & ?). exists r. simpl. auto.
  - destruct (IH H) as (r & ? & ? & ?). exists r. simpl. auto.
Qed.

Lemma dot_ext_spec (s e : string) :
  dot_ext s = Some e ->
  exists rest, s = String "."%char (e +:+ rest) /\ at_end rest = true /\ In (lower e) EXTS.
Proof.
  unfold dot_ext. destruct s as [|c s]; [discriminate|].
  destruct (is_dot c) eqn:Hc; [|discriminate].
  intros H. apply ext_alternatives_spec in H as (rest & -> & He & Hin).
  apply is_dot_eq in Hc as ->. eauto.
Qed.

Lemma index_counts_spec (counts : list nat) (s d e : string) :
  index_counts counts s = Some (d, e) ->
  exists rest,
    s = d +:+ String "."%char (e +:+ rest) /\ In (String.length d) counts
    /\ all_digits d = true /\ at_end rest = true /\ In (lower e) EXTS.
Proof.
  induction counts as [|n counts IH]; intros H; simpl in H; [discriminate|].
  destruct (take_digits n s) as [[d' r]|] eqn:Ht.
  - destruct (dot_ext r) as [e'|] eqn:Hd.
    + injection H as <- <-.
      apply take_digits_spec in Ht as (-> & <- & Hdig).
      apply dot_ext_spec in Hd as (rest & -> & He & Hin).
      exists rest. simpl. auto.
    + destruct (IH H) as (rest & ? & ? & ?). exists rest. simpl. auto.
  - destruct (IH H) as (rest & ? & ? & ?). exists rest. simpl. auto.
Qed.

Lemma lazy_prefix_spec (tail : string -> option (string * string)) (s : string)
    (g : groups) :
  lazy_prefix tail s = Some g ->
  exists rest, s = g_prefix g +:+ rest /\ tail rest = Some (g_index g, g_ext g).
Proof.
  revert g. induction s as [|c s IH]; intros g H; simpl in H.
  - destruct (tail EmptyString) as [[i e]|] eqn:Ht; [|discriminate].
    injection H as <-. exists EmptyString. auto.
  - destruct (tail (String c s)) as [[i e]|] eqn:Ht.
    + injection H as <-. exists (String c s). auto.
    + destruct (is_newline c); [discriminate|].
      destruct (lazy_prefix tail s) as [g'|] eqn:Hl; [|discriminate].
      injection H as <-. destruct (IH _ eq_refl) as (rest & -> & Hr).
      exists rest. simpl. auto.
Qed.

Lemma counts_range (n : nat) : In n [6; 5; 4; 3]%nat -> (3 <= n <= 6)%nat.
Proof. simpl. intros H. lia. Qed.

Lemma pattern_sep_spec (f : string) (g : groups) :
  pattern_sep f = Some g ->
  exists sep tail,
    decomposes f (g_prefix g) sep (g_index g) (g_ext g) tail
    /\ (sep = "." \/ sep = "_" \/ sep = "-").
Proof.
  intros H. apply lazy_prefix_spec in H as (rest & -> & Ht).
  unfold sep_index_ext in Ht. destruct rest as [|c rest]; [discriminate|].
  destruct (is_sep c) eqn:Hc; [|discriminate].
  apply index_counts_spec in Ht as (tail & -> & Hn & Hd & He & Hin).
  apply counts_range in Hn. apply is_sep_cases in Hc.
  exists (String c EmptyString), tail. split.
  - unfold decomposes. rewrite append_cons, append_empty_l. auto.
  - destruct Hc as [-> | [-> | ->]]; auto.
Qed.

Lemma pattern_plain_spec (f : string) (g : groups) :
  pattern_plain f = Some g ->
  exists tail, decomposes f (g_prefix g) EmptyString (g_index g) (g_ext g) tail.
Proof.
  intros H. apply lazy_prefix_spec in H as (rest & -> & Ht).
  apply index_counts_spec in Ht as (tail & -> & Hn & Hd & He & Hin).
  apply counts_range in Hn. exists tail.
  unfold decomposes. rewrite append_empty_l. auto.
Qed.

Lemma decomposes_int (f p sep i raw tail : string) :
  decomposes f p sep i raw tail -> int i = Some (value i).
Proof.
  intros (_ & _ & _ & Hd & Hl). apply int_digits; [exact Hd|].
  intros ->. simpl in Hl. lia.
Qed.

(** Every classified name decomposes, with the reported key, index and
    width read off the decomposition. *)
Lemma classify_spec (f : string) (k : string * string) (x : frame) :
  classify f = Some (k, x) ->
  exists sep idx_str raw tail,
    decomposes f (fst k) sep idx_str raw tail
    /\ (sep = "" \/ sep = "." \/ sep = "_" \/ sep = "-")
    /\ snd k = lower raw
    /\ x = Frame (value idx_str) f (String.length idx_str).
Proof.
  unfold classify, SEQ_PATTERNS. simpl.
  destruct (pattern_sep f) as [g|] eqn:H1.
  - destruct (pattern_sep_spec _ _ H1) as (sep & tail & Hdec & Hsep).
    rewrite (decomposes_int _ _ _ _ _ _ Hdec).
    intros H. injection H as <- <-.
    exists sep, (g_index g), (g_ext g), tail. simpl. intuition.
  - destruct (pattern_plain f) as [g|] eqn:H2; [|discriminate].
    destruct (pattern_plain_spec _ _ H2) as (tail & Hdec).
    rewrite (decomposes_int _ _ _ _ _ _ Hdec).
    intros H. injection H as <- <-.
    exists EmptyString, (g_index g), (g_ext g), tail. simpl. intuition.
Qed.

(** C2 at a run of seven digits: the separator pattern does not match
    [shot_0000007.png], the pattern without separator does, and the name is
    classified as frame 7 of the group with prefix [shot_0]. *)
Theorem classify_seven_digits :
  pattern_sep "shot_0000007.png" = None
  /\ pattern_plain "shot_0000007.png" = Some (Groups "shot_0" "000007" "png")
  /\ classify "shot_0000007.png"
     = Some (("shot_0", "png"), Frame 7 "shot_0000007.png" 6)
  /\ String.length (trailing_digits "shot_0000007") = 7%nat.
Proof. repeat split; reflexivity. Qed.

(** *** Names whose index is too short *)

Lemma is_dot_lower (c : ascii) : is_dot (lower_char c) = is_dot c.
Proof. destruct c as [[] [] [] [] [] [] [] []]; reflexivity. Qed.

Lemma no_dot_lower (s : string) : no_dot (lower s) = no_dot s.
Proof.
  induction s as [|c s IH]; [reflexivity|].
  simpl. now rewrite is_dot_lower, IH.
Qed.

Lemma no_dot_append (a b : string) : no_dot (a +:+ b) = no_dot a && no_dot b.
Proof.
  induction a as [|c a IH]; [reflexivity|].
  rewrite append_cons. simpl. rewrite IH. now rewrite andb_assoc.
Qed.

Lemma no_dot_ext (raw : string) : In (lower raw) EXTS -> no_dot raw = true.
Proof.
  intros H. rewrite <- no_dot_lower.
  simpl in H. destruct H as [<- | [<- | [<- | [<- | [<- | [<- | []]]]]]]; reflexivity.
Qed.

Lemma no_dot_at_end (tail : string) : at_end tail = true -> no_dot tail = true.
Proof.
  destruct tail as [|c [|c' tail]]; simpl; try discriminate; [reflexivity|].
  unfold is_newline, is_dot. intros H. apply Z.eqb_eq in H. rewrite H. reflexivity.
Qed.

Lemma no_dot_after_dot (a b : string) : no_dot (a +:+ String "."%char b) = false.
Proof.
  rewrite no_dot_append. simpl. change (is_dot "."%char) with true.
  simpl. apply andb_false_r.
Qed.

(** A string splits in one way at its last dot. *)
Lemma last_dot_unique (a a' b b' : string) :
  a +:+ String "."%char b = a' +:+ String "."%char b' ->
  no_dot b = true -> no_dot b' = true -> a = a' /\ b = b'.
Proof.
  revert a'. induction a as [|c a IH]; intros [|c' a'] H Hb Hb';
    rewrite ?append_cons, ?append_empty_l in H.
  - injection H as ->. auto.
  - injection H as _ ->. now rewrite no_dot_after_dot in Hb.
  - injection H as _ <-. now rewrite no_dot_after_dot in Hb'.
  - injection H as -> H. destruct (IH _ H Hb Hb') as [-> ->]. auto.
Qed.

Lemma trailing_digits_all (i : string) : all_digits i = true -> trailing_digits i = i.
Proof.
  destruct i as [|c i]; [reflexivity|]. intros H.
  change (trailing_digits (String c i))
    with (if all_digits (String c i) then String c i else trailing_digits i).
  now rewrite H.
Qed.

Lemma trailing_digits_suffix (p i : string) :
  all_digits i = true ->
  (String.length i <= String.length (trailing_digits (p +:+ i)))%nat.
Proof.
  intros Hi. induction p as [|c p IH].
  - rewrite append_empty_l, trailing_digits_all by exact Hi. lia.
  - rewrite append_cons.
    change (trailing_digits (String c (p +:+ i)))
      with (if all_digits (String c (p +:+ i)) then String c (p +:+ i)
            else trailing_digits (p +:+ i)).
    destruct (all_digits (String c (p +:+ i))); [|exact IH].
    simpl. rewrite length_append. lia.
Qed.

(** Every classified name carries, right before the dot of its
    extension, a run of at least three digits: a name whose embedded
    index has fewer than three digits matches neither pattern. *)
Lemma short_index_never_matches (stem raw tail : string) :
  In (lower raw) EXTS -> at_end tail = true ->
  (String.length (trailing_digits stem) < 3)%nat ->
  classify (stem +:+ String "."%char (raw +:+ tail)) = None.
Proof.
  intros Hraw Htail Hshort.
  destruct (classify (stem +:+ String "."%char (raw +:+ tail))) as [[k x]|] eqn:Hc;
    [exfalso | reflexivity].
  apply classify_spec in Hc as (sep & i & raw' & tail' & Hdec & _ & _ & _).
  destruct Hdec as (Hf & Htail' & Hraw' & Hd & Hl).
  rewrite <- !append_assoc in Hf.
  apply last_dot_unique in Hf as [-> _].
  - pose proof (trailing_digits_suffix (fst k +:+ sep) i Hd) as Hlen. lia.
  - rewrite no_dot_append, (no_dot_ext _ Hraw), (no_dot_at_end _ Htail). reflexivity.
  - rewrite no_dot_append, (no_dot_ext _ Hraw'), (no_dot_at_end _ Htail'). reflexivity.
Qed.

End PatternFacts.


(** ** Sequence discovery *)

Module DiscoveryFacts.
Import StrFacts PatternFacts.

(** *** Insertion-ordered dictionaries *)

Section DictFacts.
Context {K V : Type} `{EqDecision K}.

Lemma dict_get_set_eq (k : K) (v : V) (d : list (K * V)) :
  dict_get k (dict_set k v d) = Some v.
Proof.
  induction d as [|[k' v'] d IH]; simpl.
  - destruct (decide (k = k)); congruence.
  - destruct (decide (k = k')) as [->|Hne]; simpl.
    + destruct (decide (k' = k')); congruence.
    + destruct (decide (k = k')); [contradiction | exact IH].
Qed.

Lemma dict_get_set_ne (k k' : K) (v : V) (d : list (K * V)) :
  k <> k' -> dict_get k' (dict_set k v d) = dict_get k' d.
Proof.
  intros Hne. induction d as [|[k0 v0] d IH]; simpl.
  - destruct (decide (k' = k)); congruence.
  - destruct (decide (k = k0)) as [->|Hk]; simpl.
    + destruct (decide (k' = k0)); congruence.
    + destruct (decide (k' = k0)); [reflexivity | exact IH].
Qed.

Lemma dict_set_In (k k' : K) (v v' : V) (d : list (K * V)) :
  In (k', v') (dict_set k v d) -> (k' = k /\ v' = v) \/ In (k', v') d.
Proof.
  induction d as [|[k0 v0] d IH]; simpl.
  - intros [H | []]. injection H as <- <-. auto.
  - destruct (decide (k = k0)) as [->|Hk]; simpl.
    + intros [H | H]; [injection H as <- <-; auto | auto].
    + intros [H | H]; [auto | destruct (IH H); auto].
Qed.

Lemma dict_set_keys (k k' : K) (v : V) (d : list (K * V)) :
  In k' (map fst (dict_set k v d)) <-> k' = k \/ In k' (map fst d).
Proof.
  induction d as [|[k0 v0] d IH]; simpl.
  - intuition.
  - destruct (decide (k = k0)) as [->|Hk]; simpl; [intuition | rewrite IH; intuition].
Qed.

Lemma dict_set_NoDup (k : K) (v : V) (d : list (K * V)) :
  List.NoDup (map fst d) -> List.NoDup (map fst (dict_set k v d)).
Proof.
  induction d as [|[k0 v0] d IH]; simpl; intros Hnd.
  - constructor; [intros [] | constructor].
  - inversion Hnd as [|? ? Hnotin Hnd']; subst.
    destruct (decide (k = k0)) as [->|Hk]; simpl.
    + now constructor.
    + constructor; [|now apply IH].
      rewrite dict_set_keys. intros [-> | Hin]; [congruence | contradiction].
Qed.

Lemma dict_get_In (k : K) (v : V) (d : list (K * V)) :
  dict_get k d = Some v -> In (k, v) d.
Proof.
  induction d as [|[k0 v0] d IH]; simpl; [discriminate|].
  destruct (decide (k = k0)) as [->|Hk]; intros H.
  - injection H as ->. auto.
  - auto.
Qed.

Lemma dict_In_get (k : K) (v : V) (d : list (K * V)) :
  List.NoDup (map fst d) -> In (k, v) d -> dict_get k d = Some v.
Proof.
  induction d as [|[k0 v0] d IH]; simpl; intros Hnd Hin; [contradiction|].
  inversion Hnd as [|? ? Hnotin Hnd']; subst.
  destruct Hin as [H | H].
  - injection H as -> ->. destruct (decide (k = k)); congruence.
  - destruct (decide (k = k0)) as [->|Hk]; [|auto].
    exfalso. apply Hnotin. change k0 with (fst (k0, v)). now apply in_map.
Qed.

Lemma dict_key_value (k : K) (d : list (K * V)) :
  In k (map fst d) -> exists v, In (k, v) d.
Proof.
  rewrite in_map_iff. intros ([k' v] & <- & Hin). exists v. exact Hin.
Qed.
End DictFacts.

(** *** The stable sort *)

Section SortFacts.
Context {A : Type} (leb : A -> A -> bool).

Lemma insert_sorted_perm (x : A) (l : list A) :
  Permutation (insert_sorted leb x l) (x :: l).
Proof.
  induction l as [|y l IH]; simpl; [apply Permutation_refl|].
  destruct (leb x y); [apply Permutation_refl|].
  eapply perm_trans; [apply perm_skip, IH | apply perm_swap].
Qed.

Lemma stable_sort_perm (l : list A) : Permutation (stable_sort leb l) l.
Proof.
  induction l as [|x l IH]; simpl; [apply perm_nil|].
  eapply perm_trans; [apply insert_sorted_perm | now apply perm_skip].
Qed.

Lemma stable_sort_In (x : A) (l : list A) : In x (stable_sort leb l) <-> In x l.
Proof.
  split; apply Permutation_in;
    [apply stable_sort_perm | apply Permutation_sym, stable_sort_perm].
Qed.

Lemma stable_sort_length (l : list A) : length (stable_sort leb l) = length l.
Proof. apply Permutation_length, stable_sort_perm. Qed.

Hypothesis leb_total : forall a b, leb a b = true \/ leb b a = true.
Hypothesis leb_trans : forall a b c, leb a b = true -> leb b c = true -> leb a c = true.

Lemma insert_sorted_sorted (x : A) (l : list A) :
  StronglySorted (fun a b => leb a b = true) l ->
  StronglySorted (fun a b => leb a b = true) (insert_sorted leb x l).
Proof.
  induction l as [|y l IH]; simpl; intros Hs.
  - constructor; [constructor | constructor].
  - inversion Hs as [|? ? Hl Hy]; subst.
    destruct (leb x y) eqn:Hxy.
    + constructor; [exact Hs|]. constructor; [exact Hxy|].
      rewrite List.Forall_forall in Hy |- *. intros z Hz. eauto.
    + constructor; [now apply IH|].
      rewrite List.Forall_forall in Hy |- *. intros z Hz.
      apply (Permutation_in _ (insert_sorted_perm x l)) in Hz as [<- | Hz]; [|auto].
      destruct (leb_total x y); congruence.
Qed.

Lemma stable_sort_sorted (l : list A) :
  StronglySorted (fun a b => leb a b = true) (stable_sort leb l).
Proof.
  induction l as [|x l IH]; simpl; [constructor | now apply insert_sorted_sorted].
Qed.
End SortFacts.

(** *** Folds *)

Lemma fold_left_inv {A B : Type} (P : A -> Prop) (f : A -> B -> A) (l : list B) (a : A) :
  P a -> (forall a x, In x l -> P a -> P (f a x)) -> P (fold_left f l a).
Proof.
  revert a. induction l as [|y l IH]; intros a Ha Hstep; simpl; [exact Ha|].
  apply IH; [apply Hstep; simpl; auto | intros; apply Hstep; simpl; auto].
Qed.

Lemma fold_left_reach {A B : Type} (Q : A -> Prop) (f : A -> B -> A) (l : list B)
    (x : B) (a : A) :
  In x l -> (forall a, Q (f a x)) -> (forall a y, Q a -> Q (f a y)) ->
  Q (fold_left f l a).
Proof.
  revert a. induction l as [|y l IH]; intros a Hin Hx Hkeep; simpl; [contradiction|].
  destruct Hin as [-> | Hin].
  - apply fold_left_inv; [apply Hx | intros; now apply Hkeep].
  - now apply IH.
Qed.

(** *** Grouping *)

Lemma classify_name (f : string) (k : string * string) (x : frame) :
  classify f = Some (k, x) -> f_name x = f.
Proof.
  intros H. apply classify_spec in H as (? & ? & ? & ? & _ & _ & _ & ->).
  reflexivity.
Qed.

Lemma appended_nil (o : option (list frame)) : appended o [] = o.
Proof. destruct o as [items|]; simpl; [now rewrite app_nil_r | reflexivity]. Qed.

Lemma appended_app (o : option (list frame)) (a b : list frame) :
  appended (appended o a) b = appended o (a ++ b).
Proof.
  destruct o as [items|]; simpl; [now rewrite <- app_assoc|].
  destruct a as [|x a]; reflexivity.
Qed.

Lemma frames_under_cons (k : string * string) (f : string) (l : list string) :
  frames_under k (f :: l) = frames_under k [f] ++ frames_under k l.
Proof. unfold frames_under. simpl. now rewrite app_nil_r. Qed.

Lemma group_step_get (temp : list ((string * string) * list frame)) (f : string)
    (k : string * string) :
  dict_get k (group_step temp f) = appended (dict_get k temp) (frames_under k [f]).
Proof.
  unfold group_step, frames_under. simpl. rewrite app_nil_r.
  destruct (classify f) as [[k' x]|]; [|now rewrite appended_nil].
  unfold setdefault_append.
  destruct (decide (k' = k)) as [->|Hne].
  - destruct (dict_get k temp) as [items|] eqn:Hg;
      rewrite dict_get_set_eq; reflexivity.
  - rewrite appended_nil.
    destruct (dict_get k' temp); now rewrite dict_get_set_ne.
Qed.

Lemma group_fold_get (l : list string) (temp : list ((string * string) * list frame))
    (k : string * string) :
  dict_get k (fold_left group_step l temp) = appended (dict_get k temp) (frames_under k l).
Proof.
  revert temp. induction l as [|f l IH]; intros temp; simpl fold_left.
  - now rewrite appended_nil.
  - now rewrite IH, group_step_get, appended_app, <- frames_under_cons.
Qed.

Lemma group_files_get (k : string * string) (l : list string) :
  dict_get k (group_files l) = appended None (frames_under k l).
Proof. unfold group_files. now rewrite group_fold_get. Qed.

Lemma group_files_NoDup (l : list string) : List.NoDup (map fst (group_files l)).
Proof.
  unfold group_files. apply fold_left_inv; [constructor|].
  intros temp f _ Hnd. unfold group_step.
  destruct (classify f) as [[k x]|]; [|exact Hnd].
  unfold setdefault_append. destruct (dict_get k temp); now apply dict_set_NoDup.
Qed.

(** The dictionary of a directory holds, under each key, the group of that
    key, and holds no empty group. *)
Lemma group_files_In (filenames : list string) (p e : string) (items : list frame) :
  In ((p, e), items) (group_files (candidates filenames))
  <-> items = group filenames p e /\ items <> [].
Proof.
  unfold group. split.
  - intros Hin. apply dict_In_get in Hin; [|apply group_files_NoDup].
    rewrite group_files_get in Hin. simpl in Hin.
    destruct (frames_under (p, e) (candidates filenames)); [discriminate|].
    injection Hin as <-. split; [reflexivity | discriminate].
  - intros [-> Hne]. apply dict_get_In. rewrite group_files_get. simpl.
    destruct (frames_under (p, e) (candidates filenames)); [congruence | reflexivity].
Qed.

Lemma frames_under_classified (k : string * string) (l : list string) :
  Forall (fun x => classify (f_name x) = Some (k, x)) (frames_under k l).
Proof.
  unfold frames_under. induction l as [|f l IH]; simpl; [constructor|].
  apply Forall_app. split; [|exact IH].
  destruct (classify f) as [[k' x]|] eqn:Hc; [|constructor].
  destruct (decide (k' = k)) as [->|]; [|constructor].
  constructor; [|constructor]. now rewrite (classify_name _ _ _ Hc).
Qed.

(** *** Emission *)

Lemma emit_step_sound (walk : list (string * list string)) (d : string)
    (fs : list string) (sequences : list (string * SequenceItem))
    (entry : (string * string) * list frame) :
  In (d, fs) walk -> In entry (group_files (candidates fs)) ->
  sound walk sequences -> sound walk (emit_step d sequences entry).
Proof.
  intros Hd Hin Hs. destruct entry as [[p e] items]. unfold emit_step.
  apply group_files_In in Hin as [-> _].
  destruct (3 <=? length (stable_sort idx_leb (group fs p e)))%nat eqn:Hlen; [|exact Hs].
  apply Nat.leb_le in Hlen. rewrite stable_sort_length in Hlen.
  intros k s Hks. apply dict_set_In in Hks as [[-> ->] | Hks]; [|now apply Hs].
  split; [reflexivity|]. exists d, fs, p, e. auto.
Qed.

Lemma scan_dir_sound (walk : list (string * list string))
    (sequences : list (string * SequenceItem)) (entry : string * list string) :
  In entry walk -> sound walk sequences -> sound walk (scan_dir sequences entry).
Proof.
  intros Hin Hs. destruct entry as [d fs]. unfold scan_dir.
  apply fold_left_inv; [exact Hs|].
  intros a x Hx Ha. now apply (emit_step_sound walk d fs).
Qed.

Lemma scan_sound (walk : list (string * list string)) :
  sound walk (fold_left scan_dir walk []).
Proof.
  apply fold_left_inv; [intros k s []|].
  intros a x Hx Ha. now apply scan_dir_sound.
Qed.

Lemma emit_step_keeps (d k : string) (sequences : list (string * SequenceItem))
    (entry : (string * string) * list frame) :
  In k (map fst sequences) -> In k (map fst (emit_step d sequences entry)).
Proof.
  intros Hk. destruct entry as [[p e] items]. unfold emit_step.
  destruct (3 <=? length (stable_sort idx_leb items))%nat; [|exact Hk].
  apply dict_set_keys. auto.
Qed.

Lemma scan_dir_keeps (k : string) (sequences : list (string * SequenceItem))
    (entry : string * list string) :
  In k (map fst sequences) -> In k (map fst (scan_dir sequences entry)).
Proof.
  intros Hk. destruct entry as [d fs]. unfold scan_dir.
  apply fold_left_inv; [exact Hk|]. intros a x _ Ha. now apply emit_step_keeps.
Qed.

Lemma scan_dir_emits (d : string) (fs : list string) (p e : string)
    (sequences : list (string * SequenceItem)) :
  (3 <= length (group fs p e))%nat ->
  In (sequence_key d p e) (map fst (scan_dir sequences (d, fs))).
Proof.
  intros Hlen. unfold scan_dir.
  apply (fold_left_reach (fun a => In (sequence_key d p e) (map fst a)) _ _
           ((p, e), group fs p e)).
  - apply group_files_In. split; [reflexivity|].
    intros Heq. rewrite Heq in Hlen. simpl in Hlen. lia.
  - intros a. unfold emit_step. rewrite stable_sort_length.
    apply Nat.leb_le in Hlen. rewrite Hlen. apply dict_set_keys. auto.
  - intros a y Ha. now apply emit_step_keeps.
Qed.

Lemma scan_emits (walk : list (string * list string)) (d : string) (fs : list string)
    (p e : string) :
  In (d, fs) walk -> (3 <= length (group fs p e))%nat ->
  In (sequence_key d p e) (map fst (fold_left scan_dir walk [])).
Proof.
  intros Hin Hlen. apply (fold_left_reach (fun a => In (sequence_key d p e) (map fst a)) _ _ (d, fs));
    [exact Hin | |].
  - intros a. now apply scan_dir_emits.
  - intros a y Ha. now apply scan_dir_keeps.
Qed.

Lemma find_sequences_walk_In (walk : list (string * list string)) (s : SequenceItem) :
  In s (find_sequences_walk walk)
  <-> exists k, In (k, s) (fold_left scan_dir walk []).
Proof.
  unfold find_sequences_walk, dict_values. rewrite stable_sort_In, in_map_iff.
  split.
  - intros ([k s'] & <- & Hin). exists k. exact Hin.
  - intros (k & Hin). exists (k, s). auto.
Qed.

Lemma find_sequences_walk_produced (walk : list (string * list string))
    (s : SequenceItem) :
  In s (find_sequences_walk walk) -> produced walk s.
Proof.
  rewrite find_sequences_walk_In. intros (k & Hin).
  now destruct (scan_sound walk k s Hin).
Qed.

Lemma find_sequences_walk_emits (walk : list (string * list string)) (d : string)
    (fs : list string) (p e : string) :
  In (d, fs) walk -> (3 <= length (group fs p e))%nat ->
  exists s, In s (find_sequences_walk walk) /\ key s = sequence_key d p e.
Proof.
  intros Hin Hlen.
  destruct (dict_key_value _ _ (scan_emits walk d fs p e Hin Hlen)) as (s & Hs).
  exists s. split.
  - apply find_sequences_walk_In. eauto.
  - now destruct (scan_sound walk _ _ Hs).
Qed.

(** *** The orders *)

Lemma idx_leb_total (a b : frame) : idx_leb a b = true \/ idx_leb b a = true.
Proof. unfold idx_leb. lia. Qed.

Lemma idx_leb_trans (a b c : frame) :
  idx_leb a b = true -> idx_leb b c = true -> idx_leb a c = true.
Proof. unfold idx_leb. lia. Qed.

Lemma string_leb_trans (a b c : string) :
  String.leb a b = true -> String.leb b c = true -> String.leb a c = true.
Proof.
  intros H1 H2. apply Is_true_true. apply Is_true_true in H1, H2.
  exact (transitivity (R := String.le) H1 H2).
Qed.

Lemma key_leb_total (a b : SequenceItem) : key_leb a b = true \/ key_leb b a = true.
Proof. unfold key_leb. apply String.leb_total. Qed.

Lemma key_leb_trans (a b c : SequenceItem) :
  key_leb a b = true -> key_leb b c = true -> key_leb a c = true.
Proof. unfold key_leb. apply string_leb_trans. Qed.

Lemma sorted_group_ascending (items : list frame) :
  StronglySorted (fun a b => f_idx a <= f_idx b) (stable_sort idx_leb items).
Proof.
  pose proof (stable_sort_sorted idx_leb idx_leb_total idx_leb_trans items) as H.
  induction H as [|x l Hl IH Hx]; constructor; [exact IH|].
  eapply List.Forall_impl; [|exact Hx]. intros y. unfold idx_leb. lia.
Qed.

(** C3.  Every Sequence that discovery returns is the item built from a
    (prefix, extension) group of at least three frames of one directory of
    the walk, and has as many frames as the group; every group of at least
    three frames has its Sequence in the result, under its key; a directory
    scanned alone yields no Sequence for a group of fewer than three frames.
    Two frames give nothing, three give a Sequence.  The root with
    [a_001.png] to [a_010.png], [b_01.jpg] and [b_02.jpg] yields exactly one
    Sequence, the ten frames of the [a_] files (its prefix field is [a];
    the two [b_] names have two-digit indices and match no pattern). *)
Theorem sequence_iff_three_frames :
  (forall walk s,
      In s (find_sequences_walk walk) ->
      exists d fs p e,
        In (d, fs) walk /\ (3 <= length (group fs p e))%nat
        /\ s = make_item d p e (stable_sort idx_leb (group fs p e))
        /\ length (frames s) = length (group fs p e))
  /\ (forall walk d fs p e,
        In (d, fs) walk -> (3 <= length (group fs p e))%nat ->
        exists s, In s (find_sequences_walk walk) /\ key s = sequence_key d p e)
  /\ (forall d fs p e,
        (length (group fs p e) < 3)%nat ->
        ~ exists s, In s (find_sequences_walk [(d, fs)]) /\ prefix s = p /\ ext s = e)
  /\ find_sequences "/root" (Dir ["a_001.png"; "a_002.png"] []) = []
  /\ length (find_sequences "/root" (Dir ["a_001.png"; "a_002.png"; "a_003.png"] [])) = 1%nat
  /\ find_sequences "/root" (Dir (ten_a ++ ["b_01.jpg"; "b_02.jpg"]) []) = [ten_a_sequence].
Proof.
  split; [|split; [|split; [|repeat split; vm_compute; reflexivity]]].
  - intros walk s Hs. apply find_sequences_walk_produced in Hs.
    destruct Hs as (d & fs & p & e & Hin & Hlen & ->).
    exists d, fs, p, e. repeat split; auto.
    simpl. now rewrite length_map, stable_sort_length.
  - intros walk d fs p e. apply find_sequences_walk_emits.
  - intros d fs p e Hlen (s & Hs & <- & <-).
    apply find_sequences_walk_produced in Hs.
    destruct Hs as (d' & fs' & p' & e' & Hin & Hlen' & ->).
    destruct Hin as [Heq | []]. injection Heq as <- <-. simpl in Hlen. lia.
Qed.

(** The first part of C3 at the root of the example. *)
Lemma sequence_iff_three_frames_witness :
  exists d fs p e,
    In (d, fs) (os_walk "/root" (Dir (ten_a ++ ["b_01.jpg"; "b_02.jpg"]) []))
    /\ (3 <= length (group fs p e))%nat
    /\ ten_a_sequence = make_item d p e (stable_sort idx_leb (group fs p e))
    /\ length (frames ten_a_sequence) = length (group fs p e).
Proof.
  apply (proj1 sequence_iff_three_frames
           (os_walk "/root" (Dir (ten_a ++ ["b_01.jpg"; "b_02.jpg"]) []))
           ten_a_sequence).
  assert (find_sequences_walk
            (os_walk "/root" (Dir (ten_a ++ ["b_01.jpg"; "b_02.jpg"]) []))
          = [ten_a_sequence]) as -> by (vm_compute; reflexivity).
  left. reflexivity.
Defined.

(** C4, as amended.  The frames of every Sequence are the paths of a list
    of matched frames in ascending, not necessarily strictly ascending,
    order of the integer index parsed from each name (two names of one
    group may carry the same index); each of these frames is classified
    under the Sequence's prefix and extension.  [frame_999.png],
    [frame_1000.png], [frame_1001.png] are ordered 999, 1000, 1001, not in
    the lexical order 1000, 1001, 999. *)
Theorem frames_ascending :
  (forall walk s,
      In s (find_sequences_walk walk) ->
      exists items,
        frames s = map (fun x => path_join (folder s) (f_name x)) items
        /\ StronglySorted (fun a b => f_idx a <= f_idx b) items
        /\ Forall (fun x => classify (f_name x) = Some ((prefix s, ext s), x)) items
        /\ (3 <= length items)%nat)
  /\ map frames
       (find_sequences "/r" (Dir ["frame_1000.png"; "frame_1001.png"; "frame_999.png"] []))
     = [["/r/frame_999.png"; "/r/frame_1000.png"; "/r/frame_1001.png"]].
Proof.
  split; [|reflexivity].
  intros walk s Hs. apply find_sequences_walk_produced in Hs.
  destruct Hs as (d & fs & p & e & Hin & Hlen & ->).
  exists (stable_sort idx_leb (group fs p e)). simpl.
  split; [reflexivity|]. split; [apply sorted_group_ascending|].
  split; [|now rewrite stable_sort_length].
  rewrite List.Forall_forall. intros x Hx. apply stable_sort_In in Hx.
  pose proof (frames_under_classified (p, e) (candidates fs)) as Hall.
  rewrite List.Forall_forall in Hall. now apply Hall.
Qed.

(** The order of C4 at the three [frame_] names. *)
Lemma frames_ascending_witness :
  exists items,
    ["/r/frame_999.png"; "/r/frame_1000.png"; "/r/frame_1001.png"]
    = map (fun x => path_join "/r" (f_name x)) items
    /\ StronglySorted (fun a b => f_idx a <= f_idx b) items.
Proof.
  destruct (proj1 frames_ascending
              [("/r", ["frame_1000.png"; "frame_1001.png"; "frame_999.png"])]
              (make_item "/r" "frame" "png"
                 [Frame 999 "frame_999.png" 3; Frame 1000 "frame_1000.png" 4;
                  Frame 1001 "frame_1001.png" 4]))
    as (items & Hf & Hs & _).
  - assert (find_sequences_walk
              [("/r", ["frame_1000.png"; "frame_1001.png"; "frame_999.png"])]
            = [make_item "/r" "frame" "png"
                 [Frame 999 "frame_999.png" 3; Frame 1000 "frame_1000.png" 4;
                  Frame 1001 "frame_1001.png" 4]]) as -> by (vm_compute; reflexivity).
    left. reflexivity.
  - exists items. split; [exact Hf | exact Hs].
Defined.

(** C4 as stated fails twice: [frame_9.png], [frame_10.png],
    [frame_11.png] form no Sequence at all (their indices have fewer than
    three digits), and the three names [a_001.png], [a-001.png],
    [a.001.png] form one Sequence whose frames all carry the index 1. *)
Lemma frames_not_strictly_ascending :
  find_sequences "/r" (Dir ["frame_9.png"; "frame_10.png"; "frame_11.png"] []) = []
  /\ map frames (find_sequences "/r" (Dir ["a_001.png"; "a-001.png"; "a.001.png"] []))
     = [["/r/a_001.png"; "/r/a-001.png"; "/r/a.001.png"]]
  /\ map (fun f => option_map (fun r => f_idx (snd r)) (classify f))
         ["a_001.png"; "a-001.png"; "a.001.png"]
     = [Some 1; Some 1; Some 1].
Proof. repeat split; reflexivity. Qed.

(** Three names with seven-digit indices are discovered as a Sequence of
    the prefix [shot_0]. *)
Lemma seven_digit_names_form_a_sequence :
  find_sequences "/r"
    (Dir ["shot_0000007.png"; "shot_0000008.png"; "shot_0000009.png"] [])
  = [make_item "/r" "shot_0" "png"
       [Frame 7 "shot_0000007.png" 6; Frame 8 "shot_0000008.png" 6;
        Frame 9 "shot_0000009.png" 6]].
Proof. vm_compute. reflexivity. Qed.

(** C10.  The Sequences come out in ascending order of their key strings
    compared without regard to case ([key.lower()], code point by code
    point), for every walk and so for every root. *)
Theorem find_sequences_sorted_by_key :
  (forall walk,
      StronglySorted (fun a b => String.leb (lower (key a)) (lower (key b)) = true)
                     (find_sequences_walk walk))
  /\ (forall root t,
        StronglySorted (fun a b => String.leb (lower (key a)) (lower (key b)) = true)
                       (find_sequences root t)).
Proof.
  assert (forall walk,
             StronglySorted (fun a b => String.leb (lower (key a)) (lower (key b)) = true)
                            (find_sequences_walk walk)) as H.
  { intros walk. unfold find_sequences_walk.
    apply (stable_sort_sorted key_leb key_leb_total key_leb_trans). }
  split; [exact H | intros root t; apply H].
Qed.

End DiscoveryFacts.

(** ** The thumbnail cache *)

Module CacheFacts.
Import Cache.

Section WithImage.
Context {image : Type}.

Lemma get_hit (c : ThumbCache image) (disk : gmap string (file image))
    (path : string) (i : Z) (ph : photo image) :
  mem c !! key c path i = Some ph -> get c disk path i = (Some ph, c, []).
Proof. intros H. unfold get. now rewrite H. Qed.

Lemma get_size (c : ThumbCache image) (disk : gmap string (file image))
    (path : string) (i : Z) :
  size (get c disk path i).1.2 = size c /\ cache_dir (get c disk path i).1.2 = cache_dir c.
Proof.
  unfold get. destruct (mem c !! key c path i); [auto|].
  destruct (disk !! disk_path c path i) as [[im|]|]; auto.
Qed.

Lemma get_keeps (c : ThumbCache image) (disk : gmap string (file image))
    (path : string) (i : Z) (k : string * Z * Z) :
  is_Some (mem c !! k) -> is_Some (mem (get c disk path i).1.2 !! k).
Proof.
  intros Hk. unfold get. destruct (mem c !! key c path i); [exact Hk|].
  destruct (disk !! disk_path c path i) as [[im|]|]; simpl; try exact Hk.
  rewrite lookup_insert. destruct (decide (key c path i = k)); [eauto | exact Hk].
Qed.

Lemma run_call_fields (st : ThumbCache image * gmap string (file image)) (o : call) :
  size (run_call st o).1 = size st.1 /\ cache_dir (run_call st o).1 = cache_dir st.1.
Proof. destruct o; simpl; [apply get_size | auto]. Qed.

Lemma run_call_keeps (st : ThumbCache image * gmap string (file image)) (o : call)
    (k : string * Z * Z) :
  is_Some (mem st.1 !! k) -> is_Some (mem (run_call st o).1 !! k).
Proof.
  intros Hk. destruct o as [path i | saved path i im]; simpl.
  - now apply get_keeps.
  - rewrite lookup_insert. destruct (decide (key st.1 path i = k)); [eauto | exact Hk].
Qed.

Lemma run_calls_fields (os : list call) (st : ThumbCache image * gmap string (file image)) :
  size (run_calls st os).1 = size st.1 /\ cache_dir (run_calls st os).1 = cache_dir st.1.
Proof.
  revert st. induction os as [|o os IH]; intros st; simpl; [auto|].
  destruct (IH (run_call st o)) as [-> ->]. apply run_call_fields.
Qed.

Lemma run_calls_keeps (os : list call) (st : ThumbCache image * gmap string (file image))
    (k : string * Z * Z) :
  is_Some (mem st.1 !! k) -> is_Some (mem (run_calls st os).1 !! k).
Proof.
  revert st. induction os as [|o os IH]; intros st Hk; simpl; [exact Hk|].
  apply IH. now apply run_call_keeps.
Qed.

(** C5.  Right after [put(path, frame_idx, image)], [get(path, frame_idx)]
    on the same cache returns the photo that [put] made, from the memory
    map: the cache is left as it was and no cache file is opened ([get]
    itself never runs the codec).  After any further calls of [get] and
    [put] on that cache, [get(path, frame_idx)] still returns a photo in
    the same way. *)
Theorem get_after_put :
  forall (c : ThumbCache image) (disk : gmap string (file image))
         (saved : save_result image) (path : string) (frame_idx : Z) (im : image)
         (calls : list call),
    let r := put c disk saved path frame_idx im in
    get r.1.2 r.2 path frame_idx = (Some r.1.1, r.1.2, [])
    /\ r.1.1 = PhotoImage im
    /\ let st := run_calls (r.1.2, r.2) calls in
       exists ph, get st.1 st.2 path frame_idx = (Some ph, st.1, []).
Proof.
  intros c disk saved path i im calls. unfold put. cbn [fst snd].
  split; [|split; [reflexivity|]].
  - apply get_hit. unfold key, with_mem. cbn [mem size]. apply lookup_insert_eq.
  - set (c1 := with_mem c (<[key c path i := PhotoImage im]> (mem c))).
    set (d1 := match saved with Saved => _ | Raised _ => _ end).
    assert (is_Some (mem (run_calls (c1, d1) calls).1 !! key c path i)) as [ph Hph].
    { apply run_calls_keeps. unfold c1, with_mem. cbn [fst mem].
      rewrite lookup_insert_eq. eauto. }
    exists ph. apply get_hit.
    unfold key in *. now rewrite (proj1 (run_calls_fields calls (c1, d1))).
Qed.

(** C6.  Two caches made by [ThumbCache(root, size)], whatever the disk
    each runs on and whatever calls each has served, give the same disk
    path for the same [(path, frame_idx)]: the cache directory of the root
    joined with the SHA-1 hex digest of the UTF-8 bytes of
    ["path|size|frame_idx"] and [".png"]. *)
Theorem disk_path_deterministic :
  (forall (root : string) (sz : Z) (d1 d2 : gmap string (file image))
          (calls1 calls2 : list call) (path : string) (frame_idx : Z),
      let c1 := (run_calls (init root sz, d1) calls1).1 in
      let c2 := (run_calls (init root sz, d2) calls2).1 in
      disk_path c1 path frame_idx = disk_path c2 path frame_idx
      /\ disk_path c1 path frame_idx
         = Str.path_join (Str.path_join root ".seqwall_cache")
             (Sha1.hexdigest
                (Sha1.utf8 (path +:+ "|" +:+ Str.str_int sz +:+ "|" +:+ Str.str_int frame_idx))
              +:+ ".png"))
  /\ disk_path (init (image := image) "/root" 200) "/root/a_001.png" 0
     = "/root/.seqwall_cache/2d68c291ce37f77a86b3e6ac5ded2cf004c9b87d.png".
Proof.
  split; [|vm_compute; reflexivity].
  intros root sz d1 d2 calls1 calls2 path i. cbv zeta.
  unfold disk_path, key_text.
  destruct (run_calls_fields calls1 (init root sz, d1)) as [-> ->].
  destruct (run_calls_fields calls2 (init root sz, d2)) as [-> ->].
  cbn [fst size cache_dir init]. auto.
Qed.

End WithImage.

End CacheFacts.

(** ** Tiles and the tick *)

Module WallFacts.
Import Cache Wall.

Section WithImage.
Context {image : Type}.
Context (thumbnail : image -> Z -> image).

Lemma adds_jobs_refl (i : nat) (w : shared image) : adds_jobs_of i w w.
Proof. exists []. split; [now rewrite app_nil_r | constructor]. Qed.

Lemma adds_jobs_trans (i : nat) (w1 w2 w3 : shared image) :
  adds_jobs_of i w1 w2 -> adds_jobs_of i w2 w3 -> adds_jobs_of i w1 w3.
Proof.
  intros (n1 & H1 & F1) (n2 & H2 & F2). exists (n1 ++ n2). split.
  - now rewrite H2, H1, app_assoc.
  - apply Forall_app. auto.
Qed.

Lemma adds_one_job (i : nat) (w : shared image) (c : ThumbCache image)
    (path : string) (k : Z) :
  adds_jobs_of i w (Shared c (disk w) (pool w ++ [Job i path k])).
Proof. eexists. split; [reflexivity|]. constructor; [reflexivity | constructor]. Qed.

Lemma adds_no_job (i : nat) (w : shared image) (c : ThumbCache image) :
  adds_jobs_of i w (Shared c (disk w) (pool w)).
Proof. exists []. split; [simpl; now rewrite app_nil_r | constructor]. Qed.

Lemma ensure_first_frame_loaded_spec (i : nat) (t : SeqTile image) (w : shared image) :
  let r := ensure_first_frame_loaded i t w in
  idx r.1 = idx t /\ running r.1 = running t /\ seq r.1 = seq t
  /\ adds_jobs_of i w r.2.
Proof.
  unfold ensure_first_frame_loaded.
  destruct (first_loaded t || loading_first t || no_frames t).
  - cbn [fst snd]. auto using adds_jobs_refl.
  - destruct (get (thumb_cache w) (disk w) (nth 0 (frames (seq t)) EmptyString) 0)
      as [[[ph|] c'] o]; cbn [fst snd]; unfold set_flags, set_shown; cbn;
      auto using adds_no_job, adds_one_job.
Qed.

Lemma step_paused (i : nat) (stp : Z) (t : SeqTile image) (w : shared image) :
  running t = false -> step i stp t w = (t, w).
Proof. intros H. unfold step. now rewrite H. Qed.

Lemma step_spec (i : nat) (stp : Z) (t : SeqTile image) (w : shared image) :
  let r := step i stp t w in
  running r.1 = running t /\ seq r.1 = seq t /\ adds_jobs_of i w r.2.
Proof.
  unfold step. destruct (negb (running t) || no_frames t).
  - cbn [fst snd]. auto using adds_jobs_refl.
  - destruct (negb (first_loaded t)).
    + destruct (ensure_first_frame_loaded_spec i t w) as (_ & ? & ? & ?). auto.
    + match goal with |- context [get ?c ?d ?p ?k] =>
        destruct (get c d p k) as [[[ph|] c'] o] end;
        cbn [fst snd]; unfold set_shown, set_idx; cbn;
        auto using adds_no_job, adds_one_job.
Qed.

Lemma step_advances (i : nat) (stp : Z) (t : SeqTile image) (w : shared image) :
  running t = true -> no_frames t = false -> first_loaded t = true ->
  idx (step i stp t w).1 = (idx t + stp) mod Z.of_nat (length (frames (seq t))).
Proof.
  intros Hr Hn Hl. unfold step. rewrite Hr, Hn, Hl. cbn [negb orb].
  match goal with |- context [get ?c ?d ?p ?k] =>
    destruct (get c d p k) as [[[ph|] c'] o] end; reflexivity.
Qed.

Lemma tick_tile_out_of_view (y0 y1 stp : Z) (play : bool) (i : nat)
    (t : SeqTile image) (w : shared image) :
  in_view y0 y1 t = false -> tick_tile y0 y1 stp play i t w = (t, w).
Proof. intros H. unfold tick_tile. now rewrite H. Qed.

Lemma tick_tile_jobs (y0 y1 stp : Z) (play : bool) (i : nat)
    (t : SeqTile image) (w : shared image) :
  exists new,
    pool (tick_tile y0 y1 stp play i t w).2 = pool w ++ new
    /\ Forall (fun j => job_tile j = i /\ in_view y0 y1 t = true) new.
Proof.
  unfold tick_tile. destruct (in_view y0 y1 t) eqn:Hv.
  - assert (adds_jobs_of i w
              (let '(t1, w1) := ensure_first_frame_loaded i t w in
               if play then step i stp t1 w1 else (t1, w1)).2) as (new & Hp & Hf).
    { pose proof (ensure_first_frame_loaded_spec i t w) as (_ & _ & _ & H1).
      destruct (ensure_first_frame_loaded i t w) as [t1 w1]. cbn [snd] in H1.
      destruct play; [|exact H1].
      eapply adds_jobs_trans; [exact H1|]. apply step_spec. }
    exists new. split; [exact Hp|].
    eapply List.Forall_impl; [|exact Hf]. intros j Hj. auto.
  - exists []. cbn [snd]. split; [now rewrite app_nil_r | constructor].
Qed.

Lemma tick_tile_paused (y0 y1 stp : Z) (play : bool) (i : nat)
    (t : SeqTile image) (w : shared image) :
  running t = false ->
  idx (tick_tile y0 y1 stp play i t w).1 = idx t
  /\ running (tick_tile y0 y1 stp play i t w).1 = false.
Proof.
  intros Hr. unfold tick_tile. destruct (in_view y0 y1 t); [|auto].
  pose proof (ensure_first_frame_loaded_spec i t w) as (Hi & Hr1 & _ & _).
  destruct (ensure_first_frame_loaded i t w) as [t1 w1]. cbn [fst] in Hi, Hr1.
  rewrite Hr in Hr1.
  destruct play; [rewrite step_paused by exact Hr1|]; cbn [fst]; auto.
Qed.

Lemma tick_tile_advances (y0 y1 stp : Z) (i : nat) (t : SeqTile image) (w : shared image) :
  in_view y0 y1 t = true -> running t = true -> first_loaded t = true ->
  no_frames t = false ->
  idx (tick_tile y0 y1 stp true i t w).1
  = (idx t + stp) mod Z.of_nat (length (frames (seq t)))
  /\ running (tick_tile y0 y1 stp true i t w).1 = true.
Proof.
  intros Hv Hr Hl Hn. unfold tick_tile. rewrite Hv.
  unfold ensure_first_frame_loaded. rewrite Hl. cbn [orb].
  split; [now apply step_advances|].
  destruct (step_spec i stp t w) as (-> & _). exact Hr.
Qed.

(** The loop of [_tick], tile by tile. *)
Lemma tick_tiles_spec (y0 y1 stp : Z) (play : bool) (ts : list (SeqTile image)) :
  forall (i : nat) (w : shared image),
    let r := tick_tiles y0 y1 stp play i ts w in
    (exists new,
        pool r.2 = pool w ++ new
        /\ Forall (fun j => exists n t, ts !! n = Some t /\ job_tile j = (i + n)%nat
                                       /\ in_view y0 y1 t = true) new)
    /\ (forall n t, ts !! n = Some t ->
          exists w0, r.1 !! n = Some (tick_tile y0 y1 stp play (i + n) t w0).1).
Proof.
  induction ts as [|t ts IH]; intros i w; cbn [tick_tiles].
  - split; [|intros n t H; discriminate].
    exists []. cbn [snd]. split; [now rewrite app_nil_r | constructor].
  - destruct (tick_tile_jobs y0 y1 stp play i t w) as (new1 & Hp1 & Hf1).
    pose proof (fun w0 => eq_refl (tick_tile y0 y1 stp play i t w0)) as Hdef.
    destruct (tick_tile y0 y1 stp play i t w) as [t1 w1] eqn:Ht.
    specialize (IH (S i) w1).
    destruct (tick_tiles y0 y1 stp play (S i) ts w1) as [ts1 w2].
    cbn [fst snd] in *. destruct IH as ((new2 & Hp2 & Hf2) & Hlook).
    split.
    + exists (new1 ++ new2). split; [now rewrite Hp2, Hp1, app_assoc|].
      apply Forall_app. split.
      * eapply List.Forall_impl; [|exact Hf1]. intros j [Hj Hv].
        exists 0%nat, t. rewrite Nat.add_0_r. auto.
      * eapply List.Forall_impl; [|exact Hf2]. intros j (n & t' & Hn & Hj & Hv).
        exists (S n), t'. rewrite Nat.add_succ_r. auto.
    + intros [|n] t' Hn.
      * injection Hn as <-. exists w. rewrite Nat.add_0_r, Ht. reflexivity.
      * destruct (Hlook n t' Hn) as (w0 & Hw0). exists w0.
        rewrite Nat.add_succ_r. exact Hw0.
Qed.

(** C7.  In a tick, every job added to the pool belongs to a tile that the
    test of [_tick] finds in view ([ty < y1 and ty + th > y0] for the range
    of [_visible_y_range]); the jobs already pending stay; and a tile that
    is not in view comes out of the tick exactly as it went in: no load
    started, no step taken. *)
Theorem tick_loads_only_visible :
  forall (inp : tick_input) (a : app image),
    let range := visible_y_range (bbox inp) (canvas_y inp) (canvas_height inp) in
    (exists new,
        pool (world (tick inp a)) = pool (world a) ++ new
        /\ Forall (fun j => exists t, tiles a !! job_tile j = Some t
                                    /\ in_view range.1 range.2 t = true) new)
    /\ (forall i t,
          tiles a !! i = Some t -> in_view range.1 range.2 t = false ->
          tiles (tick inp a) !! i = Some t).
Proof.
  intros inp a range. unfold tick.
  destruct (tiles a) as [|t0 ts] eqn:Hts.
  - split; [|intros i t H; discriminate].
    exists []. split; [now rewrite app_nil_r | constructor].
  - fold range. destruct range as [y0 y1]. cbn [fst snd].
    pose proof (tick_tiles_spec y0 y1 (Z.max 1 (frame_step inp)) (animate inp)
                  (t0 :: ts) 0%nat (world a)) as [(new & Hp & Hf) Hlook].
    destruct (tick_tiles y0 y1 (Z.max 1 (frame_step inp)) (animate inp) 0
                (t0 :: ts) (world a)) as [ts' w']. cbn [fst snd tiles world] in *.
    split.
    + exists new. split; [exact Hp|].
      eapply List.Forall_impl; [|exact Hf]. intros j (n & t & Hn & Hj & Hv).
      exists t. rewrite Hj. auto.
    + intros i t Hi Hv. destruct (Hlook i t Hi) as (w0 & Hw0).
      rewrite Hw0. now rewrite tick_tile_out_of_view.
Qed.

(** A running, loaded tile whose next frame is in the memory map draws it
    at once: the pool gets no job, so the codec is not run again. *)
Lemma step_cached_frame_needs_no_job (i : nat) (stp : Z) (t : SeqTile image)
    (w : shared image) (ph : photo image) :
  running t = true -> no_frames t = false -> first_loaded t = true ->
  let next := (idx t + stp) mod Z.of_nat (length (frames (seq t))) in
  mem (thumb_cache w)
    !! key (thumb_cache w) (nth (Z.to_nat next) (frames (seq t)) EmptyString) next
  = Some ph ->
  step i stp t w = (set_shown (set_idx t next) (Drawn ph), w).
Proof.
  intros Hr Hn Hl next Hmem. unfold step. rewrite Hr, Hn, Hl. cbn [negb orb].
  cbn [idx set_idx]. fold next. rewrite (CacheFacts.get_hit _ _ _ _ _ Hmem).
  destruct w; reflexivity.
Qed.

Lemma load_and_cache_keeps (decoded : option image) (saved : save_result image)
    (path : string)
    (k : Z) (t : SeqTile image) (w : shared image) :
  idx (load_and_cache thumbnail decoded saved path k t w).1 = idx t
  /\ running (load_and_cache thumbnail decoded saved path k t w).1 = running t.
Proof.
  unfold load_and_cache. destruct decoded as [im|]; [|auto].
  destruct (put (thumb_cache w) (disk w) saved path k (thumbnail im (tile_size t)))
    as [[ph c'] d']. auto.
Qed.

Lemma update_tile_lookup (i n : nat) (f : SeqTile image -> SeqTile image)
    (ts : list (SeqTile image)) (t : SeqTile image) :
  ts !! n = Some t ->
  update_tile i f ts !! n = Some (if decide (i = n) then f t else t).
Proof.
  intros Hn. unfold update_tile. destruct (ts !! i) as [ti|] eqn:Hi.
  - destruct (decide (i = n)) as [->|Hne].
    + rewrite list_lookup_insert_eq by (eapply lookup_lt_Some; eauto). congruence.
    + now rewrite list_lookup_insert_ne.
  - destruct (decide (i = n)) as [->|Hne]; [congruence | exact Hn].
Qed.

Lemma tick_lookup (inp : tick_input) (a : app image) (i : nat) (t : SeqTile image) :
  tiles a !! i = Some t ->
  exists w0,
    tiles (tick inp a) !! i
    = Some (tick_tile (visible_y_range (bbox inp) (canvas_y inp) (canvas_height inp)).1
                      (visible_y_range (bbox inp) (canvas_y inp) (canvas_height inp)).2
                      (Z.max 1 (frame_step inp)) (animate inp) i t w0).1.
Proof.
  intros Hi. unfold tick. destruct (tiles a) as [|t0 ts] eqn:Hts; [discriminate|].
  destruct (visible_y_range (bbox inp) (canvas_y inp) (canvas_height inp)) as [y0 y1].
  pose proof (tick_tiles_spec y0 y1 (Z.max 1 (frame_step inp)) (animate inp)
                (t0 :: ts) 0%nat (world a)) as [_ Hlook].
  destruct (tick_tiles y0 y1 (Z.max 1 (frame_step inp)) (animate inp) 0
              (t0 :: ts) (world a)) as [ts' w']. cbn [fst snd tiles] in *.
  exact (Hlook i t Hi).
Qed.

Lemma run_event_paused (e : event) (a : app image) (i : nat) (t : SeqTile image) :
  tiles a !! i = Some t -> running t = false -> e <> Toggle i ->
  exists t',
    tiles (run_event thumbnail a e) !! i = Some t'
    /\ idx t' = idx t /\ running t' = false.
Proof.
  intros Hi Hr Hne. destruct e as [inp | n decoded saved | i' | i' y h]; cbn [run_event].
  - destruct (tick_lookup inp a i t Hi) as (w0 & Hw0).
    eexists. split; [exact Hw0|]. now apply tick_tile_paused.
  - unfold finish. destruct (pool (world a) !! n) as [j|]; [|eauto].
    destruct (tiles a !! job_tile j) as [tj|] eqn:Hj; [|cbn [tiles]; eauto].
    match goal with |- context [load_and_cache ?th ?d ?s ?p ?k ?tt ?w] =>
      pose proof (load_and_cache_keeps d s p k tt w) as [Hk1 Hk2];
      destruct (load_and_cache th d s p k tt w) as [t' w'] end.
    cbn [fst tiles] in *. destruct (decide (job_tile j = i)) as [Heq|Hneq].
    + rewrite Heq in *. rewrite list_lookup_insert_eq by (eapply lookup_lt_Some; eauto).
      exists t'. assert (tj = t) as -> by congruence. split; [reflexivity|].
      split; congruence.
    + rewrite list_lookup_insert_ne by exact Hneq. eauto.
  - cbn [tiles]. rewrite (update_tile_lookup i' i toggle _ t Hi).
    destruct (decide (i' = i)) as [->|]; [congruence | eauto].
  - cbn [tiles]. rewrite (update_tile_lookup i' i _ _ t Hi).
    destruct (decide (i' = i)); eauto.
Qed.

(** C8.  A tile whose running flag is false keeps its frame index and stays
    paused through every run of ticks (with the play flag set or not),
    finished jobs and changes of geometry, and clicks on other tiles, as
    long as it is not clicked itself.  On a tick with the play flag set,
    every tile that is in view, running and loaded, with frames, moves its
    frame index to [(idx + step) mod len(frames)] with
    [step = max(1, frame_step)], and stays running. *)
Theorem paused_tile_keeps_frame :
  (forall (es : list event) (a : app image) (i : nat) (t : SeqTile image),
      tiles a !! i = Some t -> running t = false ->
      Forall (fun e => e <> Toggle i) es ->
      exists t',
        tiles (run thumbnail a es) !! i = Some t'
        /\ idx t' = idx t /\ running t' = false)
  /\ (forall (inp : tick_input) (a : app image) (j : nat) (t : SeqTile image),
        let range := visible_y_range (bbox inp) (canvas_y inp) (canvas_height inp) in
        tiles a !! j = Some t -> animate inp = true ->
        in_view range.1 range.2 t = true ->
        running t = true -> first_loaded t = true -> frames (seq t) <> [] ->
        exists t',
          tiles (tick inp a) !! j = Some t'
          /\ idx t' = (idx t + Z.max 1 (frame_step inp))
                       mod Z.of_nat (length (frames (seq t)))
          /\ running t' = true).
Proof.
  split.
  - induction es as [|e es IH]; intros a i t Hi Hr Hes; cbn [run fold_left].
    + eauto.
    + inversion Hes as [|? ? He Hes']; subst.
      destruct (run_event_paused e a i t Hi Hr He) as (t1 & H1 & Hidx & Hrun).
      destruct (IH (run_event thumbnail a e) i t1 H1 Hrun Hes') as (t2 & H2 & Hidx2 & Hrun2).
      exists t2. split; [exact H2|]. split; congruence.
  - intros inp a j t range Hj Hplay Hv Hr Hl Hf.
    destruct (tick_lookup inp a j t Hj) as (w0 & Hw0). fold range in Hw0.
    rewrite Hplay in Hw0. eexists. split; [exact Hw0|].
    apply tick_tile_advances; auto.
    unfold no_frames. destruct (frames (seq t)); congruence.
Qed.

End WithImage.

(** The tile of [demo_app] at 5000, out of the view 0 to 600, through a
    tick. *)
Lemma tick_loads_only_visible_witness :
  tiles (tick demo_tick demo_app) !! 2%nat = Some (demo_tile true true 5000).
Proof.
  apply (proj2 (tick_loads_only_visible demo_tick demo_app) 2%nat
           (demo_tile true true 5000)); reflexivity.
Defined.

(** The frozen tile of [demo_app] through two ticks and a click elsewhere. *)
Lemma paused_tile_keeps_frame_witness :
  exists t',
    tiles (run (fun im _ => im) demo_app [Tick demo_tick; Toggle 0%nat; Tick demo_tick])
      !! 1%nat = Some t'
    /\ idx t' = 0 /\ running t' = false.
Proof.
  apply (proj1 (paused_tile_keeps_frame (fun im _ => im))
           [Tick demo_tick; Toggle 0%nat; Tick demo_tick] demo_app 1%nat
           (demo_tile false true 240)).
  - reflexivity.
  - reflexivity.
  - repeat constructor; discriminate.
Defined.

End WallFacts.

(** ** The thumbnail codec *)

Module CodecFacts.
Import Codec.

(** The colour bands are multiplied by the alpha band before they are
    resized, and all four bands are resized to the size [contain_size]
    gives. *)
Lemma premultiplied_then_resized {plane : Type}
    (convert : pil plane -> string -> pil plane) (multiply : plane -> plane -> plane)
    (resize : plane -> Z * Z -> plane) (w h dst_w dst_h : Z) (r g b a : plane)
    (new : Z * Z) :
  contain_size w h dst_w dst_h = Some new ->
  resize_rgba_contain_premultiplied convert multiply resize
    (Pil "RGBA" (w, h) [r; g; b; a]) (dst_w, dst_h)
  = Some (Pil "RGBA" new
            [resize (multiply r a) new; resize (multiply g a) new;
             resize (multiply b a) new; resize a new]).
Proof.
  intros H. unfold resize_rgba_contain_premultiplied.
  cbn [mode size bands]. change (String.eqb "RGBA" "RGBA") with true.
  cbv iota. cbn [size bands]. now rewrite H.
Qed.

(** C9 at a 97 by 97 image and a 200 by 200 box: the scale is
    [200 / 97] in binary64, [97 * scale] is [199.99999999999997], and
    [int] truncates it to 199, so every band is resized to 199 by 199;
    the size stated in exact arithmetic,
    [max(1, floor(w * min(bw / w, bh / h)))], is 200 by 200.  The bands
    are premultiplied by alpha before the resize, as stated. *)
Theorem contain_size_one_pixel_short :
  contain_size 97 97 200 200 = Some (199, 199)
  /\ spec_contain_size 97 97 200 200 = (200, 200)
  /\ forall (plane : Type) (convert : pil plane -> string -> pil plane)
            (multiply : plane -> plane -> plane) (resize : plane -> Z * Z -> plane)
            (r g b a : plane),
       resize_rgba_contain_premultiplied convert multiply resize
         (Pil "RGBA" (97, 97) [r; g; b; a]) (200, 200)
       = Some (Pil "RGBA" (199, 199)
                 [resize (multiply r a) (199, 199); resize (multiply g a) (199, 199);
                  resize (multiply b a) (199, 199); resize a (199, 199)]).
Proof.
  assert (contain_size 97 97 200 200 = Some (199, 199)) as H
      by (vm_compute; reflexivity).
  split; [exact H|]. split; [vm_compute; reflexivity|].
  intros. now apply premultiplied_then_resized.
Qed.

End CodecFacts.

(** ** The patterns on every Python string *)

Module UniFacts.
Import Uni.

Lemma at_end_cases (s : str) : at_end s = true -> s = [] \/ s = [10].
Proof.
  destruct s as [|c [|c' s]]; simpl; intros H; auto; [|discriminate].
  unfold is_newline in H. apply Z.eqb_eq in H. subst c. auto.
Qed.

Lemma uni_is_sep_cases (c : Z) : is_sep c = true -> c = 46 \/ c = 95 \/ c = 45.
Proof. unfold is_sep. intros H. lia. Qed.

Lemma uni_literal_ci_spec (lit s m rest : str) :
  literal_ci lit s = Some (m, rest) -> s = m ++ rest /\ ci_equal lit m.
Proof.
  revert s m rest. induction lit as [|p lit IH]; intros s m rest H; simpl in H.
  - injection H as <- <-. split; [reflexivity | constructor].
  - destruct s as [|c s]; [discriminate|].
    destruct (ci_match p c) eqn:Hc; [|discriminate].
    destruct (literal_ci lit s) as [[m' rest']|] eqn:Hl; [|discriminate].
    injection H as <- <-.
    destruct (IH _ _ _ Hl) as (-> & Hm).
    split; [reflexivity | constructor; assumption].
Qed.

Lemma uni_ext_alternatives_spec (alts : list str) (s m : str) :
  ext_alternatives alts s = Some m ->
  exists rest e, s = m ++ rest /\ at_end rest = true /\ In e alts /\ ci_equal e m.
Proof.
  induction alts as [|e alts IH]; intros H; simpl in H; [discriminate|].
  destruct (literal_ci e s) as [[m' rest]|] eqn:Hl.
  - destruct (at_end rest) eqn:He.
    + injection H as <-. apply uni_literal_ci_spec in Hl as (-> & Hm).
      exists rest, e. simpl. auto.
    + destruct (IH H) as (r & e' & ? & ? & ? & ?). exists r, e'. simpl. auto.
  - destruct (IH H) as (r & e' & ? & ? & ? & ?). exists r, e'. simpl. auto.
Qed.

Lemma uni_dot_ext_spec (s raw : str) :
  dot_ext s = Some raw ->
  exists rest e,
    s = 46 :: raw ++ rest /\ at_end rest = true /\ In e EXTS /\ ci_equal e raw.
Proof.
  unfold dot_ext, ext_at_end. destruct s as [|c s]; [discriminate|].
  destruct (is_dot c) eqn:Hc; [|discriminate].
  intros H. apply uni_ext_alternatives_spec in H as (rest & e & -> & He & Hin & Hm).
  unfold is_dot in Hc. apply Z.eqb_eq in Hc. subst c. eauto 10.
Qed.

Lemma uni_lazy_prefix_spec (tail : str -> option (str * str)) (s : str) (g : groups) :
  lazy_prefix tail s = Some g ->
  exists rest,
    s = g_prefix g ++ rest /\ tail rest = Some (g_index g, g_ext g)
    /\ forallb (fun c => negb (is_newline c)) (g_prefix g) = true.
Proof.
  revert g. induction s as [|c s IH]; intros g H; simpl in H.
  - destruct (tail []) as [[i e]|] eqn:Ht; [|discriminate].
    injection H as <-. exists []. auto.
  - destruct (tail (c :: s)) as [[i e]|] eqn:Ht.
    + injection H as <-. exists (c :: s). auto.
    + destruct (is_newline c) eqn:Hc; [discriminate|].
      destruct (lazy_prefix tail s) as [g'|] eqn:Hl; [|discriminate].
      injection H as <-. destruct (IH _ eq_refl) as (rest & -> & Hr & Hn).
      exists rest. simpl. rewrite Hc, Hn. auto.
Qed.

Lemma zero_padded_length (w : nat) (n : Z) : length (zero_padded w n) = w.
Proof.
  revert n. induction w as [|w IH]; intros n; simpl; [reflexivity|].
  rewrite length_app, IH. simpl. lia.
Qed.

Lemma zero_padded_ascii (w : nat) (n : Z) :
  forallb is_ascii_digit (zero_padded w n) = true.
Proof.
  revert n. induction w as [|w IH]; intros n; simpl; [reflexivity|].
  rewrite forallb_app, IH. simpl. unfold is_ascii_digit.
  pose proof (Z.mod_pos_bound n 10 ltac:(lia)). lia.
Qed.

Section WithUnicode.
Context (u : unicode).

Lemma uni_take_digits_spec (n : nat) (s d rest : str) :
  take_digits u n s = Some (d, rest) ->
  s = d ++ rest /\ length d = n /\ forallb (is_digit u) d = true.
Proof.
  revert s d rest. induction n as [|n IH]; intros s d rest H; simpl in H.
  - injection H as <- <-. auto.
  - destruct s as [|c s]; [discriminate|].
    destruct (is_digit u c) eqn:Hc; [|discriminate].
    destruct (take_digits u n s) as [[d' rest']|] eqn:Ht; [|discriminate].
    injection H as <- <-.
    destruct (IH _ _ _ Ht) as (-> & <- & Hd).
    simpl. rewrite Hc, Hd. auto.
Qed.

Lemma uni_index_counts_spec (counts : list nat) (s d raw : str) :
  index_counts u counts s = Some (d, raw) ->
  exists rest e,
    s = d ++ 46 :: raw ++ rest /\ In (length d) counts
    /\ forallb (is_digit u) d = true /\ at_end rest = true
    /\ In e EXTS /\ ci_equal e raw.
Proof.
  induction counts as [|n counts IH]; intros H; simpl in H; [discriminate|].
  destruct (take_digits u n s) as [[d' r]|] eqn:Ht.
  - destruct (dot_ext r) as [e'|] eqn:Hd.
    + injection H as <- <-.
      apply uni_take_digits_spec in Ht as (-> & <- & Hdig).
      apply uni_dot_ext_spec in Hd as (rest & e & -> & He & Hin & Hm).
      exists rest, e. simpl. auto 10.
    + destruct (IH H) as (rest & e & ? & ? & ?). exists rest, e. simpl. auto.
  - destruct (IH H) as (rest & e & ? & ? & ?). exists rest, e. simpl. auto.
Qed.

Lemma int_loop_digits (s : str) (acc : Z) :
  forallb (is_digit u) s = true -> exists n, int_loop u acc s = Some n.
Proof.
  revert acc. induction s as [|c s IH]; intros acc H; simpl; [eauto|].
  simpl in H. apply andb_prop in H as [Hc Hs]. unfold is_digit in Hc.
  destruct (decimal u c) as [v|]; [|discriminate]. apply IH, Hs.
Qed.

Lemma uni_int_digits (s : str) :
  forallb (is_digit u) s = true -> s <> [] -> exists n, int u s = Some n.
Proof.
  intros H Hne. destruct s as [|c s]; [congruence|].
  unfold int. now apply int_loop_digits.
Qed.

Lemma uni_pattern_sep_spec (f : str) (g : groups) :
  pattern_sep u f = Some g ->
  exists sep tail,
    matched u f (g_prefix g) sep (g_index g) (g_ext g) tail
    /\ (sep = [46] \/ sep = [95] \/ sep = [45]).
Proof.
  intros H. apply uni_lazy_prefix_spec in H as (rest & -> & Ht & Hn).
  unfold sep_index_ext in Ht. destruct rest as [|c rest]; [discriminate|].
  destruct (is_sep c) eqn:Hc; [|discriminate].
  apply uni_index_counts_spec in Ht as (tail & e & -> & Hl & Hd & He & Hin & Hm).
  apply uni_is_sep_cases in Hc.
  exists [c], tail. split.
  - unfold matched. simpl in Hl. split_and!; eauto; lia.
  - destruct Hc as [-> | [-> | ->]]; auto.
Qed.

Lemma uni_pattern_plain_spec (f : str) (g : groups) :
  pattern_plain u f = Some g ->
  exists tail, matched u f (g_prefix g) [] (g_index g) (g_ext g) tail.
Proof.
  intros H. apply uni_lazy_prefix_spec in H as (rest & -> & Ht & Hn).
  apply uni_index_counts_spec in Ht as (tail & e & -> & Hl & Hd & He & Hin & Hm).
  exists tail. unfold matched. simpl in Hl. split_and!; eauto; lia.
Qed.

(** Every classified name is split as the pattern says, and the reported
    key, index and width are read off the split. *)
Lemma uni_classify_spec (f : str) (k : str * str) (x : frame) :
  classify u f = Some (k, x) ->
  exists sep idx_str raw tail,
    matched u f (fst k) sep idx_str raw tail
    /\ (sep = [] \/ sep = [46] \/ sep = [95] \/ sep = [45])
    /\ snd k = lower u raw
    /\ int u idx_str = Some (f_idx x)
    /\ f_name x = f /\ f_width x = length idx_str.
Proof.
  unfold classify, SEQ_PATTERNS. simpl.
  destruct (pattern_sep u f) as [g|] eqn:H1.
  - destruct (uni_pattern_sep_spec _ _ H1) as (sep & tail & Hdec & Hsep).
    destruct (uni_int_digits (g_index g)) as [n Hn].
    { apply Hdec. }
    { destruct Hdec as (_ & _ & _ & Hl & _). intros E. rewrite E in Hl. simpl in Hl. lia. }
    rewrite Hn. intros H. injection H as <- <-.
    exists sep, (g_index g), (g_ext g), tail. simpl. intuition.
  - destruct (pattern_plain u f) as [g|] eqn:H2; [|discriminate].
    destruct (uni_pattern_plain_spec _ _ H2) as (tail & Hdec).
    destruct (uni_int_digits (g_index g)) as [n Hn].
    { apply Hdec. }
    { destruct Hdec as (_ & _ & _ & Hl & _). intros E. rewrite E in Hl. simpl in Hl. lia. }
    rewrite Hn. intros H. injection H as <- <-.
    exists [], (g_index g), (g_ext g), tail. simpl. intuition.
Qed.

Lemma int_loop_snoc (s : str) (c acc : Z) :
  int_loop u acc (s ++ [c])
  = match int_loop u acc s with
    | Some a => match decimal u c with Some v => Some (10 * a + v) | None => None end
    | None => None
    end.
Proof.
  revert acc. induction s as [|d s IH]; intros acc; simpl; [reflexivity|].
  destruct (decimal u d) as [v|]; [apply IH | reflexivity].
Qed.

(** Written in the digits [0] to [9], an index is read by [int] as the
    number whose zero-padded rendering it is. *)
Lemma zero_padded_int_loop (s : str) :
  latin1 u -> forallb is_ascii_digit s = true ->
  forall n, int_loop u 0 s = Some n -> zero_padded (length s) n = s.
Proof.
  intros (Hdec & _ & _). induction s as [|c s IH] using rev_ind; intros H n Hn.
  - reflexivity.
  - rewrite forallb_app in H. apply andb_prop in H as [Hs Hc]. simpl in Hc.
    rewrite andb_true_r in Hc. unfold is_ascii_digit in Hc.
    rewrite int_loop_snoc in Hn.
    destruct (int_loop u 0 s) as [a|] eqn:Ha; [|discriminate].
    rewrite Hdec in Hn by lia.
    replace ((48 <=? c) && (c <=? 57)) with true in Hn by (symmetry; lia).
    injection Hn as <-.
    rewrite length_app. simpl length. rewrite Nat.add_1_r. simpl zero_padded.
    replace (10 * a + (c - 48)) with ((c - 48) + a * 10) by ring.
    rewrite Z.div_add, Z.mod_add by lia.
    rewrite Z.div_small, Z.mod_small by lia. rewrite Z.add_0_l.
    rewrite (IH Hs a eq_refl). f_equal. f_equal. lia.
Qed.

(** What [int] reads from decimal digits has no more digits than they. *)
Lemma int_loop_bound (s : str) :
  latin1 u ->
  forall acc n,
    0 <= acc -> int_loop u acc s = Some n ->
    acc * 10 ^ Z.of_nat (length s) <= n < (acc + 1) * 10 ^ Z.of_nat (length s).
Proof.
  intros (_ & Hval & _). induction s as [|c s IH]; intros acc n Hacc H.
  - simpl in H. injection H as <-. simpl. lia.
  - simpl in H. destruct (decimal u c) as [v|] eqn:Hc; [|discriminate].
    apply Hval in Hc. apply IH in H; [|lia].
    simpl length. rewrite Nat2Z.inj_succ, Z.pow_succ_r by lia.
    pose proof (Z.pow_pos_nonneg 10 (Z.of_nat (length s)) ltac:(lia) ltac:(lia)). nia.
Qed.

(** The zero-padded rendering of a number that fits is read back by
    [int_loop]. *)
Lemma int_loop_zero_padded (w : nat) :
  latin1 u ->
  forall n, 0 <= n < 10 ^ Z.of_nat w -> int_loop u 0 (zero_padded w n) = Some n.
Proof.
  intros (Hdec & _ & _). induction w as [|w IH]; intros n Hn.
  - simpl in *. f_equal. lia.
  - rewrite Nat2Z.inj_succ, Z.pow_succ_r in Hn by lia.
    simpl zero_padded. rewrite int_loop_snoc, IH.
    + pose proof (Z.mod_pos_bound n 10 ltac:(lia)) as Hm.
      rewrite Hdec by lia.
      replace ((48 <=? 48 + n mod 10) && (48 + n mod 10 <=? 57)) with true
        by (symmetry; lia).
      f_equal. pose proof (Z.div_mod n 10 ltac:(lia)). lia.
    + split; [apply Z.div_pos; lia | apply Z.div_lt_upper_bound; lia].
Qed.

(** Parsing, writing the index on its width and parsing again gives the
    same number. *)
Lemma int_zero_padded (s : str) (n : Z) :
  latin1 u -> s <> [] -> int u s = Some n ->
  int u (zero_padded (length s) n) = Some n.
Proof.
  intros Hu Hs Hn.
  assert (int_loop u 0 s = Some n) as Hl by (destruct s; [congruence | exact Hn]).
  pose proof (int_loop_bound s Hu 0 n ltac:(lia) Hl) as Hb.
  assert (int_loop u 0 (zero_padded (length s) n) = Some n) as Hz
      by (apply int_loop_zero_padded; [exact Hu | lia]).
  destruct s as [|c s]; [congruence|].
  simpl length in *. simpl zero_padded in *.
  destruct (zero_padded (length s) (n / 10) ++ [48 + n mod 10]) eqn:E; [|exact Hz].
  now apply app_eq_nil in E as [_ E].
Qed.

Lemma zero_padded_iff (s : str) (n : Z) :
  latin1 u -> int u s = Some n ->
  zero_padded (length s) n = s <-> forallb is_ascii_digit s = true.
Proof.
  intros Hu Hn. split.
  - intros <-. apply zero_padded_ascii.
  - intros Hs. apply zero_padded_int_loop; auto.
    destruct s; [discriminate | exact Hn].
Qed.

(** *** Names over the code points below 256: [Pattern] is this matcher *)

Lemma codes_app (a b : string) : codes (a +:+ b) = codes a ++ codes b.
Proof.
  induction a as [|c a IH]; [reflexivity|].
  rewrite StrFacts.append_cons. simpl. now rewrite IH.
Qed.

Lemma codes_length (s : string) : length (codes s) = String.length s.
Proof. induction s as [|c s IH]; simpl; [reflexivity | now rewrite IH]. Qed.

Lemma code_eqb (a b : ascii) : Ascii.eqb a b = (Str.code a =? Str.code b).
Proof.
  destruct (Ascii.eqb_spec a b) as [-> | Hne].
  - now rewrite Z.eqb_refl.
  - symmetry. apply Z.eqb_neq. intros E. apply Hne.
    rewrite (PatternFacts.code_inj a _ E). symmetry. now apply PatternFacts.code_inj.
Qed.

Lemma code_lower_char (c : ascii) :
  Str.code (Str.lower_char c)
  = if ((65 <=? Str.code c) && (Str.code c <=? 90))
       || ((192 <=? Str.code c) && (Str.code c <=? 222) && negb (Str.code c =? 215))
    then Str.code c + 32 else Str.code c.
Proof.
  unfold Str.lower_char. cbv zeta.
  pose proof (StrFacts.code_range c) as Hc.
  destruct (_ || _) eqn:E; [|reflexivity].
  unfold Str.code at 1. rewrite N_ascii_embedding by lia. lia.
Qed.

Section Latin1.
Context (Hu : latin1 u).

Lemma is_digit_code (c : ascii) : is_digit u (Str.code c) = Str.is_digit c.
Proof.
  destruct Hu as (Hdec & _ & _). unfold is_digit, Str.is_digit.
  rewrite Hdec by apply StrFacts.code_range.
  now destruct (_ && _).
Qed.

Lemma decimal_code (c : ascii) :
  decimal u (Str.code c) = if Str.is_digit c then Some (Str.digit_value c) else None.
Proof.
  destruct Hu as (Hdec & _ & _). rewrite Hdec by apply StrFacts.code_range. reflexivity.
Qed.

Lemma int_loop_codes (s : string) (acc : Z) :
  int_loop u acc (codes s) = Str.int_loop acc s.
Proof.
  revert acc. induction s as [|c s IH]; intros acc; simpl; [reflexivity|].
  rewrite decimal_code. destruct (Str.is_digit c); [apply IH | reflexivity].
Qed.

Lemma int_codes (s : string) : int u (codes s) = Str.int s.
Proof. destruct s as [|c s]; [reflexivity|]. apply (int_loop_codes (String c s)). Qed.

Lemma known_codes (s : string) : Forall known (codes s).
Proof.
  induction s as [|c s IH]; simpl; constructor; [|exact IH].
  left. apply StrFacts.code_range.
Qed.

Lemma lower_char_code (c : ascii) : lower_char (Str.code c) = [Str.code (Str.lower_char c)].
Proof.
  rewrite code_lower_char. unfold lower_char.
  pose proof (StrFacts.code_range c) as Hc.
  destruct (_ || _); [reflexivity|].
  replace (Str.code c =? 304) with false by (symmetry; lia). reflexivity.
Qed.

Lemma lower_codes (s : string) : lower u (codes s) = codes (Str.lower s).
Proof.
  destruct Hu as (_ & _ & Hlow).
  destruct (Hlow [] (codes s) (known_codes s)) as (a' & E & Ha).
  simpl in E. rewrite E, (Ha eq_refl). simpl. clear.
  induction s as [|c s IH]; [reflexivity|].
  simpl. now rewrite lower_char_code, IH.
Qed.

Lemma take_digits_codes (n : nat) (s : string) :
  take_digits u n (codes s)
  = option_map (fun r => (codes (fst r), codes (snd r))) (Pattern.take_digits n s).
Proof.
  revert s. induction n as [|n IH]; intros s; [reflexivity|].
  destruct s as [|c s]; [reflexivity|]. simpl.
  rewrite is_digit_code. destruct (Str.is_digit c); [|reflexivity].
  rewrite IH. now destruct (Pattern.take_digits n s) as [[d r]|].
Qed.

End Latin1.

Lemma ci_match_code (p c : ascii) :
  small p -> ci_match (Str.code p) (Str.code c) = Ascii.eqb (Str.lower_char c) p.
Proof.
  unfold small. intros Hp. rewrite code_eqb, code_lower_char.
  pose proof (StrFacts.code_range c) as Hc. unfold ci_match.
  generalize dependent (Str.code c). generalize dependent (Str.code p).
  intros q Hq n Hn.
  destruct (((65 <=? n) && (n <=? 90))
            || ((192 <=? n) && (n <=? 222) && negb (n =? 215))) eqn:E; lia.
Qed.

Lemma literal_ci_codes (lit s : string) :
  Forall small (list_ascii_of_string lit) ->
  literal_ci (codes lit) (codes s)
  = option_map (fun r => (codes (fst r), codes (snd r))) (Pattern.literal_ci lit s).
Proof.
  revert s. induction lit as [|p lit IH]; intros s Hl; [reflexivity|].
  simpl in Hl. apply List.Forall_cons_iff in Hl as [Hp Hl].
  destruct s as [|c s]; [reflexivity|]. simpl.
  rewrite (ci_match_code p c Hp). destruct (Ascii.eqb _ _); [|reflexivity].
  rewrite (IH s Hl). now destruct (Pattern.literal_ci lit s) as [[m r]|].
Qed.

Lemma at_end_codes (s : string) : at_end (codes s) = Pattern.at_end s.
Proof. destruct s as [|c [|c' s]]; reflexivity. Qed.

Lemma ext_alternatives_codes (alts : list string) (s : string) :
  Forall (fun e => Forall small (list_ascii_of_string e)) alts ->
  ext_alternatives (map codes alts) (codes s)
  = option_map codes (Pattern.ext_alternatives alts s).
Proof.
  induction alts as [|e alts IH]; intros Ha; [reflexivity|].
  apply List.Forall_cons_iff in Ha as [He Ha]. simpl.
  rewrite (literal_ci_codes e s He).
  destruct (Pattern.literal_ci e s) as [[m r]|]; simpl; [|now apply IH].
  rewrite at_end_codes. destruct (Pattern.at_end r); [reflexivity | now apply IH].
Qed.

Lemma EXTS_small : Forall (fun e => Forall small (list_ascii_of_string e)) Pattern.EXTS.
Proof. repeat constructor; unfold small; vm_compute; intuition discriminate. Qed.

Lemma dot_ext_codes (s : string) :
  dot_ext (codes s) = option_map codes (Pattern.dot_ext s).
Proof.
  destruct s as [|c s]; [reflexivity|]. simpl.
  change (is_dot (Str.code c)) with (Pattern.is_dot c).
  destruct (Pattern.is_dot c); [|reflexivity].
  apply ext_alternatives_codes, EXTS_small.
Qed.

Lemma lazy_prefix_codes (utail : str -> option (str * str))
    (tail : string -> option (string * string)) :
  (forall s, utail (codes s)
             = option_map (fun r => (codes (fst r), codes (snd r))) (tail s)) ->
  forall s,
    lazy_prefix utail (codes s)
    = option_map (fun g => Groups (codes (Pattern.g_prefix g)) (codes (Pattern.g_index g))
                                  (codes (Pattern.g_ext g)))
                 (Pattern.lazy_prefix tail s).
Proof.
  intros Ht s. induction s as [|c s IH].
  - pose proof (Ht EmptyString) as H0. simpl in H0 |- *. rewrite H0.
    now destruct (tail EmptyString) as [[i e]|].
  - pose proof (Ht (String c s)) as H1. simpl in H1 |- *. rewrite H1.
    destruct (tail (String c s)) as [[i e]|]; [reflexivity|]. simpl.
    change (is_newline (Str.code c)) with (Pattern.is_newline c).
    destruct (Pattern.is_newline c); [reflexivity|].
    rewrite IH. now destruct (Pattern.lazy_prefix tail s) as [g|].
Qed.

Section Latin1Patterns.
Context (Hu : latin1 u).

Lemma index_counts_codes (counts : list nat) (s : string) :
  index_counts u counts (codes s)
  = option_map (fun r => (codes (fst r), codes (snd r))) (Pattern.index_counts counts s).
Proof.
  induction counts as [|n counts IH]; [reflexivity|]. simpl.
  rewrite (take_digits_codes Hu).
  destruct (Pattern.take_digits n s) as [[d r]|]; simpl; [|exact IH].
  rewrite dot_ext_codes. destruct (Pattern.dot_ext r); [reflexivity | exact IH].
Qed.

Lemma sep_index_ext_codes (s : string) :
  sep_index_ext u (codes s)
  = option_map (fun r => (codes (fst r), codes (snd r))) (Pattern.sep_index_ext s).
Proof.
  destruct s as [|c s]; [reflexivity|]. simpl.
  change (is_sep (Str.code c)) with (Pattern.is_sep c).
  destruct (Pattern.is_sep c); [|reflexivity]. apply index_counts_codes.
Qed.

Lemma pattern_sep_codes (f : string) :
  pattern_sep u (codes f)
  = option_map (fun g => Groups (codes (Pattern.g_prefix g)) (codes (Pattern.g_index g))
                                (codes (Pattern.g_ext g)))
               (Pattern.pattern_sep f).
Proof. apply lazy_prefix_codes, sep_index_ext_codes. Qed.

Lemma pattern_plain_codes (f : string) :
  pattern_plain u (codes f)
  = option_map (fun g => Groups (codes (Pattern.g_prefix g)) (codes (Pattern.g_index g))
                                (codes (Pattern.g_ext g)))
               (Pattern.pattern_plain f).
Proof. apply lazy_prefix_codes. intros s. apply index_counts_codes. Qed.

(** On a name over the code points below 256 the two matchers report the
    same. *)
Lemma classify_codes (f : string) :
  classify u (codes f) = option_map report (Pattern.classify f).
Proof.
  unfold classify, Pattern.classify, SEQ_PATTERNS, Pattern.SEQ_PATTERNS.
  cbn [classify_with Pattern.classify_with].
  rewrite pattern_sep_codes, pattern_plain_codes.
  pose proof (lower_codes Hu) as Hlow.
  destruct (Pattern.pattern_sep f) as [g|]; cbn [option_map g_prefix g_index g_ext].
  - rewrite (int_codes Hu). destruct (Str.int (Pattern.g_index g)).
    + unfold report. cbn. now rewrite Hlow, codes_length.
    + destruct (Pattern.pattern_plain f) as [g'|];
        cbn [option_map g_prefix g_index g_ext]; [|reflexivity].
      rewrite (int_codes Hu). destruct (Str.int (Pattern.g_index g')); [|reflexivity].
      unfold report. cbn. now rewrite Hlow, codes_length.
  - destruct (Pattern.pattern_plain f) as [g'|];
      cbn [option_map g_prefix g_index g_ext]; [|reflexivity].
    rewrite (int_codes Hu). destruct (Str.int (Pattern.g_index g')); [|reflexivity].
    unfold report. cbn. now rewrite Hlow, codes_length.
Qed.

End Latin1Patterns.

(** *** Names of the form the patterns look for are matched *)

Lemma lazy_prefix_complete (tail : str -> option (str * str)) (a b : str)
    (r : str * str) :
  no_newline a = true -> tail b = Some r ->
  exists g, lazy_prefix tail (a ++ b) = Some g.
Proof.
  intros Ha Hb. induction a as [|c a IH].
  - simpl. destruct b as [|c b]; simpl; rewrite Hb; destruct r; eauto.
  - simpl in Ha. apply andb_prop in Ha as [Hc Ha].
    simpl. destruct (tail (c :: a ++ b)) as [[i e]|]; [eauto|].
    apply negb_true_iff in Hc. rewrite Hc.
    destruct (IH Ha) as (g & ->). eauto.
Qed.

Lemma take_digits_exact (i rest : str) :
  forallb (is_digit u) i = true -> take_digits u (length i) (i ++ rest) = Some (i, rest).
Proof.
  induction i as [|c i IH]; intros H; [reflexivity|].
  simpl in H. apply andb_prop in H as [Hc Hi].
  simpl. now rewrite Hc, (IH Hi).
Qed.

Lemma literal_ci_complete (e raw rest : str) :
  ci_equal e raw -> literal_ci e (raw ++ rest) = Some (raw, rest).
Proof.
  intros H. induction H as [|p c e raw Hc _ IH]; [reflexivity|].
  simpl. now rewrite Hc, IH.
Qed.

Lemma ext_alternatives_complete (alts : list str) (e s m rest : str) :
  In e alts -> literal_ci e s = Some (m, rest) -> at_end rest = true ->
  exists m', ext_alternatives alts s = Some m'.
Proof.
  induction alts as [|e' alts IH]; intros Hin Hl He; [contradiction|].
  simpl. destruct (literal_ci e' s) as [[m1 r1]|] eqn:H1.
  - destruct (at_end r1) eqn:Hr1; [eauto|].
    destruct Hin as [-> | Hin]; [|now apply IH].
    rewrite Hl in H1. injection H1 as <- <-. congruence.
  - destruct Hin as [-> | Hin]; [congruence | now apply IH].
Qed.

Lemma index_counts_complete (counts : list nat) (s d rest e : str) (n : nat) :
  In n counts -> take_digits u n s = Some (d, rest) -> dot_ext rest = Some e ->
  exists r, index_counts u counts s = Some r.
Proof.
  induction counts as [|n' counts IH]; intros Hin Ht Hd; [contradiction|].
  simpl. destruct (take_digits u n' s) as [[d1 r1]|] eqn:H1.
  - destruct (dot_ext r1) as [e1|] eqn:H2; [eauto|].
    destruct Hin as [-> | Hin]; [|now apply IH].
    rewrite Ht in H1. injection H1 as <- <-. congruence.
  - destruct Hin as [-> | Hin]; [congruence | now apply IH].
Qed.

Lemma index_ext_complete (i raw tail e : str) :
  forallb (is_digit u) i = true -> (3 <= length i <= 6)%nat ->
  In e EXTS -> ci_equal e raw -> at_end tail = true ->
  exists r, index_ext u (i ++ 46 :: raw ++ tail) = Some r.
Proof.
  intros Hi Hl He Hraw Htail.
  destruct (ext_alternatives_complete EXTS e (raw ++ tail) raw tail
              He (literal_ci_complete e raw tail Hraw) Htail) as (m & Hm).
  apply (index_counts_complete _ _ i (46 :: raw ++ tail) m (length i)).
  - simpl. lia.
  - now apply take_digits_exact.
  - exact Hm.
Qed.

Lemma pattern_match_classifies (f : str) (g : groups) :
  pattern_plain u f = Some g -> exists r, classify u f = Some r.
Proof.
  intros H. unfold classify, SEQ_PATTERNS. cbn [classify_with].
  destruct (pattern_sep u f) as [g1|] eqn:H1.
  - destruct (uni_pattern_sep_spec _ _ H1) as (sep & tail & (_ & _ & Hd & Hl & _) & _).
    destruct (uni_int_digits (g_index g1) Hd) as [n ->]; [|eauto].
    intros E. rewrite E in Hl. simpl in Hl. lia.
  - rewrite H.
    destruct (uni_pattern_plain_spec _ _ H) as (tail & (_ & _ & Hd & Hl & _)).
    destruct (uni_int_digits (g_index g) Hd) as [n ->]; [|eauto].
    intros E. rewrite E in Hl. simpl in Hl. lia.
Qed.

Lemma no_newline_app (a b : str) : no_newline (a ++ b) = no_newline a && no_newline b.
Proof. apply forallb_app. Qed.

End WithUnicode.

Lemma sample_latin1 : latin1 sample.
Proof.
  split_and!.
  - intros c Hc. cbn [decimal sample].
    destruct ((48 <=? c) && (c <=? 57)); [reflexivity|].
    replace ((1632 <=? c) && (c <=? 1641)) with false by (symmetry; lia). reflexivity.
  - intros c v. cbn [decimal sample].
    destruct ((48 <=? c) && (c <=? 57)) eqn:E1;
      [|destruct ((1632 <=? c) && (c <=? 1641)) eqn:E2];
      intros H; [injection H as <-; lia | injection H as <-; lia | discriminate].
  - intros a b _. exists (flat_map lower_char a). cbn [lower sample].
    split; [apply flat_map_app | now intros ->].
Qed.

(** C1, as amended.  Every name that a pattern matches, whatever its
    characters, is [prefix ++ sep ++ index ++ "." ++ ext ++ tail] with [sep]
    empty or one of [.], [_], [-] (the separator is not part of the prefix),
    the index made of 3 to 6 decimal digits, the extension one of the six
    but for the case of its letters, and [tail] empty or a final newline.
    The reported index is [int] of the index text and the reported width is
    its length; the reported index written zero-padded on that width is
    read by [int] as the same index, and it is the index text itself
    exactly when the index text is written in the digits [0] to [9] ([\d]
    and [int] take the decimal digits of every script).  [shot_0007.png]
    reports prefix [shot], index 7 and width 4. *)
Theorem matched_name_round_trip :
  forall u : unicode,
    latin1 u ->
    (forall (f pre ext : str) (x : frame),
        classify u f = Some ((pre, ext), x) ->
        exists sep idx_str raw tail,
          f = pre ++ sep ++ idx_str ++ 46 :: raw ++ tail
          /\ (sep = [] \/ sep = [46] \/ sep = [95] \/ sep = [45])
          /\ (tail = [] \/ tail = [10])
          /\ ext = lower u raw
          /\ (exists e, In e EXTS /\ ci_equal e raw)
          /\ forallb (is_digit u) idx_str = true
          /\ f_name x = f
          /\ f_width x = length idx_str
          /\ (3 <= f_width x <= 6)%nat
          /\ int u idx_str = Some (f_idx x)
          /\ int u (zero_padded (f_width x) (f_idx x)) = Some (f_idx x)
          /\ (zero_padded (f_width x) (f_idx x) = idx_str
              <-> forallb is_ascii_digit idx_str = true))
    /\ classify u (codes "shot_0007.png")
       = Some ((codes "shot", codes "png"), Frame 7 (codes "shot_0007.png") 4).
Proof.
  intros u Hu. split.
  - intros f pre ext x H.
    apply uni_classify_spec in H as (sep & i & raw & tail & Hm & Hsep & Hext & Hint & Hn & Hw).
    destruct Hm as (Hf & _ & Hd & Hl & He & Ht). simpl in Hext.
    exists sep, i, raw, tail. rewrite Hw.
    split_and!; auto; try lia.
    + now apply at_end_cases.
    + apply (int_zero_padded u); auto. intros E. rewrite E in Hl. simpl in Hl. lia.
    + now apply (zero_padded_iff u).
  - rewrite (classify_codes u Hu). reflexivity.
Qed.

(** The round trip at [shot_] with the index 007 in Arabic-Indic digits. *)
Lemma matched_name_round_trip_witness :
  exists sep idx_str raw tail,
    shot_arabic = codes "shot" ++ sep ++ idx_str ++ 46 :: raw ++ tail
    /\ int sample idx_str = Some 7
    /\ (zero_padded 3 7 = idx_str <-> forallb is_ascii_digit idx_str = true).
Proof.
  destruct (proj1 (matched_name_round_trip sample sample_latin1)
              shot_arabic (codes "shot") (codes "png") (Frame 7 shot_arabic 3))
    as (sep & i & raw & tail & Hf & _ & _ & _ & _ & _ & _ & _ & _ & Hi & _ & Hz).
  - vm_compute. reflexivity.
  - exists sep, i, raw, tail. auto.
Defined.

(** C1 as stated fails: the prefix reported for [shot_0007.png] is not
    [shot_]; and a name with its index in Arabic-Indic digits is matched,
    with index 7 and width 3, though 7 on three digits is [007] and not its
    index text. *)
Lemma reported_prefix_is_not_shot_ :
  (~ exists x, classify sample (codes "shot_0007.png")
               = Some ((codes "shot_", codes "png"), x))
  /\ classify sample shot_arabic
     = Some ((codes "shot", codes "png"), Frame 7 shot_arabic 3)
  /\ zero_padded 3 7 = codes "007"
  /\ zero_padded 3 7 <> [1632; 1632; 1639].
Proof.
  split_and!.
  - intros [x H]. vm_compute in H. discriminate.
  - vm_compute. reflexivity.
  - reflexivity.
  - discriminate.
Qed.

(** X1.  The matching loop accepts exactly the names of the form the
    patterns look for, whatever their characters: a name is classified as a
    frame if and only if it is some text without a newline, followed by 3 to
    6 decimal digits, a dot and one of the six extensions but for the case
    of its letters (U+0130 and U+0131 count as [i]), with at most a final
    newline after it. *)
Theorem classify_iff_well_formed :
  forall (u : unicode) (f : str), (exists r, classify u f = Some r) <-> well_formed u f.
Proof.
  intros u f. split.
  - intros [[k x] H].
    apply uni_classify_spec in H as (sep & i & raw & tail & Hm & Hsep & _).
    destruct Hm as (Hf & Hnl & Hd & Hl & He & Ht).
    exists (fst k ++ sep), i, raw, tail. unfold matched.
    rewrite Hf, <- !app_assoc. simpl. split_and!; auto; try lia.
    rewrite no_newline_app, Hnl.
    destruct Hsep as [-> | [-> | [-> | ->]]]; reflexivity.
  - intros (pre & i & raw & tail & Hf & Hpre & Hi & Hl & (e & He & Hraw) & Htail).
    simpl in Hf. subst f.
    destruct (index_ext_complete u i raw tail e Hi Hl He Hraw Htail) as (r & Hr).
    destruct (lazy_prefix_complete (index_ext u) pre _ r Hpre Hr) as (g & Hg).
    now apply (pattern_match_classifies u _ g).
Qed.

(** X1 at [a_001.t], U+0131, [f]: the name is matched. *)
Lemma classify_iff_well_formed_witness : exists r, classify sample dotless_tif = Some r.
Proof.
  apply (proj2 (classify_iff_well_formed sample dotless_tif)).
  exists (codes "a_"), (codes "001"), (codes "t" ++ [305] ++ codes "f"), [].
  unfold matched. split_and!; try reflexivity; try (simpl; lia).
  exists (codes "tif"). split; [simpl; auto 10 | repeat constructor].
Defined.

(** *** The extension filter of line 40 against the patterns *)

Lemma endswith_unfold (s suf : str) :
  endswith s suf
  = if bool_decide (s = suf) then true
    else match s with
         | [] => false
         | _ :: s' => endswith s' suf
         end.
Proof. destruct s; reflexivity. Qed.

Lemma endswith_intro (pre suf : str) : endswith (pre ++ suf) suf = true.
Proof.
  induction pre as [|c pre IH].
  - simpl. rewrite endswith_unfold. now case_bool_decide.
  - simpl app. rewrite endswith_unfold, IH. now case_bool_decide.
Qed.

Lemma endswith_elim (s suf : str) :
  endswith s suf = true -> exists pre, s = pre ++ suf.
Proof.
  induction s as [|c s IH]; rewrite endswith_unfold; case_bool_decide as He.
  - subst suf. now exists [].
  - discriminate.
  - subst suf. now exists [].
  - intros H. destruct (IH H) as (pre & ->). now exists (c :: pre).
Qed.

Lemma snoc_eq_app (q a r : str) (c : Z) : q ++ [c] = a ++ r -> r <> [] -> In c r.
Proof.
  intros E Hr. apply (f_equal last) in E. rewrite last_snoc, last_app in E.
  destruct (last r) as [z|] eqn:Hz.
  - injection E as <-. now apply last_Some_elem_of, list_elem_of_In in Hz.
  - now apply last_None in Hz.
Qed.

(** Two splits of one text at a dot, with no dot after it, are the same. *)
Lemma last_dot_split (a p r e : str) :
  a ++ 46 :: r = p ++ 46 :: e -> ~ In 46 r -> ~ In 46 e -> r = e.
Proof.
  revert p. induction a as [|c a IH]; intros [|c' p] H Hr He; simpl in H.
  - now injection H.
  - injection H as <- ->. exfalso. apply Hr, in_or_app. right. now left.
  - injection H as -> <-. exfalso. apply He, in_or_app. right. now left.
  - injection H as _ H. now apply (IH p).
Qed.

Lemma EXTS_letters (e : str) : In e EXTS -> Forall (fun p => 97 <= p <= 122) e.
Proof.
  simpl. intros [<- | [<- | [<- | [<- | [<- | [<- | []]]]]]];
    repeat constructor; vm_compute; discriminate.
Qed.

Lemma SUPPORTED_EXTS_dot (e : str) : In e EXTS <-> In (46 :: e) SUPPORTED_EXTS.
Proof.
  simpl. split.
  - intros [<- | [<- | [<- | [<- | [<- | [<- | []]]]]]]; auto 10.
  - intros [E | [E | [E | [E | [E | [E | []]]]]]]; injection E as <-; auto 10.
Qed.

Lemma SUPPORTED_EXTS_shape (s : str) :
  In s SUPPORTED_EXTS -> exists e, s = 46 :: e /\ In e EXTS.
Proof.
  simpl. intros [<- | [<- | [<- | [<- | [<- | [<- | []]]]]]];
    eexists; (split; [reflexivity | simpl; auto 10]).
Qed.

(** The text an extension matches: its letters in either case, or U+0130
    or U+0131 for an [i]; in small letters it is the extension again when
    it holds neither of these two. *)
Lemma ci_equal_lower (e raw : str) :
  Forall (fun p => 97 <= p <= 122) e -> ci_equal e raw ->
  Forall known raw
  /\ ~ In 46 (flat_map lower_char raw)
  /\ ~ In 10 raw.
Proof.
  intros He H. induction H as [|p c e raw Hc _ IH].
  - split_and!; [constructor | intros [] | intros []].
  - apply List.Forall_cons_iff in He as [Hp He].
    destruct (IH He) as (Hk & Hd & Hn). unfold ci_match in Hc.
    assert (c = p \/ c = p - 32 \/ c = 304 \/ c = 305) as Hcases by lia.
    split_and!.
    + constructor; [unfold known; lia | exact Hk].
    + simpl. intros Hin. apply in_app_or in Hin as [Hin | Hin]; [|now apply Hd].
      unfold lower_char in Hin.
      destruct (_ || _) eqn:E in Hin.
      * simpl in Hin. lia.
      * destruct (c =? 304) eqn:E'; simpl in Hin; lia.
    + simpl. intros [E | Hin]; [lia | now apply Hn].
Qed.

(** X2.  For a name that the patterns match, whatever its characters, the
    extension filter [f.lower().endswith(SUPPORTED_EXTS)] keeps it exactly
    when it does not end in a newline and the reported extension is one of
    the six: the regular expressions' [$] accepts a final newline, and
    [re.IGNORECASE] accepts U+0130 and U+0131 for [i], which [str.lower]
    does not turn into [i]; otherwise the filter removes nothing that the
    patterns would match. *)
Theorem filter_keeps_matched_names :
  forall u : unicode,
    latin1 u ->
    forall (f pre ext : str) (x : frame),
      classify u f = Some ((pre, ext), x) ->
      candidate u f = true <-> endswith f [10] = false /\ In ext EXTS.
Proof.
  intros u Hu f pre ext x H.
  apply uni_classify_spec in H as (sep & i & raw & tail & Hm & _ & Hext & _).
  destruct Hm as (Hf & _ & _ & _ & (e & He & Hraw) & Ht). cbn [fst snd] in Hext, Hf.
  destruct (ci_equal_lower e raw (EXTS_letters e He) Hraw) as (Hk & Hdot & Hnl).
  destruct Hu as (_ & _ & Hlow).
  assert (ext = flat_map lower_char raw) as Hext'.
  { destruct (Hlow [] raw Hk) as (a' & E & Ha). simpl in E.
    rewrite Hext, E, (Ha eq_refl). reflexivity. }
  apply at_end_cases in Ht.
  assert (Forall known (46 :: raw ++ tail)) as Hkb.
  { constructor; [unfold known; lia|]. apply Forall_app. split; [exact Hk|].
    destruct Ht as [-> | ->]; repeat constructor. unfold known. lia. }
  destruct (Hlow (pre ++ sep ++ i) (46 :: raw ++ tail) Hkb) as (a' & E & _).
  rewrite <- !app_assoc in E. rewrite <- Hf in E.
  simpl flat_map in E. rewrite flat_map_app, <- Hext' in E.
  change (lower_char 46) with [46] in E. simpl app in E.
  unfold candidate, endswith_any. rewrite E.
  destruct Ht as [-> | ->].
  - simpl flat_map. rewrite app_nil_r in *. split.
    + intros Hc. apply existsb_exists in Hc as (s & Hs & Hend).
      apply SUPPORTED_EXTS_shape in Hs as (e' & -> & He').
      apply endswith_elim in Hend as (p & Hp).
      assert (ext = e') as ->.
      { apply (last_dot_split a' p _ _ Hp); [now rewrite Hext'|].
        intros Hin. pose proof (EXTS_letters e' He') as Hl.
        rewrite List.Forall_forall in Hl. specialize (Hl 46 Hin). lia. }
      split; [|exact He'].
      destruct (endswith f [10]) eqn:Hn; [|reflexivity].
      exfalso. apply endswith_elim in Hn as (q & Hq). rewrite Hq in Hf.
      rewrite !app_assoc in Hf. apply snoc_eq_app in Hf; [|discriminate].
      destruct Hf as [Hz | Hz]; [lia | contradiction].
    + intros [_ Hin]. apply existsb_exists. exists (46 :: ext).
      split; [now apply SUPPORTED_EXTS_dot|].
      apply endswith_intro.
  - change (flat_map lower_char [10]) with [10]. split.
    + intros Hc. exfalso. apply existsb_exists in Hc as (s & Hs & Hend).
      apply SUPPORTED_EXTS_shape in Hs as (e' & -> & He').
      apply endswith_elim in Hend as (p & Hp).
      change (46 :: ext ++ [10]) with ((46 :: ext) ++ [10]) in Hp.
      rewrite app_assoc in Hp. apply snoc_eq_app in Hp; [|discriminate].
      pose proof (EXTS_letters e' He') as Hl. rewrite List.Forall_forall in Hl.
      destruct Hp as [Hz | Hz]; [lia | specialize (Hl 10 Hz); lia].
    + intros [Hn _]. exfalso.
      assert (endswith f [10] = true) as Ht; [|congruence].
      rewrite Hf.
      replace (pre ++ sep ++ i ++ 46 :: raw ++ [10])
        with ((pre ++ sep ++ i ++ 46 :: raw) ++ [10])
        by (now rewrite <- !app_assoc).
      apply endswith_intro.
Qed.

(** X2 at [a_001.t], U+0131, [f]: matched by the patterns, dropped by the
    filter. *)
Lemma filter_keeps_matched_names_witness :
  candidate sample dotless_tif = true
  <-> endswith dotless_tif [10] = false /\ In (codes "t" ++ [305] ++ codes "f") EXTS.
Proof.
  apply (filter_keeps_matched_names sample sample_latin1 dotless_tif (codes "a")
           (codes "t" ++ [305] ++ codes "f") (Frame 1 dotless_tif 3)).
  vm_compute. reflexivity.
Defined.

(** *** [Pattern] and the filter of [Discovery] are those of [Uni] *)

Lemma codes_inj (a b : string) : codes a = codes b -> a = b.
Proof.
  revert b. induction a as [|c a IH]; intros [|d b] H; simpl in H;
    try discriminate; [reflexivity|].
  injection H as Hc H. f_equal; [|now apply IH].
  rewrite (PatternFacts.code_inj c _ Hc). symmetry. now apply PatternFacts.code_inj.
Qed.

Lemma endswith_codes (a b : string) : endswith (codes a) (codes b) = Str.endswith a b.
Proof.
  induction a as [|c a IH].
  - rewrite endswith_unfold. destruct b as [|d b]; [reflexivity|].
    cbn [codes]. rewrite bool_decide_eq_false_2 by discriminate. reflexivity.
  - rewrite endswith_unfold. cbn [Str.endswith].
    destruct (String.eqb_spec (String c a) b) as [<- | Hne].
    + now rewrite bool_decide_eq_true_2.
    + rewrite bool_decide_eq_false_2; [exact IH|].
      intros E. apply Hne. now apply codes_inj.
Qed.

Lemma endswith_any_codes (a : string) (l : list string) :
  endswith_any (codes a) (map codes l) = Str.endswith_any a l.
Proof.
  unfold endswith_any, Str.endswith_any.
  induction l as [|b l IH]; [reflexivity|].
  simpl. now rewrite endswith_codes, IH.
Qed.

(** X19.  On every name over the code points below 256 the matcher of
    [Pattern] and the extension filter of [Discovery] are those that
    read any Python string: they report the same prefix, extension, index,
    name and width, and keep the same names, whatever the rest of the
    Unicode database says. *)
Theorem below_256_the_models_agree :
  forall u : unicode,
    latin1 u ->
    forall f : string,
      classify u (codes f) = option_map report (Pattern.classify f)
      /\ candidate u (codes f)
         = Str.endswith_any (Str.lower f) Pattern.SUPPORTED_EXTS.
Proof.
  intros u Hu f. split; [now apply classify_codes|].
  unfold candidate, SUPPORTED_EXTS.
  rewrite (lower_codes u Hu). apply endswith_any_codes.
Qed.

(** X19 at [IMG.2024-0042.JPG]. *)
Lemma below_256_the_models_agree_witness :
  classify sample (codes "IMG.2024-0042.JPG")
  = Some ((codes "IMG.2024", codes "jpg"), Frame 42 (codes "IMG.2024-0042.JPG") 4)
  /\ candidate sample (codes "IMG.2024-0042.JPG") = true.
Proof.
  destruct (below_256_the_models_agree sample sample_latin1 "IMG.2024-0042.JPG")
    as [-> ->].
  split; reflexivity.
Defined.

End UniFacts.

(** ** More on discovery *)

Module DiscoveryMore.
Import StrFacts PatternFacts DiscoveryFacts.

Lemma scan_NoDup (walk : list (string * list string)) :
  List.NoDup (map fst (fold_left scan_dir walk [])).
Proof.
  apply (fold_left_inv (fun a : list (string * SequenceItem) => List.NoDup (map fst a)));
    [constructor|].
  intros a [d fs] _ Ha. unfold scan_dir.
  apply (fold_left_inv (fun a : list (string * SequenceItem) => List.NoDup (map fst a)));
    [exact Ha|].
  intros b [[p e] items] _ Hb. unfold emit_step.
  destruct (3 <=? length (stable_sort idx_leb items))%nat; [|exact Hb].
  now apply dict_set_NoDup.
Qed.

Lemma keys_of_values (sequences : list (string * SequenceItem)) :
  (forall k s, In (k, s) sequences -> key s = k) ->
  map key (dict_values sequences) = map fst sequences.
Proof.
  unfold dict_values. induction sequences as [|[k s] l IH]; intros H; [reflexivity|].
  simpl. rewrite (H k s) by (simpl; auto). f_equal. apply IH.
  intros k' s' Hin. apply H. simpl. auto.
Qed.

(** X3.  No two Sequences returned by discovery have the same key. *)
Theorem sequence_keys_distinct :
  forall walk : list (string * list string),
    List.NoDup (map key (find_sequences_walk walk)).
Proof.
  intros walk. unfold find_sequences_walk.
  eapply Permutation_NoDup.
  - apply Permutation_map, Permutation_sym, stable_sort_perm.
  - rewrite keys_of_values; [apply scan_NoDup|].
    intros k s Hin. now destruct (scan_sound walk k s Hin).
Qed.

Lemma group_member (k : string * string) (l : list string) (x : frame) :
  In x (frames_under k l) -> In (f_name x) l /\ classify (f_name x) = Some (k, x).
Proof.
  unfold frames_under. rewrite in_flat_map. intros (f & Hf & Hx).
  destruct (classify f) as [[k' y]|] eqn:Hc; [|contradiction].
  destruct (decide (k' = k)) as [->|]; [|contradiction].
  destruct Hx as [<- | []]. rewrite (classify_name _ _ _ Hc). auto.
Qed.

Lemma classified_width (f : string) (k : string * string) (x : frame) :
  classify f = Some (k, x) -> (3 <= f_width x <= 6)%nat /\ In (snd k) EXTS.
Proof.
  intros H. apply classify_spec in H as (sep & i & raw & tail & Hdec & _ & -> & ->).
  destruct Hdec as (_ & _ & Hraw & _ & Hl). simpl. auto.
Qed.

(** X4.  Every Sequence returned has the key
    [join(folder, prefix + "[##]." + ext)], a lower-case extension out of
    the six, and [digits] between 3 and 6; [digits] is the width of the
    index in the name of its first frame, whose index is the lowest of the
    Sequence. *)
Theorem sequence_fields :
  forall (walk : list (string * list string)) (s : SequenceItem),
    In s (find_sequences_walk walk) ->
    key s = sequence_key (folder s) (prefix s) (ext s)
    /\ In (ext s) EXTS
    /\ (3 <= digits s <= 6)%nat
    /\ exists x items,
         frames s = map (fun y => path_join (folder s) (f_name y)) (x :: items)
         /\ classify (f_name x) = Some ((prefix s, ext s), x)
         /\ digits s = f_width x
         /\ Forall (fun y => f_idx x <= f_idx y) items.
Proof.
  intros walk s Hs. apply find_sequences_walk_produced in Hs.
  destruct Hs as (d & fs & p & e & Hin & Hlen & ->).
  pose proof (sorted_group_ascending (group fs p e)) as Hsorted.
  pose proof (stable_sort_length idx_leb (group fs p e)) as Hl.
  assert (forall y, In y (stable_sort idx_leb (group fs p e)) ->
                    classify (f_name y) = Some ((p, e), y)) as Hcls.
  { intros y Hy. apply stable_sort_In in Hy. now apply group_member in Hy. }
  destruct (stable_sort idx_leb (group fs p e)) as [|x items]; [simpl in Hl; lia|].
  pose proof (Hcls x (or_introl eq_refl)) as Hx.
  destruct (classified_width _ _ _ Hx) as [Hw He]. simpl in *.
  repeat split; auto; try lia.
  exists x, items. repeat split; auto.
  now inversion Hsorted.
Qed.

(** X4 at the ten [a_] names. *)
Lemma sequence_fields_witness : (3 <= digits ten_a_sequence <= 6)%nat.
Proof.
  apply (sequence_fields [("/root", ten_a)] ten_a_sequence).
  assert (find_sequences_walk [("/root", ten_a)] = [ten_a_sequence]) as ->
      by (vm_compute; reflexivity).
  left. reflexivity.
Defined.

(** X5.  Discovery returns only listed files: every frame of a returned
    Sequence is the join of the Sequence's folder, a directory of the walk,
    with a name from that directory's listing that passes the extension
    filter. *)
Theorem frames_are_listed_files :
  forall (walk : list (string * list string)) (s : SequenceItem),
    In s (find_sequences_walk walk) ->
    exists fs,
      In (folder s, fs) walk
      /\ Forall (fun path => exists f,
                     In f fs /\ endswith_any (lower f) SUPPORTED_EXTS = true
                     /\ path = path_join (folder s) f) (frames s).
Proof.
  intros walk s Hs. apply find_sequences_walk_produced in Hs.
  destruct Hs as (d & fs & p & e & Hin & Hlen & ->). simpl.
  exists fs. split; [exact Hin|].
  rewrite List.Forall_forall. intros path Hp. apply in_map_iff in Hp as (x & <- & Hx).
  apply stable_sort_In, group_member in Hx as [Hx _].
  unfold candidates in Hx. apply filter_In in Hx as [Hx1 Hx2]. eauto.
Qed.

(** X5 at the ten [a_] names. *)
Lemma frames_are_listed_files_witness :
  exists fs, In ("/root", fs) [("/root", ten_a)]
             /\ Forall (fun path => exists f,
                            In f fs /\ endswith_any (lower f) SUPPORTED_EXTS = true
                            /\ path = path_join "/root" f) (frames ten_a_sequence).
Proof.
  apply (frames_are_listed_files [("/root", ten_a)] ten_a_sequence).
  assert (find_sequences_walk [("/root", ten_a)] = [ten_a_sequence]) as ->
      by (vm_compute; reflexivity).
  left. reflexivity.
Defined.

(** *** Ties keep the listing order *)

Lemma insert_sorted_stable (v : Z) (x : frame) (l : list frame) :
  List.filter (fun y => f_idx y =? v) (insert_sorted idx_leb x l)
  = List.filter (fun y => f_idx y =? v) (x :: l).
Proof.
  induction l as [|y l IH]; [reflexivity|].
  simpl insert_sorted. destruct (idx_leb x y) eqn:Hxy; [reflexivity|].
  unfold idx_leb in Hxy. simpl in *. rewrite IH.
  destruct (f_idx x =? v) eqn:Hx; destruct (f_idx y =? v) eqn:Hy; try reflexivity.
  lia.
Qed.

Lemma stable_sort_stable (v : Z) (l : list frame) :
  List.filter (fun y => f_idx y =? v) (stable_sort idx_leb l)
  = List.filter (fun y => f_idx y =? v) l.
Proof.
  induction l as [|x l IH]; [reflexivity|].
  simpl stable_sort. rewrite insert_sorted_stable. simpl. now rewrite IH.
Qed.

(** X6.  The sort of a group is stable: in every returned Sequence, the
    frames that carry the same index stand in the order in which the
    directory listing gave their names. *)
Theorem equal_indices_keep_listing_order :
  forall (walk : list (string * list string)) (s : SequenceItem),
    In s (find_sequences_walk walk) ->
    exists fs items,
      In (folder s, fs) walk
      /\ frames s = map (fun y => path_join (folder s) (f_name y)) items
      /\ Permutation items (group fs (prefix s) (ext s))
      /\ forall v, List.filter (fun y => f_idx y =? v) items
                   = List.filter (fun y => f_idx y =? v) (group fs (prefix s) (ext s)).
Proof.
  intros walk s Hs. apply find_sequences_walk_produced in Hs.
  destruct Hs as (d & fs & p & e & Hin & Hlen & ->). simpl.
  exists fs, (stable_sort idx_leb (group fs p e)).
  split; [exact Hin|]. split; [reflexivity|].
  split; [apply stable_sort_perm | intros v; apply stable_sort_stable].
Qed.

(** X6 at three names of index 1 and one of index 0. *)
Lemma equal_indices_keep_listing_order_witness :
  exists fs items,
    In ("/r", fs) [("/r", ["a_001.png"; "a-001.png"; "a.000.png"; "a.001.png"])]
    /\ ["/r/a.000.png"; "/r/a_001.png"; "/r/a-001.png"; "/r/a.001.png"]
       = map (fun y => path_join "/r" (f_name y)) items
    /\ Permutation items (group fs "a" "png")
    /\ forall v, List.filter (fun y => f_idx y =? v) items
                 = List.filter (fun y => f_idx y =? v) (group fs "a" "png").
Proof.
  apply (equal_indices_keep_listing_order
           [("/r", ["a_001.png"; "a-001.png"; "a.000.png"; "a.001.png"])]
           (make_item "/r" "a" "png"
              [Frame 0 "a.000.png" 3; Frame 1 "a_001.png" 3; Frame 1 "a-001.png" 3;
               Frame 1 "a.001.png" 3])).
  assert (find_sequences_walk
            [("/r", ["a_001.png"; "a-001.png"; "a.000.png"; "a.001.png"])]
          = [make_item "/r" "a" "png"
               [Frame 0 "a.000.png" 3; Frame 1 "a_001.png" 3; Frame 1 "a-001.png" 3;
                Frame 1 "a.001.png" 3]]) as -> by (vm_compute; reflexivity).
  left. reflexivity.
Defined.

(** *** Files and directories that do not count *)

Lemma group_files_skip (l1 l2 : list string) (f : string) :
  classify f = None \/ endswith_any (lower f) SUPPORTED_EXTS = false ->
  group_files (candidates (l1 ++ f :: l2)) = group_files (candidates (l1 ++ l2)).
Proof.
  intros H. unfold group_files, candidates.
  set (keep := fun f0 : string => endswith_any (lower f0) SUPPORTED_EXTS).
  rewrite !List.filter_app, !fold_left_app.
  change (List.filter keep (f :: l2))
    with (if keep f then f :: List.filter keep l2 else List.filter keep l2).
  destruct (keep f) eqn:Hf; [|reflexivity].
  destruct H as [H | H]; [|unfold keep in Hf; congruence].
  change (fold_left group_step (f :: List.filter keep l2) ?a)
    with (fold_left group_step (List.filter keep l2) (group_step a f)).
  unfold group_step at 2. now rewrite H.
Qed.

(** X7.  A file that matches no pattern, or that does not end in one of
    the extensions, changes nothing: discovery returns the same Sequences
    with and without it in a directory's listing. *)
Theorem unmatched_file_is_ignored :
  forall (w1 w2 : list (string * list string)) (d : string) (l1 l2 : list string)
         (f : string),
    classify f = None \/ endswith_any (lower f) SUPPORTED_EXTS = false ->
    find_sequences_walk (w1 ++ (d, l1 ++ f :: l2) :: w2)
    = find_sequences_walk (w1 ++ (d, l1 ++ l2) :: w2).
Proof.
  intros w1 w2 d l1 l2 f H. unfold find_sequences_walk.
  rewrite !fold_left_app. simpl fold_left. unfold scan_dir at 2 4.
  now rewrite (group_files_skip l1 l2 f H).
Qed.

(** X7 at a text file among the ten [a_] names. *)
Lemma unmatched_file_is_ignored_witness :
  find_sequences_walk ([] ++ ("/root", firstn 4 ten_a ++ "notes.txt" :: skipn 4 ten_a) :: [])
  = find_sequences_walk ([] ++ ("/root", firstn 4 ten_a ++ skipn 4 ten_a) :: []).
Proof.
  apply (unmatched_file_is_ignored [] [] "/root" (firstn 4 ten_a) (skipn 4 ten_a)
           "notes.txt").
  left. reflexivity.
Defined.

Lemma scan_dir_nothing (sequences : list (string * SequenceItem)) (d : string)
    (fs : list string) :
  (forall p e, (length (group fs p e) < 3)%nat) -> scan_dir sequences (d, fs) = sequences.
Proof.
  intros Hshort. unfold scan_dir.
  apply (fold_left_inv (fun a => a = sequences)); [reflexivity|].
  intros a [[p e] items] Hin ->. apply group_files_In in Hin as [-> _].
  unfold emit_step. rewrite stable_sort_length.
  destruct (3 <=? length (group fs p e))%nat eqn:Hl; [|reflexivity].
  apply Nat.leb_le in Hl. specialize (Hshort p e). lia.
Qed.

(** X8.  A directory in which no (prefix, extension) group reaches three
    frames, an empty directory among them, contributes nothing: discovery
    returns the same Sequences with and without it in the walk. *)
Theorem directory_without_sequences_is_ignored :
  forall (w1 w2 : list (string * list string)) (d : string) (fs : list string),
    (forall p e, (length (group fs p e) < 3)%nat) ->
    find_sequences_walk (w1 ++ (d, fs) :: w2) = find_sequences_walk (w1 ++ w2).
Proof.
  intros w1 w2 d fs H. unfold find_sequences_walk.
  rewrite !fold_left_app.
  change (fold_left scan_dir ((d, fs) :: w2) ?a)
    with (fold_left scan_dir w2 (scan_dir a (d, fs))).
  now rewrite scan_dir_nothing.
Qed.

(** X8 at an empty directory. *)
Lemma directory_without_sequences_is_ignored_witness :
  find_sequences_walk ([("/root", ten_a)] ++ ("/root/empty", []) :: [])
  = find_sequences_walk ([("/root", ten_a)] ++ []).
Proof.
  apply (directory_without_sequences_is_ignored [("/root", ten_a)] [] "/root/empty" []).
  intros p e. simpl. lia.
Defined.

End DiscoveryMore.

(** ** More on the thumbnail cache *)

Module CacheMore.
Import Cache CacheFacts.

Section WithImage.
Context {image : Type}.

(** X9.  The memory map only grows: through any run of [get] and [put]
    calls, a key that has a photo keeps having one, and the cache's size and
    directory stay what they were. *)
Theorem memory_never_evicts :
  forall (st : ThumbCache image * gmap string (file image)) (calls : list call)
         (k : string * Z * Z),
    is_Some (mem st.1 !! k) ->
    is_Some (mem (run_calls st calls).1 !! k)
    /\ size (run_calls st calls).1 = size st.1
    /\ cache_dir (run_calls st calls).1 = cache_dir st.1.
Proof.
  intros st calls k Hk. split; [now apply run_calls_keeps | apply run_calls_fields].
Qed.

(** X10.  What one session saves, the next one reads: after a [put] whose
    save went through, whatever the disk held before, a new cache made for
    the same root and size on the resulting disk answers [get] with the
    saved image, opening exactly the file of the key and keeping the photo
    in its memory map. *)
Theorem saved_thumbnail_survives_sessions :
  forall (root : string) (sz : Z) (d0 : gmap string (file image)) (calls : list call)
         (path : string) (frame_idx : Z) (im : image),
    let st := run_calls (init root sz, d0) calls in
    let fresh := init (image := image) root sz in
    get fresh (put st.1 st.2 Saved path frame_idx im).2 path frame_idx
    = (Some (PhotoImage im),
       with_mem fresh (<[key fresh path frame_idx := PhotoImage im]> ∅),
       [disk_path fresh path frame_idx]).
Proof.
  intros root sz d0 calls path i im st fresh.
  assert (disk_path st.1 path i = disk_path fresh path i) as Hdp.
  { unfold disk_path, key_text, st.
    destruct (run_calls_fields calls (init root sz, d0)) as [-> ->]. reflexivity. }
  unfold put. cbn [snd]. rewrite Hdp. unfold get.
  change (mem fresh) with (∅ : gmap (string * Z * Z) (photo image)).
  rewrite lookup_empty, lookup_insert_eq. reflexivity.
Qed.

Lemma get_disk_hit (c : ThumbCache image) (disk : gmap string (file image))
    (path : string) (i : Z) (im : image) :
  mem c !! key c path i = None -> disk !! disk_path c path i = Some (Png im) ->
  get c disk path i
  = (Some (PhotoImage im), with_mem c (<[key c path i := PhotoImage im]> (mem c)),
     [disk_path c path i]).
Proof. intros Hm Hd. unfold get. now rewrite Hm, Hd. Qed.

Lemma get_unreadable (c : ThumbCache image) (disk : gmap string (file image))
    (path : string) (i : Z) :
  mem c !! key c path i = None -> disk !! disk_path c path i = Some Unreadable ->
  get c disk path i = (None, c, [disk_path c path i]).
Proof. intros Hm Hd. unfold get. now rewrite Hm, Hd. Qed.

Lemma get_absent (c : ThumbCache image) (disk : gmap string (file image))
    (path : string) (i : Z) :
  mem c !! key c path i = None -> disk !! disk_path c path i = None ->
  get c disk path i = (None, c, []).
Proof. intros Hm Hd. unfold get. now rewrite Hm, Hd. Qed.

(** X11.  [get] keeps what it reads: a second [get] with the same
    arguments returns what the first returned and leaves the cache as the
    first left it, and when the first returned a photo the second opens no
    file. *)
Theorem get_twice :
  forall (c : ThumbCache image) (disk : gmap string (file image)) (path : string)
         (frame_idx : Z),
    let r1 := get c disk path frame_idx in
    let r2 := get r1.1.2 disk path frame_idx in
    r2.1.1 = r1.1.1 /\ r2.1.2 = r1.1.2 /\ (is_Some r1.1.1 -> r2.2 = []).
Proof.
  intros c disk path i. cbv zeta.
  destruct (mem c !! key c path i) as [ph|] eqn:Hm.
  - rewrite !(get_hit _ _ _ _ _ Hm). cbn [fst snd].
    rewrite ?(get_hit _ _ _ _ _ Hm). auto.
  - destruct (disk !! disk_path c path i) as [[im|]|] eqn:Hd.
    + rewrite !(get_disk_hit _ _ _ _ _ Hm Hd). cbn [fst snd].
      rewrite (get_hit (with_mem c (<[key c path i := PhotoImage im]> (mem c)))
                 disk path i (PhotoImage im)); [auto|].
      unfold key, with_mem. cbn [mem size]. apply lookup_insert_eq.
    + rewrite !(get_unreadable _ _ _ _ Hm Hd). cbn [fst snd].
      rewrite ?(get_unreadable _ _ _ _ Hm Hd). cbn [fst snd].
      split; [|split]; auto. intros [? ?]; discriminate.
    + rewrite !(get_absent _ _ _ _ Hm Hd). cbn [fst snd].
      rewrite ?(get_absent _ _ _ _ Hm Hd). cbn [fst snd]. auto.
Qed.

End WithImage.

(** X9 on a cache that holds one photo. *)
Lemma memory_never_evicts_witness :
  is_Some (mem (run_calls ((put (init "/r" 200) ∅ (Raised None) "/r/a_001.png" 0 tt).1.2,
                           (∅ : gmap string (file unit)))
                          [Get "/r/a_002.png" 1; Put Saved "/r/a_002.png" 1 tt]).1
           !! ("/r/a_001.png", 200, 0)).
Proof.
  apply (memory_never_evicts
           ((put (init "/r" 200) ∅ (Raised None) "/r/a_001.png" 0 tt).1.2,
            (∅ : gmap string (file unit)))
           [Get "/r/a_002.png" 1; Put Saved "/r/a_002.png" 1 tt]
           ("/r/a_001.png", 200, 0)).
  vm_compute. eauto.
Defined.

(** X11 on a disk that holds the file of the key. *)
Lemma get_twice_witness :
  let disk : gmap string (file unit) :=
    {[ disk_path (init (image := unit) "/r" 200) "/r/a_001.png" 0 := Png tt ]} in
  (get (get (init "/r" 200) disk "/r/a_001.png" 0).1.2 disk "/r/a_001.png" 0).2 = [].
Proof.
  intros disk.
  apply (get_twice (init "/r" 200) disk "/r/a_001.png" 0).
  vm_compute. eauto.
Defined.

End CacheMore.

(** ** More on tiles and ticks *)

Module SchedFacts.
Import Cache Wall WallFacts Sched.

Lemma pending_app (i : nat) (a b : list job) :
  pending i (a ++ b) = (pending i a + pending i b)%nat.
Proof. unfold pending. now rewrite List.filter_app, length_app. Qed.

Lemma pending_one (i k : nat) (path : string) (n : Z) :
  pending k [Job i path n] = if decide (i = k) then 1%nat else 0%nat.
Proof.
  unfold pending. simpl. destruct (decide (i = k)) as [->|Hne].
  - now rewrite Nat.eqb_refl.
  - apply Nat.eqb_neq in Hne. now rewrite Hne.
Qed.

Lemma pending_remove (k n : nat) (jobs : list job) (j : job) :
  jobs !! n = Some j ->
  (pending k (take n jobs ++ drop (S n) jobs)
   + (if decide (job_tile j = k) then 1 else 0))%nat
  = pending k jobs.
Proof.
  intros Hn. rewrite <- (take_drop_middle jobs n j Hn) at 3.
  rewrite !pending_app. change (j :: drop (S n) jobs) with ([j] ++ drop (S n) jobs).
  rewrite pending_app. destruct j as [i path m]. rewrite pending_one. simpl. lia.
Qed.

Section WithImage.
Context {image : Type}.
Context (thumbnail : image -> Z -> image).

(** The three ways [ensure_first_frame_loaded] ends. *)
Lemma ensure_cases (i : nat) (t : SeqTile image) (w : shared image) :
  let r := ensure_first_frame_loaded i t w in
  (r = (t, w) /\ first_loaded t || loading_first t || no_frames t = true)
  \/ (first_loaded t = false /\ loading_first t = false /\ no_frames t = false
      /\ ((exists ph c',
              (get (thumb_cache w) (disk w) (nth 0 (frames (seq t)) EmptyString) 0).1
              = (Some ph, c')
              /\ r = (set_flags (set_shown (set_flags t true false) (Drawn ph)) false true,
                      Shared c' (disk w) (pool w)))
          \/ (exists c',
                 (get (thumb_cache w) (disk w) (nth 0 (frames (seq t)) EmptyString) 0).1
                 = (None, c')
                 /\ r = (set_flags t true false,
                         Shared c' (disk w)
                           (pool w ++ [Job i (nth 0 (frames (seq t)) EmptyString) 0]))))).
Proof.
  unfold ensure_first_frame_loaded.
  destruct (first_loaded t) eqn:Hl; [left; auto|].
  destruct (loading_first t) eqn:Hg; [left; auto|].
  destruct (no_frames t) eqn:Hn; [left; auto|].
  right. cbn [orb]. repeat split.
  destruct (get (thumb_cache w) (disk w) (nth 0 (frames (seq t)) EmptyString) 0)
    as [[[ph|] c'] o]; cbn [fst]; [left | right]; eauto.
Qed.

(** The ways [step] ends. *)
Lemma step_cases (i : nat) (stp : Z) (t : SeqTile image) (w : shared image) :
  let r := step i stp t w in
  (r = (t, w) /\ negb (running t) || no_frames t = true)
  \/ (running t = true /\ no_frames t = false /\ first_loaded t = false
      /\ r = ensure_first_frame_loaded i t w)
  \/ (running t = true /\ no_frames t = false /\ first_loaded t = true
      /\ let t1 := set_idx t ((idx t + stp) mod Z.of_nat (length (frames (seq t)))) in
         let path := nth (Z.to_nat (idx t1)) (frames (seq t)) EmptyString in
         (exists ph c', r = (set_shown t1 (Drawn ph), Shared c' (disk w) (pool w)))
         \/ (exists c', r = (t1, Shared c' (disk w) (pool w ++ [Job i path (idx t1)])))).
Proof.
  unfold step.
  destruct (running t) eqn:Hr; [|left; auto].
  destruct (no_frames t) eqn:Hn; [left; auto|].
  destruct (first_loaded t) eqn:Hl; cbn [negb orb]; [|right; left; auto].
  right. right. repeat split. cbv zeta.
  match goal with |- context [get ?c ?d ?p ?k] =>
    destruct (get c d p k) as [[[ph|] c'] o] end; [left | right]; eauto.
Qed.

Lemma no_frames_false (t : SeqTile image) :
  no_frames t = false -> frames (seq t) <> [].
Proof. unfold no_frames. destruct (frames (seq t)); [discriminate | discriminate]. Qed.

Lemma mod_in_range (n : Z) (l : list string) :
  l <> [] -> 0 <= n mod Z.of_nat (length l) < Z.of_nat (length l).
Proof.
  intros Hl. apply Z.mod_pos_bound. destruct l; [congruence | simpl; lia].
Qed.

(** What one call of [ensure_first_frame_loaded] keeps. *)
Lemma ensure_keeps (i : nat) (t : SeqTile image) (w : shared image) :
  let r := ensure_first_frame_loaded i t w in
  same_widget t r.1 /\ idx r.1 = idx t /\ disk r.2 = disk w
  /\ (forall k, k <> i -> pending k (pool r.2) = pending k (pool w))
  /\ (one_load_in_flight t (pending i (pool w)) ->
      one_load_in_flight r.1 (pending i (pool r.2))).
Proof.
  destruct (ensure_cases i t w)
    as [[-> _] | (Hl & Hg & Hn & [(ph & c' & _ & ->) | (c' & _ & ->)])];
    cbn [fst snd disk pool]; unfold same_widget, one_load_in_flight;
    cbn [seq tile_size running winfo_y winfo_height idx first_loaded loading_first
         set_flags set_shown]; repeat split; auto; try discriminate.
  - intros k Hk. rewrite pending_app, pending_one.
    destruct (decide (i = k)); [congruence | lia].
  - intros Hok _. rewrite Hl, Hg in Hok. specialize (Hok eq_refl).
    rewrite pending_app, pending_one. destruct (decide (i = i)); [lia | congruence].
Qed.

(** What one call of [step] keeps. *)
Lemma step_keeps (i : nat) (stp : Z) (t : SeqTile image) (w : shared image) :
  let r := step i stp t w in
  same_widget t r.1 /\ disk r.2 = disk w
  /\ (idx_in_range t -> idx_in_range r.1)
  /\ (forall k, k <> i -> pending k (pool r.2) = pending k (pool w))
  /\ (one_load_in_flight t (pending i (pool w)) ->
      one_load_in_flight r.1 (pending i (pool r.2))).
Proof.
  cbv zeta.
  destruct (step_cases i stp t w)
    as [[-> _] | [(Hr & Hn & Hl & ->)
                 | (Hr & Hn & Hl & [(ph & c' & ->) | (c' & ->)])]].
  - cbn [fst snd]. unfold same_widget. split_and!; auto.
  - destruct (ensure_keeps i t w) as (Hs & Hi & Hd & Hk & Hok).
    split_and!; auto. unfold idx_in_range.
    destruct Hs as (-> & _). now rewrite Hi.
  - cbn [fst snd disk pool]. unfold same_widget, one_load_in_flight, idx_in_range.
    cbn [seq tile_size running winfo_y winfo_height idx first_loaded loading_first
         set_idx set_shown]. repeat split; auto; try congruence;
      apply mod_in_range; now apply no_frames_false.
  - cbn [fst snd disk pool]. unfold same_widget, one_load_in_flight, idx_in_range.
    cbn [seq tile_size running winfo_y winfo_height idx first_loaded loading_first
         set_idx set_shown]. repeat split; auto; try congruence;
      try (apply mod_in_range; now apply no_frames_false).
    intros k Hk. rewrite pending_app, pending_one.
    destruct (decide (i = k)); [congruence | lia].
Qed.

Lemma same_widget_trans (t1 t2 t3 : SeqTile image) :
  same_widget t1 t2 -> same_widget t2 t3 -> same_widget t1 t3.
Proof. unfold same_widget. intuition congruence. Qed.

(** What the loop body of [_tick] keeps for its tile. *)
Lemma tick_tile_keeps (y0 y1 stp : Z) (play : bool) (i : nat)
    (t : SeqTile image) (w : shared image) :
  let r := tick_tile y0 y1 stp play i t w in
  same_widget t r.1 /\ disk r.2 = disk w
  /\ (idx_in_range t -> idx_in_range r.1)
  /\ (play = false -> idx r.1 = idx t)
  /\ (forall k, k <> i -> pending k (pool r.2) = pending k (pool w))
  /\ (one_load_in_flight t (pending i (pool w)) ->
      one_load_in_flight r.1 (pending i (pool r.2))).
Proof.
  cbv zeta. unfold tick_tile. destruct (in_view y0 y1 t).
  - pose proof (ensure_keeps i t w) as (Hs & Hi & Hd & Hk & Hok).
    destruct (ensure_first_frame_loaded i t w) as [t1 w1]. cbn [fst snd] in *.
    assert (idx_in_range t -> idx_in_range t1) as Hrange.
    { unfold idx_in_range. destruct Hs as (-> & _). now rewrite Hi. }
    destruct play.
    + pose proof (step_keeps i stp t1 w1) as (Hs2 & Hd2 & Hr2 & Hk2 & Hok2).
      split_and!; eauto using same_widget_trans; try congruence.
      intros k Hne. rewrite Hk2, Hk by exact Hne. reflexivity.
    + cbn [fst snd]. split_and!; auto.
  - cbn [fst snd]. unfold same_widget. split_and!; auto.
Qed.

(** What the loop of [_tick] keeps, tile by tile. *)
Lemma tick_tiles_keeps (y0 y1 stp : Z) (play : bool) (ts : list (SeqTile image)) :
  forall (i : nat) (w : shared image),
    let r := tick_tiles y0 y1 stp play i ts w in
    length r.1 = length ts
    /\ disk r.2 = disk w
    /\ (forall n t, ts !! n = Some t ->
          exists t', r.1 !! n = Some t' /\ same_widget t t'
                     /\ (idx_in_range t -> idx_in_range t')
                     /\ (play = false -> idx t' = idx t))
    /\ (forall k, (k < i)%nat -> pending k (pool r.2) = pending k (pool w))
    /\ ((forall n t, ts !! n = Some t -> one_load_in_flight t (pending (i + n) (pool w))) ->
        forall n t', r.1 !! n = Some t' ->
                     one_load_in_flight t' (pending (i + n) (pool r.2))).
Proof.
  induction ts as [|t ts IH]; intros i w; cbv zeta; cbn [tick_tiles].
  - cbn [fst snd]. split_and!; auto; intros; discriminate.
  - pose proof (tick_tile_keeps y0 y1 stp play i t w) as (Hs & Hd & Hr & Hp & Hk & Hok).
    destruct (tick_tile y0 y1 stp play i t w) as [t1 w1]. cbn [fst snd] in *.
    specialize (IH (S i) w1). cbv zeta in IH.
    destruct (tick_tiles y0 y1 stp play (S i) ts w1) as [ts1 w2].
    cbn [fst snd] in *. destruct IH as (IHl & IHd & IHt & IHk & IHok).
    split_and!.
    + simpl. now rewrite IHl.
    + congruence.
    + intros [|n] t' Hn.
      * injection Hn as <-. exists t1. auto.
      * exact (IHt n t' Hn).
    + intros k Hlt. rewrite IHk by lia. apply Hk. lia.
    + intros Hall [|n] t' Hn.
      * injection Hn as <-. rewrite Nat.add_0_r, IHk by lia.
        apply Hok. specialize (Hall 0%nat t eq_refl). now rewrite Nat.add_0_r in Hall.
      * rewrite Nat.add_succ_r. apply (IHok); [|exact Hn].
        intros m tm Hm. rewrite Hk by lia.
        specialize (Hall (S m) tm Hm). now rewrite Nat.add_succ_r in Hall.
Qed.

Lemma tick_keeps (inp : tick_input) (a : app image) :
  length (tiles (tick inp a)) = length (tiles a)
  /\ disk (world (tick inp a)) = disk (world a)
  /\ (forall n t, tiles a !! n = Some t ->
        exists t', tiles (tick inp a) !! n = Some t' /\ same_widget t t'
                   /\ (idx_in_range t -> idx_in_range t')
                   /\ (animate inp = false -> idx t' = idx t))
  /\ ((forall n t, tiles a !! n = Some t ->
                   one_load_in_flight t (pending n (pool (world a)))) ->
      forall n t', tiles (tick inp a) !! n = Some t' ->
                   one_load_in_flight t' (pending n (pool (world (tick inp a))))).
Proof.
  unfold tick. destruct (tiles a) as [|t0 ts] eqn:Hts.
  - rewrite Hts. split_and!; auto. intros; discriminate.
  - destruct (visible_y_range (bbox inp) (canvas_y inp) (canvas_height inp)) as [y0 y1].
    pose proof (tick_tiles_keeps y0 y1 (Z.max 1 (frame_step inp)) (animate inp)
                  (t0 :: ts) 0%nat (world a)) as H. cbv zeta in H.
    destruct (tick_tiles y0 y1 (Z.max 1 (frame_step inp)) (animate inp) 0
                (t0 :: ts) (world a)) as [ts' w']. cbn [fst snd tiles world] in *.
    destruct H as (Hl & Hd & Ht & _ & Hok). split_and!; auto.
Qed.

Lemma load_and_cache_keeps_widget (decoded : option image) (saved : save_result image)
    (path : string) (k : Z) (t : SeqTile image) (w : shared image) :
  let r := load_and_cache thumbnail decoded saved path k t w in
  same_widget t r.1 /\ idx r.1 = idx t /\ pool r.2 = pool w
  /\ loading_first r.1 = false
  /\ (first_loaded r.1 = false -> first_loaded t = false /\ decoded = None)
  /\ (decoded = None -> shown r.1 = Some ErrorText /\ first_loaded r.1 = first_loaded t
                          /\ r.2 = w).
Proof.
  cbv zeta. unfold load_and_cache, same_widget. destruct decoded as [im|].
  - destruct (put (thumb_cache w) (disk w) saved path k (thumbnail im (tile_size t)))
      as [[ph c'] d']. cbn. split_and!; auto; discriminate.
  - cbn. split_and!; auto.
Qed.

Lemma run_event_keeps (e : event) (a : app image) :
  length (tiles (run_event thumbnail a e)) = length (tiles a)
  /\ (forall n t, tiles a !! n = Some t ->
        exists t', tiles (run_event thumbnail a e) !! n = Some t'
                   /\ seq t' = seq t /\ tile_size t' = tile_size t
                   /\ (idx_in_range t -> idx_in_range t'))
  /\ ((forall n t, tiles a !! n = Some t ->
                   one_load_in_flight t (pending n (pool (world a)))) ->
      forall n t', tiles (run_event thumbnail a e) !! n = Some t' ->
                   one_load_in_flight t' (pending n (pool (world (run_event thumbnail a e))))).
Proof.
  destruct e as [inp | n decoded saved | i | i y h]; cbn [run_event].
  - destruct (tick_keeps inp a) as (Hl & _ & Ht & Hok). split_and!; auto.
    intros n t Hn. destruct (Ht n t Hn) as (t' & Ht' & (Hs & Hz & _) & Hr & _). eauto.
  - unfold finish. destruct (pool (world a) !! n) as [j|] eqn:Hj.
    2:{ split_and!; eauto. }
    destruct (tiles a !! job_tile j) as [tj|] eqn:Htj.
    + match goal with |- context [load_and_cache ?th ?d ?s ?p ?k ?tt ?w] =>
        pose proof (load_and_cache_keeps_widget d s p k tt w)
          as ((Hs & Hz & _) & Hi & Hp & Hg & Hfl & _);
        destruct (load_and_cache th d s p k tt w) as [t' w'] end.
      cbn [fst snd tiles world pool] in *. split_and!.
      * apply length_insert.
      * intros m t Hm. destruct (decide (job_tile j = m)) as [<-|Hne].
        -- rewrite list_lookup_insert_eq by (eapply lookup_lt_Some; eauto).
           assert (tj = t) as -> by congruence. exists t'. split_and!; auto.
           unfold idx_in_range. now rewrite Hs, Hi.
        -- rewrite list_lookup_insert_ne by exact Hne. eauto.
      * intros Hall m t Hm. rewrite Hp.
        pose proof (pending_remove m n _ j Hj) as Hrem.
        destruct (decide (job_tile j = m)) as [<-|Hne].
        -- rewrite list_lookup_insert_eq in Hm by (eapply lookup_lt_Some; eauto).
           injection Hm as <-. intros Hfalse. destruct (Hfl Hfalse) as [Hf0 _].
           specialize (Hall _ _ Htj Hf0). rewrite Hg.
           destruct (loading_first tj); lia.
        -- rewrite list_lookup_insert_ne in Hm by exact Hne.
           specialize (Hall m t Hm). rewrite Nat.add_0_r in Hrem.
           now rewrite Hrem.
    + cbn [tiles world pool]. split_and!; eauto.
      intros Hall m t Hm. pose proof (pending_remove m n _ j Hj) as Hrem.
      destruct (decide (job_tile j = m)) as [Heq|Hne]; [congruence|].
      rewrite Nat.add_0_r in Hrem. rewrite Hrem. now apply Hall.
  - cbn [tiles world]. unfold update_tile. destruct (tiles a !! i) as [ti|] eqn:Hi.
    2:{ split_and!; eauto. }
    split_and!.
    + apply length_insert.
    + intros m t Hm. destruct (decide (i = m)) as [<-|Hne].
      * rewrite list_lookup_insert_eq by (eapply lookup_lt_Some; eauto).
        assert (ti = t) as -> by congruence. exists (toggle t). split_and!; auto.
      * rewrite list_lookup_insert_ne by exact Hne. eauto.
    + intros Hall m t Hm. destruct (decide (i = m)) as [<-|Hne].
      * rewrite list_lookup_insert_eq in Hm by (eapply lookup_lt_Some; eauto).
        injection Hm as <-. exact (Hall _ _ Hi).
      * rewrite list_lookup_insert_ne in Hm by exact Hne. now apply Hall.
  - cbn [tiles world]. unfold update_tile. destruct (tiles a !! i) as [ti|] eqn:Hi.
    2:{ split_and!; eauto. }
    split_and!.
    + apply length_insert.
    + intros m t Hm. destruct (decide (i = m)) as [<-|Hne].
      * rewrite list_lookup_insert_eq by (eapply lookup_lt_Some; eauto).
        assert (ti = t) as -> by congruence. exists (set_geometry t y h).
        split_and!; auto.
      * rewrite list_lookup_insert_ne by exact Hne. eauto.
    + intros Hall m t Hm. destruct (decide (i = m)) as [<-|Hne].
      * rewrite list_lookup_insert_eq in Hm by (eapply lookup_lt_Some; eauto).
        injection Hm as <-. exact (Hall _ _ Hi).
      * rewrite list_lookup_insert_ne in Hm by exact Hne. now apply Hall.
Qed.

Lemma run_keeps (es : list event) (a : app image) :
  length (tiles (run thumbnail a es)) = length (tiles a)
  /\ (forall n t, tiles a !! n = Some t ->
        exists t', tiles (run thumbnail a es) !! n = Some t'
                   /\ seq t' = seq t /\ tile_size t' = tile_size t
                   /\ (idx_in_range t -> idx_in_range t'))
  /\ ((forall n t, tiles a !! n = Some t ->
                   one_load_in_flight t (pending n (pool (world a)))) ->
      forall n t', tiles (run thumbnail a es) !! n = Some t' ->
                   one_load_in_flight t' (pending n (pool (world (run thumbnail a es))))).
Proof.
  revert a. induction es as [|e es IH]; intros a; cbn [run fold_left].
  - split_and!; eauto.
  - destruct (run_event_keeps e a) as (Hl & Ht & Hok).
    destruct (IH (run_event thumbnail a e)) as (IHl & IHt & IHok).
    fold (run thumbnail (run_event thumbnail a e) es) in *.
    split_and!.
    + congruence.
    + intros n t Hn. destruct (Ht n t Hn) as (t1 & H1 & Hs1 & Hz1 & Hr1).
      destruct (IHt n t1 H1) as (t2 & H2 & Hs2 & Hz2 & Hr2).
      exists t2. split_and!; auto; congruence.
    + intros Hall. apply IHok. now apply Hok.
Qed.

(** X12.  The frame index never leaves the frame list: when every tile
    starts with [0 <= idx < len(frames)] (or without frames), then after any
    run of ticks, finished jobs, clicks and geometry changes there are as
    many tiles as before, each still bound to its sequence and size, and each
    with [0 <= idx < len(frames)]: [frames[self.idx]] in [step] is always in
    range. *)
Theorem frame_index_stays_valid :
  forall (es : list event) (a : app image),
    (forall n t, tiles a !! n = Some t -> idx_in_range t) ->
    length (tiles (run thumbnail a es)) = length (tiles a)
    /\ forall n t',
         tiles (run thumbnail a es) !! n = Some t' ->
         idx_in_range t'
         /\ exists t, tiles a !! n = Some t /\ seq t' = seq t /\ tile_size t' = tile_size t.
Proof.
  intros es a Hall. destruct (run_keeps es a) as (Hl & Ht & _).
  split; [exact Hl|]. intros n t' Hn.
  assert (is_Some (tiles a !! n)) as [t Hnt].
  { apply lookup_lt_is_Some. rewrite <- Hl. eapply lookup_lt_Some; eauto. }
  destruct (Ht n t Hnt) as (t'' & Hn' & Hs & Hz & Hr).
  assert (t'' = t') as -> by congruence. split; [apply Hr; eauto | eauto].
Qed.

(** X13.  No tile has two first-frame loads in flight: starting with an
    empty pool, after any run of events a tile that is not yet loaded has at
    most one job pending, and none when its [loading_first] flag is down. *)
Theorem one_first_frame_load_at_a_time :
  forall (es : list event) (a : app image),
    pool (world a) = [] ->
    forall n t',
      tiles (run thumbnail a es) !! n = Some t' -> first_loaded t' = false ->
      (pending n (pool (world (run thumbnail a es))) <= 1)%nat
      /\ (loading_first t' = false ->
          pending n (pool (world (run thumbnail a es))) = 0%nat).
Proof.
  intros es a Hpool n t' Hn Hf. destruct (run_keeps es a) as (_ & _ & Hok).
  assert (one_load_in_flight t' (pending n (pool (world (run thumbnail a es))))) as H.
  { apply Hok; [|exact Hn]. intros m t _ _. rewrite Hpool.
    unfold pending. simpl. destruct (loading_first t); lia. }
  specialize (H Hf). destruct (loading_first t'); split; try lia; discriminate.
Qed.

(** X14.  A tick changes no tile's sequence, size, running flag or
    geometry, keeps the number of tiles, and writes nothing to the disk;
    with the play flag down it changes no frame index. *)
Theorem tick_keeps_widgets_and_disk :
  forall (inp : tick_input) (a : app image),
    length (tiles (tick inp a)) = length (tiles a)
    /\ disk (world (tick inp a)) = disk (world a)
    /\ forall n t,
         tiles a !! n = Some t ->
         exists t',
           tiles (tick inp a) !! n = Some t'
           /\ seq t' = seq t /\ tile_size t' = tile_size t /\ running t' = running t
           /\ winfo_y t' = winfo_y t /\ winfo_height t' = winfo_height t
           /\ (animate inp = false -> idx t' = idx t).
Proof.
  intros inp a. destruct (tick_keeps inp a) as (Hl & Hd & Ht & _).
  split; [exact Hl|]. split; [exact Hd|].
  intros n t Hn. destruct (Ht n t Hn) as (t' & Hn' & Hs & _ & Hp).
  destruct Hs as (? & ? & ? & ? & ?). exists t'. split_and!; auto.
Qed.

(** X15.  A failed load is tried again: when [Image.open] raises in the
    job of a tile that is not yet loaded, the tile shows the error text,
    stays not loaded, and its [loading_first] flag is down; at the next call
    of [ensure_first_frame_loaded] (the next tick that finds the tile in
    view) with the first frame still not cached, the same job is submitted
    again. *)
Theorem failed_load_is_retried :
  forall (i : nat) (t : SeqTile image) (w : shared image) (saved : save_result image)
         (path : string) (k : Z),
    first_loaded t = false -> frames (seq t) <> [] ->
    let r := load_and_cache thumbnail None saved path k t w in
    let first := nth 0 (frames (seq t)) EmptyString in
    shown r.1 = Some ErrorText /\ first_loaded r.1 = false
    /\ loading_first r.1 = false /\ r.2 = w
    /\ forall w',
         (get (thumb_cache w') (disk w') first 0).1.1 = None ->
         pool (ensure_first_frame_loaded i r.1 w').2 = pool w' ++ [Job i first 0].
Proof.
  intros i t w saved path k Hf Hfr. cbv zeta.
  unfold load_and_cache. cbn [fst snd]. unfold set_flags, set_shown. cbn.
  split_and!; auto. intros w' Hmiss.
  match goal with |- context [ensure_first_frame_loaded i ?t1 w'] =>
    destruct (ensure_cases i t1 w')
      as [[_ Hg] | (_ & _ & _ & [(ph & c' & Hget & _) | (c' & _ & ->)])] end.
  - cbn in Hg. rewrite Hf in Hg. unfold no_frames in Hg. cbn in Hg.
    destruct (frames (seq t)); [congruence | discriminate].
  - cbn [seq] in Hget. rewrite Hget in Hmiss. discriminate.
  - reflexivity.
Qed.

(** X16.  A first frame that a former session left on the disk shows at
    once: for a tile neither loaded nor loading whose first frame is not in
    the memory map but in a readable cache file,
    [ensure_first_frame_loaded] draws the cached photo, marks the tile
    loaded, copies the photo into the memory map and submits no job. *)
Theorem disk_cached_first_frame_shows_at_once :
  forall (i : nat) (t : SeqTile image) (w : shared image) (im : image),
    let first := nth 0 (frames (seq t)) EmptyString in
    first_loaded t = false -> loading_first t = false -> frames (seq t) <> [] ->
    mem (thumb_cache w) !! key (thumb_cache w) first 0 = None ->
    disk w !! disk_path (thumb_cache w) first 0 = Some (Png im) ->
    let r := ensure_first_frame_loaded i t w in
    first_loaded r.1 = true /\ loading_first r.1 = false
    /\ shown r.1 = Some (Drawn (PhotoImage im))
    /\ pool r.2 = pool w /\ disk r.2 = disk w
    /\ mem (thumb_cache r.2) !! key (thumb_cache w) first 0 = Some (PhotoImage im).
Proof.
  intros i t w im first Hf Hg Hfr Hm Hd. cbv zeta.
  unfold ensure_first_frame_loaded. rewrite Hf, Hg.
  assert (no_frames t = false) as ->
      by (unfold no_frames; destruct (frames (seq t)); congruence).
  cbn [orb]. fold first. rewrite (CacheMore.get_disk_hit _ _ _ _ _ Hm Hd).
  cbn. split_and!; auto. apply lookup_insert_eq.
Qed.

(** One tick on a tile in view that is running and loaded, with the play
    flag up. *)
Lemma tick_advances (inp : tick_input) (a : app image) (n : nat) (t : SeqTile image) :
  tiles a !! n = Some t ->
  running t = true -> first_loaded t = true -> frames (seq t) <> [] ->
  animate inp = true ->
  in_view (visible_y_range (bbox inp) (canvas_y inp) (canvas_height inp)).1
          (visible_y_range (bbox inp) (canvas_y inp) (canvas_height inp)).2 t = true ->
  exists t',
    tiles (tick inp a) !! n = Some t'
    /\ same_widget t t' /\ first_loaded t' = true
    /\ idx t' = (idx t + Z.max 1 (frame_step inp)) mod Z.of_nat (length (frames (seq t))).
Proof.
  intros Hn Hr Hl Hfr Hplay Hview.
  destruct (WallFacts.tick_lookup inp a n t Hn) as (w0 & Hw0).
  eexists. split; [exact Hw0|]. clear Hw0.
  unfold tick_tile. rewrite Hview, Hplay.
  assert (ensure_first_frame_loaded n t w0 = (t, w0)) as ->
      by (unfold ensure_first_frame_loaded; now rewrite Hl).
  destruct (step_cases n (Z.max 1 (frame_step inp)) t w0)
    as [[_ Hg] | [(_ & _ & Hc & _) | (_ & _ & _ & [(ph & c' & ->) | (c' & ->)])]].
  - rewrite Hr in Hg. cbn in Hg. unfold no_frames in Hg.
    destruct (frames (seq t)); [congruence | discriminate].
  - congruence.
  - cbn. unfold same_widget. cbn. split_and!; auto.
  - cbn. unfold same_widget. cbn. split_and!; auto.
Qed.

Lemma ticks_advance (inp : tick_input) (n : nat) (k : nat) :
  forall (a : app image) (t : SeqTile image),
    tiles a !! n = Some t ->
    running t = true -> first_loaded t = true ->
    0 <= idx t < Z.of_nat (length (frames (seq t))) ->
    animate inp = true ->
    in_view (visible_y_range (bbox inp) (canvas_y inp) (canvas_height inp)).1
            (visible_y_range (bbox inp) (canvas_y inp) (canvas_height inp)).2 t = true ->
    exists t',
      tiles (run thumbnail a (repeat (Tick inp) k)) !! n = Some t'
      /\ idx t' = (idx t + Z.of_nat k * Z.max 1 (frame_step inp))
                  mod Z.of_nat (length (frames (seq t))).
Proof.
  induction k as [|k IH]; intros a t Hn Hr Hl Hi Hplay Hview.
  - exists t. split; [exact Hn|].
    change (Z.of_nat 0) with 0. rewrite Z.mul_0_l, Z.add_0_r.
    symmetry. apply Z.mod_small. exact Hi.
  - assert (frames (seq t) <> []) as Hfr
        by (destruct (frames (seq t)); [simpl in Hi; lia | discriminate]).
    destruct (tick_advances inp a n t Hn Hr Hl Hfr Hplay Hview)
      as (t1 & Hn1 & (Hs & Hz & Hr1 & Hy & Hh) & Hl1 & Hi1).
    assert (in_view (visible_y_range (bbox inp) (canvas_y inp) (canvas_height inp)).1
              (visible_y_range (bbox inp) (canvas_y inp) (canvas_height inp)).2 t1
            = true) as Hview1.
    { unfold in_view, tile_height in *. now rewrite Hy, Hh, Hz. }
    assert (0 <= idx t1 < Z.of_nat (length (frames (seq t1)))) as Hi1'.
    { rewrite Hi1, Hs. apply mod_in_range. exact Hfr. }
    destruct (IH (tick inp a) t1 Hn1 ltac:(congruence) Hl1 Hi1' Hplay Hview1)
      as (t2 & Hn2 & Hi2).
    exists t2. split; [exact Hn2|]. rewrite Hi2, Hi1, Hs.
    rewrite Z.add_mod_idemp_l by lia. f_equal. lia.
Qed.

(** X17.  Playback advances by the frame step and wraps around: a tile in
    view that is running and loaded, with a valid frame index, has after [k]
    ticks with the play flag up the index
    [(idx + k * max(1, frame_step)) % len(frames)]; so after [len(frames)]
    ticks it is back on the frame it started from. *)
Theorem playback_advances_and_wraps :
  forall (k : nat) (inp : tick_input) (a : app image) (n : nat) (t : SeqTile image),
    tiles a !! n = Some t ->
    running t = true -> first_loaded t = true ->
    0 <= idx t < Z.of_nat (length (frames (seq t))) ->
    animate inp = true ->
    in_view (visible_y_range (bbox inp) (canvas_y inp) (canvas_height inp)).1
            (visible_y_range (bbox inp) (canvas_y inp) (canvas_height inp)).2 t = true ->
    exists t',
      tiles (run thumbnail a (repeat (Tick inp) k)) !! n = Some t'
      /\ idx t' = (idx t + Z.of_nat k * Z.max 1 (frame_step inp))
                  mod Z.of_nat (length (frames (seq t)))
      /\ (k = length (frames (seq t)) -> idx t' = idx t).
Proof.
  intros k inp a n t Hn Hr Hl Hi Hplay Hview.
  destruct (ticks_advance inp n k a t Hn Hr Hl Hi Hplay Hview) as (t' & Hn' & Hidx).
  exists t'. split_and!; auto.
  intros ->. rewrite Hidx, (Z.mul_comm (Z.of_nat _)).
  rewrite Z.mod_add by lia. apply Z.mod_small. exact Hi.
Qed.

End WithImage.

(** X12 on the demo tiles after a tick. *)
Lemma frame_index_stays_valid_witness :
  length (tiles (run (fun im _ => im) demo_app [Tick demo_tick])) = 3%nat.
Proof.
  apply (frame_index_stays_valid (fun im _ => im) [Tick demo_tick] demo_app).
  intros [|[|[|n]]] t Hn; cbn in Hn.
  4: destruct n; discriminate.
  all: injection Hn as <-; intros _; vm_compute; split; [discriminate | reflexivity].
Defined.

(** X13 on three tiles not yet loaded, after two ticks. *)
Lemma one_first_frame_load_at_a_time_witness :
  (pending 0 (pool (world (run (fun im _ => im) fresh_app
                             [Tick demo_tick; Tick demo_tick]))) <= 1)%nat.
Proof.
  apply (one_first_frame_load_at_a_time (fun im _ => im)
           [Tick demo_tick; Tick demo_tick] fresh_app eq_refl 0%nat
           (SeqTile_mk demo_seq 200 0 true true false 0 232 None)).
  - vm_compute. reflexivity.
  - reflexivity.
Defined.

(** X15 on a tile of three frames. *)
Lemma failed_load_is_retried_witness :
  shown (load_and_cache (fun im _ => im) None Saved "/r/a_001.png" 0
           (SeqTile_mk demo_seq 200 0 true true false 0 232 None)
           (Shared (init "/r" 200) ∅ [])).1
  = Some (ErrorText (image := unit)).
Proof.
  apply (failed_load_is_retried (fun im _ => im) 0%nat
           (SeqTile_mk demo_seq 200 0 true true false 0 232 None)
           (Shared (init "/r" 200) ∅ []) Saved "/r/a_001.png" 0).
  - reflexivity.
  - discriminate.
Defined.

(** X16 on a disk that holds the first frame of the demo sequence. *)
Lemma disk_cached_first_frame_shows_at_once_witness :
  first_loaded
    (ensure_first_frame_loaded 0
       (SeqTile_mk demo_seq 200 0 true false false 0 232 None)
       (Shared (init "/r" 200)
          {[ disk_path (init (image := unit) "/r" 200) "/r/a_001.png" 0 := Png tt ]} [])).1
  = true.
Proof.
  pose proof (disk_cached_first_frame_shows_at_once 0%nat
                (SeqTile_mk demo_seq 200 0 true false false 0 232 None)
                (Shared (init "/r" 200)
                   {[ disk_path (init (image := unit) "/r" 200) "/r/a_001.png" 0 := Png tt ]} [])
                tt) as H.
  cbv zeta in H. refine (proj1 (H _ _ _ _ _)).
  - reflexivity.
  - reflexivity.
  - discriminate.
  - vm_compute. reflexivity.
  - vm_compute. reflexivity.
Defined.

(** X17 on the first demo tile: three frames, frame step 2, three ticks. *)
Lemma playback_advances_and_wraps_witness :
  exists t',
    tiles (run (fun im _ => im) demo_app (repeat (Tick demo_tick) 3)) !! 0%nat = Some t'
    /\ idx t' = (0 + 3 * 2) mod 3
    /\ (3%nat = 3%nat -> idx t' = 0).
Proof.
  apply (playback_advances_and_wraps (fun im _ => im) 3 demo_tick demo_app 0%nat
           (demo_tile true true 0)).
  - reflexivity.
  - reflexivity.
  - reflexivity.
  - vm_compute. split; [discriminate | reflexivity].
  - reflexivity.
  - vm_compute. reflexivity.
Defined.

End SchedFacts.

(** ** The grid of tiles *)

Module ShellFacts.
Import Shell.

Lemma grid_cells_lookup (cols_var : Z) (n i : nat) (p : Z * Z) :
  grid_cells cols_var n !! i = Some p ->
  (i < n)%nat /\ p = divmod (Z.of_nat i) (Z.max 1 cols_var).
Proof.
  unfold grid_cells. cbv zeta. intros H.
  apply list_lookup_fmap_Some in H as (j & -> & Hj).
  apply lookup_seq in Hj as [-> Hlt]. auto.
Qed.

(** X18.  The grid gives every tile a cell of its own, row by row: the
    [i]-th tile sits in row [r] and column [c] with [i = r * cols + c] and
    [0 <= c < cols], where [cols] is the column setting, or 1 when the
    setting is 0 or negative; no two tiles get the same cell. *)
Theorem grid_cells_row_major :
  forall (cols_var : Z) (n : nat),
    length (grid_cells cols_var n) = n
    /\ (forall i r c,
          grid_cells cols_var n !! i = Some (r, c) ->
          0 <= r /\ 0 <= c < Z.max 1 cols_var
          /\ Z.of_nat i = r * Z.max 1 cols_var + c)
    /\ (forall i j p,
          grid_cells cols_var n !! i = Some p -> grid_cells cols_var n !! j = Some p ->
          i = j).
Proof.
  intros cols_var n.
  assert (forall i r c,
             grid_cells cols_var n !! i = Some (r, c) ->
             0 <= r /\ 0 <= c < Z.max 1 cols_var
             /\ Z.of_nat i = r * Z.max 1 cols_var + c) as Hcell.
  { intros i r c H. apply grid_cells_lookup in H as [_ H].
    unfold divmod in H. injection H as -> ->.
    assert (0 < Z.max 1 cols_var) as Hpos by lia.
    split_and!.
    - apply Z.div_pos; lia.
    - apply Z.mod_pos_bound; lia.
    - apply Z.mod_pos_bound; lia.
    - rewrite Z.mul_comm. apply Z.div_mod. lia. }
  split_and!.
  - unfold grid_cells. cbv zeta. now rewrite length_map, length_seq.
  - exact Hcell.
  - intros i j [r c] Hi Hj.
    apply Hcell in Hi as (_ & _ & Hi). apply Hcell in Hj as (_ & _ & Hj). lia.
Qed.

End ShellFacts.
